(** * Spaces: exact RREF and the four fundamental subspaces

    A shallow embedding of the computation core of the Spaces front end:

    - [src/utils/fractionUtils.js]  the class [Fraction];
    - [src/utils/rrefCalculator.js] the class [Matrix], [computeRREF],
      [isZeroRow], [getNonZeroRows];
    - the space calculator ([computeColumnSpace], [computeRowSpace],
      [computeNullSpace], [computeLeftNullSpace], [computeAllSpaces]);
    - [src/utils/matrixUtils.js]    [parseMatrixCell];
    - the computation engine ([validateMatrix]).

    Conventions of the embedding.

    - The program is embedded twice.  The first embedding reads the
      numerator and the denominator of a Fraction as integers ([Z]): it is
      the algorithm without the rounding and the overflow of double
      precision, and it carries the theorems on what the program does to
      arrays, rows and the operation log.  The second embedding, the module
      [Double], reads every number as the binary64 value JavaScript holds
      (round to nearest even, infinities, NaN; module [Binary64]): it
      carries what depends on the computed values.
    - A number outside a Fraction ([JsNumber]) is finite with its exact
      value in [Q], NaN or an infinity; [parseFloat] and the division of
      [parseMatrixCell] round to binary64.
    - A string is the sequence of bytes of its UTF-8 encoding.
    - A thrown [Error] is a [Throw] of the error monad; the constructors of
      [Error] name the messages of the source.
    - Arrays are objects of a heap, addressed by location, so that the
      sharing of row arrays between matrices is visible.
    - Renderings (LaTeX strings, notation and description of an operation)
      carry no computation and are left out. *)

From Stdlib Require Import ZArith QArith Qabs Qround Lia String Ascii.
From Stdlib Require SpecFloat.
From HB Require Import structures.
From mathcomp Require Import ssreflect ssrfun ssrbool eqtype ssrnat seq.
From mathcomp Require Import choice path order.
From mathcomp Require Import ssralg ssrnum ssrint rat binnums.

Set Implicit Arguments.
Unset Strict Implicit.
Unset Printing Implicit Defensive.

Import GRing.Theory Num.Theory.

Close Scope Q_scope.
Delimit Scope Z_scope with Z.
Delimit Scope int_scope with I.
Delimit Scope Q_scope with Q.
Delimit Scope rat_scope with RAT.

(** ** Errors *)

Inductive Error : Type :=
| DenominatorZero      (* 'Denominator cannot be zero' *)
| DivisionByZero       (* 'Division by zero' *)
| InvalidFraction      (* 'Invalid fraction: ...' *)
| InvalidNumber        (* 'Invalid number: ...' *)
| CannotConvert        (* 'Cannot convert ... to Fraction' *)
| MatrixEmpty          (* 'Matrix cannot be empty' *)
| NoColumns            (* 'Matrix must have at least one column' *)
| RowsNotUniform       (* 'All rows must have the same number of columns' *)
| DimensionsTooLarge   (* 'Matrix dimensions must be <= 5x5' *)
| InvalidValue         (* 'Invalid value at position (i, j)' *)
| TypeError            (* a property read or a method call on undefined *)
| RangeError.          (* 'Maximum call stack size exceeded' *)

Inductive Result (A : Type) : Type :=
| Ok (a : A)
| Throw (e : Error).

Arguments Ok {A} a.
Arguments Throw {A} e.

Definition isOk {A} (r : Result A) : bool :=
  if r is Ok _ then true else false.

Definition rbind {A B} (r : Result A) (k : A -> Result B) : Result B :=
  match r with
  | Ok a => k a
  | Throw e => Throw e
  end.

(** ** fractionUtils.js: class Fraction

    First embedding: numerator and denominator are integers, and the
    products and sums of the methods are exact.  The class on doubles is
    [Double.Fraction]. *)

Record Fraction : Type := MkFraction { numerator : Z; denominator : Z }.

(** [gcd(a, b) { return b === 0 ? a : this.gcd(b, a % b); }]
    The recursion is on fuel; [gcd] supplies [|b| + 1], which is enough
    ([gcd_fuel_enough]) because the second argument decreases in absolute
    value. *)
Fixpoint gcd_fuel (fuel : nat) (a b : Z) : Z :=
  match fuel with
  | O => a
  | S fuel' => if (b =? 0)%Z then a else gcd_fuel fuel' b (Z.rem a b)
  end.

Definition gcd (a b : Z) : Z := gcd_fuel (S (Z.to_nat (Z.abs b))) a b.

(** [constructor(numerator, denominator = 1)].  The two divisions by the gcd
    are exact. *)
Definition Fraction_new (numerator denominator : Z) : Result Fraction :=
  if (denominator =? 0)%Z then Throw DenominatorZero
  else
    let numerator' := if (denominator <? 0)%Z then (- numerator)%Z else numerator in
    let denominator' := if (denominator <? 0)%Z then (- denominator)%Z else denominator in
    let g := gcd (Z.abs numerator') (Z.abs denominator') in
    Ok (MkFraction (numerator' / g) (denominator' / g)).

Definition add (this other : Fraction) : Result Fraction :=
  let num := (numerator this * denominator other
              + numerator other * denominator this)%Z in
  let den := (denominator this * denominator other)%Z in
  Fraction_new num den.

Definition subtract (this other : Fraction) : Result Fraction :=
  let num := (numerator this * denominator other
              - numerator other * denominator this)%Z in
  let den := (denominator this * denominator other)%Z in
  Fraction_new num den.

Definition multiply (this other : Fraction) : Result Fraction :=
  Fraction_new (numerator this * numerator other)
               (denominator this * denominator other).

Definition divide (this other : Fraction) : Result Fraction :=
  if (numerator other =? 0)%Z then Throw DivisionByZero
  else Fraction_new (numerator this * denominator other)
                    (denominator this * numerator other).

Definition negate (this : Fraction) : Result Fraction :=
  Fraction_new (- numerator this) (denominator this).

Definition isZero (this : Fraction) : bool := (numerator this =? 0)%Z.

Definition equals (this other : Fraction) : bool :=
  (numerator this =? numerator other)%Z
  && (denominator this =? denominator other)%Z.

(** [toNumber() { return this.numerator / this.denominator; }], the quotient
    taken exactly; the rounded quotient is [Double.toNumber]. *)
Definition toNumber (this : Fraction) : Q :=
  (inject_Z (numerator this) / inject_Z (denominator this))%Q.

(** The invariant of the class: lowest terms, positive denominator. *)
Definition reduced (f : Fraction) : bool :=
  (0 <? denominator f)%Z
  && (Z.gcd (Z.abs (numerator f)) (denominator f) =? 1)%Z.

Definition zeroF : Fraction := MkFraction 0 1.
Definition oneF : Fraction := MkFraction 1 1.

(** ** Binary64: the numbers of JavaScript

    A number of the language is an IEEE 754 double.  [SpecFloat] of the
    standard library gives the values (signed zeros, infinities, NaN,
    [m * 2^e] with a sign) and the correctly rounded operations; the
    precision is 53 bits and the exponents end at 1024. *)

Module Binary64.

Definition prec : Z := 53.
Definition emax : Z := 1024.

Definition number : Type := SpecFloat.spec_float.

Definition zero : number := SpecFloat.S754_zero false.
Definition nan : number := SpecFloat.S754_nan.

(** [x * y], [x + y], [x - y], [x / y], [-x], [Math.abs(x)] *)
Definition mul : number -> number -> number := SpecFloat.SFmul prec emax.
Definition add : number -> number -> number := SpecFloat.SFadd prec emax.
Definition sub : number -> number -> number := SpecFloat.SFsub prec emax.
Definition div : number -> number -> number := SpecFloat.SFdiv prec emax.
Definition opp : number -> number := SpecFloat.SFopp.
Definition abs : number -> number := SpecFloat.SFabs.

(** [x === y], [x < y], [x <= y]: false as soon as one side is NaN; the two
    zeros are equal. *)
Definition eqb : number -> number -> bool := SpecFloat.SFeqb.
Definition ltb : number -> number -> bool := SpecFloat.SFltb.
Definition leb : number -> number -> bool := SpecFloat.SFleb.

(** The double nearest to an integer, and to a quotient of integers. *)
Definition ofZ (z : Z) : number :=
  SpecFloat.binary_normalize prec emax z 0 false.

Definition ofRatio (n : Z) (d : positive) : number :=
  match n with
  | Z0 => zero
  | Zpos p =>
      div (SpecFloat.S754_finite false p 0) (SpecFloat.S754_finite false d 0)
  | Zneg p =>
      div (SpecFloat.S754_finite true p 0) (SpecFloat.S754_finite false d 0)
  end.

Definition ofQ (q : Q) : number := ofRatio (Qnum q) (Qden q).

(** The exact value of a finite double (0 for the others). *)
Definition toQ (x : number) : Q :=
  match x with
  | SpecFloat.S754_finite s m e =>
      let z := if s then Zneg m else Zpos m in
      match e with
      | Z0 => inject_Z z
      | Zpos p => inject_Z (z * Z.pow_pos 2 p)
      | Zneg p => Qred (z # Pos.pow 2 p)
      end
  | _ => 0%Q
  end.

(** [isNaN(x)] *)
Definition nanb (x : number) : bool :=
  if x is SpecFloat.S754_nan then true else false.

(** [isFinite(x)] *)
Definition finiteb (x : number) : bool :=
  match x with
  | SpecFloat.S754_zero _ | SpecFloat.S754_finite _ _ _ => true
  | _ => false
  end.

(** [Number.isInteger(x)] *)
Definition integerb (x : number) : bool :=
  match x with
  | SpecFloat.S754_zero _ => true
  | SpecFloat.S754_finite _ m e =>
      match e with
      | Zneg p => (Z.rem (Zpos m) (Z.pow_pos 2 p) =? 0)%Z
      | _ => true
      end
  | _ => false
  end.

(** [a % b]: the remainder of the truncated division, which is exact; it
    has the sign of [a].  NaN when [a] is infinite or [b] is zero. *)
Definition rem (a b : number) : number :=
  match a, b with
  | SpecFloat.S754_nan, _ | _, SpecFloat.S754_nan => nan
  | SpecFloat.S754_infinity _, _ => nan
  | _, SpecFloat.S754_zero _ => nan
  | _, SpecFloat.S754_infinity _ => a
  | SpecFloat.S754_zero _, _ => a
  | SpecFloat.S754_finite sa ma ea, SpecFloat.S754_finite _ mb eb =>
      let e := Z.min ea eb in
      let x := (Zpos ma * 2 ^ (ea - e))%Z in
      let y := (Zpos mb * 2 ^ (eb - e))%Z in
      let r := Z.rem x y in
      SpecFloat.binary_normalize prec emax (if sa then (- r)%Z else r) e sa
  end.

(** [Math.round(x)]: the nearest integer, halves upwards. *)
Definition round (x : number) : number :=
  match x with
  | SpecFloat.S754_finite s m (Zneg p) =>
      let z := if s then Zneg m else Zpos m in
      let n := ((2 * z + Z.pow_pos 2 p) / (2 * Z.pow_pos 2 p))%Z in
      SpecFloat.binary_normalize prec emax n 0 s
  | _ => x
  end.

End Binary64.

(** ** JavaScript numbers and strings

    Outside the class Fraction a number is held as [JsNumber]: finite (its
    exact value), NaN, or an infinity.  The sign of zero is not
    represented. *)

Inductive JsNumber : Type :=
| Finite (q : Q)
| NaN
| Infinity (negative : bool).

Definition ofDouble (x : Binary64.number) : JsNumber :=
  match x with
  | SpecFloat.S754_zero _ => Finite 0
  | SpecFloat.S754_infinity s => Infinity s
  | SpecFloat.S754_nan => NaN
  | SpecFloat.S754_finite _ _ _ => Finite (Binary64.toQ x)
  end.

Definition toDouble (x : JsNumber) : Binary64.number :=
  match x with
  | Finite q => Binary64.ofQ q
  | NaN => Binary64.nan
  | Infinity s => SpecFloat.S754_infinity s
  end.

(** The double nearest to a rational, ties to even; an infinity beyond the
    largest double. *)
Definition roundDouble (q : Q) : JsNumber := ofDouble (Binary64.ofQ q).

Definition Number_isInteger (x : JsNumber) : bool :=
  if x is Finite q then (Zpos (Qden (Qred q)) =? 1)%Z else false.

Definition isNaN (x : JsNumber) : bool :=
  if x is NaN then true else false.

Definition isFinite (x : JsNumber) : bool :=
  if x is Finite _ then true else false.

(** [x === 0] on numbers. *)
Definition isZeroNumber (x : JsNumber) : bool :=
  if x is Finite q then Qeq_bool q 0 else false.

Definition Qlt_bool (x y : Q) : bool := ~~ Qle_bool y x.

Definition isNegative (x : JsNumber) : bool :=
  match x with
  | Finite q => Qlt_bool q 0
  | NaN => false
  | Infinity negative => negative
  end.

(** [num / den] on numbers, where the caller has excluded [den === 0]. *)
Definition jsDivide (num den : JsNumber) : JsNumber :=
  match num, den with
  | NaN, _ | _, NaN => NaN
  | Infinity _, Infinity _ => NaN
  | Infinity s, Finite d => Infinity (xorb s (Qlt_bool d 0))
  | Finite _, Infinity _ => Finite 0
  | Finite n, Finite d => if Qeq_bool d 0 then NaN else roundDouble (n / d)%Q
  end.

(** [Math.round]: the nearest integer, halves upwards. *)
Definition Math_round (x : Q) : Z := Qfloor (x + (1 # 2))%Q.

(** White space removed by [String.prototype.trim] and skipped by
    [parseFloat]: the code points of WhiteSpace and LineTerminator.  Below
    U+0080 these are 9 to 13 and 32. *)
Definition isWhiteSpace (c : ascii) : bool :=
  let n := nat_of_ascii c in
  (n == 32) || ((9 <= n) && (n <= 13)).

(** U+00A0, encoded on two bytes. *)
Definition isWhiteSpace2 (c1 c2 : ascii) : bool :=
  (nat_of_ascii c1 == 194) && (nat_of_ascii c2 == 160).

(** U+1680, U+2000 to U+200A, U+2028, U+2029, U+202F, U+205F, U+3000 and
    U+FEFF, encoded on three bytes. *)
Definition isWhiteSpace3 (c1 c2 c3 : ascii) : bool :=
  let n1 := nat_of_ascii c1 in
  let n2 := nat_of_ascii c2 in
  let n3 := nat_of_ascii c3 in
  [|| [&& n1 == 225, n2 == 154 & n3 == 128],
      [&& n1 == 226, n2 == 128 &
          [|| (128 <= n3) && (n3 <= 138), n3 == 168, n3 == 169 | n3 == 175]],
      [&& n1 == 226, n2 == 129 & n3 == 159],
      [&& n1 == 227, n2 == 128 & n3 == 128]
    | [&& n1 == 239, n2 == 187 & n3 == 191]].

Fixpoint trimStart (s : string) : string :=
  match s with
  | EmptyString => EmptyString
  | String c1 s1 =>
      if isWhiteSpace c1 then trimStart s1
      else match s1 with
           | String c2 s2 =>
               if isWhiteSpace2 c1 c2 then trimStart s2
               else match s2 with
                    | String c3 s3 =>
                        if isWhiteSpace3 c1 c2 c3 then trimStart s3 else s
                    | EmptyString => s
                    end
           | EmptyString => s
           end
  end.

(** Every code point of [s] is white space. *)
Fixpoint allWhiteSpace (s : string) : bool :=
  match s with
  | EmptyString => true
  | String c1 s1 =>
      if isWhiteSpace c1 then allWhiteSpace s1
      else match s1 with
           | String c2 s2 =>
               if isWhiteSpace2 c1 c2 then allWhiteSpace s2
               else match s2 with
                    | String c3 s3 =>
                        isWhiteSpace3 c1 c2 c3 && allWhiteSpace s3
                    | EmptyString => false
                    end
           | EmptyString => false
           end
  end.

Fixpoint trimEnd (s : string) : string :=
  match s with
  | EmptyString => EmptyString
  | String c s' => if allWhiteSpace s then EmptyString else String c (trimEnd s')
  end.

Definition trim (s : string) : string := trimEnd (trimStart s).

Definition isEmptyString (s : string) : bool :=
  if s is EmptyString then true else false.

Definition slash : ascii := ascii_of_nat 47.

(** [s.includes('/')] *)
Fixpoint includesSlash (s : string) : bool :=
  match s with
  | EmptyString => false
  | String c s' => (nat_of_ascii c == 47) || includesSlash s'
  end.

(** [s.split('/')]: the pieces between the slashes. *)
Fixpoint splitSlash (s : string) : seq string :=
  match s with
  | EmptyString => [:: EmptyString]
  | String c s' =>
      if nat_of_ascii c == 47 then EmptyString :: splitSlash s'
      else match splitSlash s' with
           | [::] => [:: String c EmptyString]
           | piece :: pieces => String c piece :: pieces
           end
  end.

(** *** parseFloat

    The longest prefix of the input, after leading white space, that is a
    decimal literal: an optional sign, then [Infinity] or digits with an
    optional fraction part and an optional exponent.  No such prefix gives
    NaN.  The result is the double nearest to the value of the literal. *)

Definition digitOf (c : ascii) : option Z :=
  let n := nat_of_ascii c in
  if (48 <= n) && (n <= 57) then Some (Z.of_nat (n - 48)) else None.

(** Reads digits: the value read so far, the count of digits, the rest. *)
Fixpoint readDigits (s : string) (acc : Z) (count : nat) : Z * nat * string :=
  match s with
  | EmptyString => (acc, count, s)
  | String c s' =>
      match digitOf c with
      | Some d => readDigits s' (acc * 10 + d)%Z count.+1
      | None => (acc, count, s)
      end
  end.

Definition readExponent (s : string) : Z :=
  match s with
  | String c s' =>
      if (nat_of_ascii c == 101) || (nat_of_ascii c == 69) then
        let '(negative, s'') :=
          match s' with
          | String c' t =>
              if nat_of_ascii c' == 45 then (true, t)
              else if nat_of_ascii c' == 43 then (false, t)
              else (false, s')
          | EmptyString => (false, s')
          end in
        let '(e, count, _) := readDigits s'' 0%Z 0 in
        if count == 0 then 0%Z else if negative then (- e)%Z else e
      else 0%Z
  | EmptyString => 0%Z
  end.

Definition pow10 (e : Z) : Q :=
  match e with
  | Z0 => 1%Q
  | Zpos p => inject_Z (Z.pow_pos 10 p)
  | Zneg p => (1 # Pos.pow 10 p)%Q
  end.

Definition readUnsigned (s : string) : JsNumber :=
  if String.prefix "Infinity"%string s then Infinity false
  else
    let '(intPart, intCount, rest) := readDigits s 0%Z 0 in
    let '(fracPart, fracCount, rest') :=
      match rest with
      | String c t =>
          if nat_of_ascii c == 46 then readDigits t 0%Z 0 else (0%Z, 0, rest)
      | EmptyString => (0%Z, 0, rest)
      end in
    if (intCount == 0) && (fracCount == 0) then NaN
    else
      let mantissa :=
        (inject_Z intPart
         + inject_Z fracPart * pow10 (- Z.of_nat fracCount))%Q in
      roundDouble (mantissa * pow10 (readExponent rest')).

Definition jsNegate (x : JsNumber) : JsNumber :=
  match x with
  | Finite q => Finite (- q)%Q
  | NaN => NaN
  | Infinity negative => Infinity (~~ negative)
  end.

Definition parseFloat (s : string) : JsNumber :=
  match trimStart s with
  | String c s' =>
      if nat_of_ascii c == 45 then jsNegate (readUnsigned s')
      else if nat_of_ascii c == 43 then readUnsigned s'
      else readUnsigned (String c s')
  | EmptyString => NaN
  end.

(** ** matrixUtils.js: parseMatrixCell *)

Definition parseMatrixCell (value : string) : Result JsNumber :=
  let trimmed := trim value in
  if isEmptyString trimmed then Ok (Finite 0)
  else if includesSlash trimmed then
    let parts := [seq parseFloat (trim s) | s <- splitSlash trimmed] in
    let num := nth NaN parts 0 in
    let den := nth NaN parts 1 in
    if isNaN num || isNaN den || isZeroNumber den then Throw InvalidFraction
    else Ok (jsDivide num den)
  else
    let num := parseFloat trimmed in
    if isNaN num then Throw InvalidNumber else Ok num.

(** [fillZeros] of the matrix input component, on one cell:
    [cell.trim() === '' ? '0' : cell]. *)
Definition fillZerosCell (cell : string) : string :=
  if isEmptyString (trim cell) then "0"%string else cell.

(** ** fractionUtils.js: conversions to Fraction *)

(** The search loop of [fromDecimal]: [denominator] runs from its start
    value for [count] iterations; [best] is
    (bestNumerator, bestDenominator, bestError).  Products, quotients and
    differences are exact here, and rounded in [Double.searchDenominator]. *)
Fixpoint searchDenominator (count : nat) (decimal : Q) (denominator : Z)
    (best : Z * Z * Q) : Z * Z :=
  match count with
  | O => (best.1.1, best.1.2)
  | S count' =>
      let numerator := Math_round (decimal * inject_Z denominator)%Q in
      let error :=
        Qabs (decimal - inject_Z numerator / inject_Z denominator)%Q in
      if Qlt_bool error best.2 then
        if Qlt_bool error (1 # 10000000000)%Q then (numerator, denominator)
        else searchDenominator count' decimal (denominator + 1)%Z
               (numerator, denominator, error)
      else searchDenominator count' decimal (denominator + 1)%Z best
  end.

Definition maxDenominator : nat := 10000.

(** [static fromDecimal(decimal, maxDenominator = 10000)].  On NaN and on an
    infinity every comparison of the loop is false, so the initial best
    pair 1/1 is kept. *)
Definition fromDecimal (decimal : JsNumber) : Result Fraction :=
  match decimal with
  | Finite q =>
      if Number_isInteger decimal then Fraction_new (Qnum (Qred q)) 1
      else
        let sign := if Qlt_bool q 0 then (-1)%Z else 1%Z in
        let decimal := Qabs q in
        let best :=
          searchDenominator maxDenominator decimal 1%Z
            (1%Z, 1%Z, Qabs (decimal - 1)%Q) in
        Fraction_new (sign * best.1) best.2
  | NaN => Fraction_new 1 1
  | Infinity negative => Fraction_new (if negative then (-1)%Z else 1%Z) 1
  end.

(** A cell of an input grid in the first embedding: the values
    [computeAllSpaces] is given after parsing, that is numbers, and anything
    that is neither a number, a string nor a Fraction ([VOther]).  Strings,
    which the engine parses upstream with [parseMatrixCell], and
    [Fraction.fromString] are part of the second embedding
    ([Double.JsValue], [Double.fromString]). *)
Inductive JsValue : Type :=
| VNumber (x : JsNumber)
| VFraction (f : Fraction)
| VOther.

(** [static from(value)] *)
Definition Fraction_from (value : JsValue) : Result Fraction :=
  match value with
  | VFraction f => Ok f
  | VNumber x => fromDecimal x
  | VOther => Throw CannotConvert
  end.

(** ** The heap: arrays as shared mutable objects

    A [Matrix] owns an outer array ([this.data], an array of references to
    row arrays) and one array per row.  Both are objects of the heap; a
    location is an index into it, and allocation appends. *)

Definition loc : Type := nat.

Inductive Obj : Type :=
| RowArray (cells : seq Fraction)
| DataArray (rowRefs : seq loc).

Definition Heap : Type := seq Obj.

Definition HM (A : Type) : Type := Heap -> Result (A * Heap).

Definition ret {A} (a : A) : HM A := fun h => Ok (a, h).

Definition bind {A B} (c : HM A) (k : A -> HM B) : HM B :=
  fun h => match c h with
           | Ok (a, h') => k a h'
           | Throw e => Throw e
           end.

Definition throw {A} (e : Error) : HM A := fun _ => Throw e.

Definition lift {A} (r : Result A) : HM A :=
  fun h => match r with
           | Ok a => Ok (a, h)
           | Throw e => Throw e
           end.

Declare Scope hm_scope.
Delimit Scope hm_scope with hm.
Notation "x <-- c ;; k" := (bind c (fun x => k))
  (at level 61, c at next level, right associativity) : hm_scope.
Notation "c ;;; k" := (bind c (fun _ => k))
  (at level 61, right associativity) : hm_scope.
Local Open Scope hm_scope.

Definition alloc (o : Obj) : HM loc := fun h => Ok (size h, rcons h o).

Definition readRow (l : loc) : HM (seq Fraction) :=
  fun h => if l < size h then
             match nth (RowArray [::]) h l with
             | RowArray cells => Ok (cells, h)
             | DataArray _ => Throw TypeError
             end
           else Throw TypeError.

Definition readData (l : loc) : HM (seq loc) :=
  fun h => if l < size h then
             match nth (RowArray [::]) h l with
             | DataArray rowRefs => Ok (rowRefs, h)
             | RowArray _ => Throw TypeError
             end
           else Throw TypeError.

Definition write (l : loc) (o : Obj) : HM unit :=
  fun h => if l < size h then Ok (tt, set_nth (RowArray [::]) h l o)
           else Throw TypeError.

Fixpoint forEach {A} (xs : seq A) (body : A -> HM unit) : HM unit :=
  match xs with
  | [::] => ret tt
  | x :: xs' => body x ;;; forEach xs' body
  end.

Fixpoint mapM {A B} (f : A -> HM B) (xs : seq A) : HM (seq B) :=
  match xs with
  | [::] => ret [::]
  | x :: xs' => y <-- f x ;; ys <-- mapM f xs' ;; ret (y :: ys)
  end.

Fixpoint mapR {A B} (f : A -> Result B) (xs : seq A) : Result (seq B) :=
  match xs with
  | [::] => Ok [::]
  | x :: xs' => rbind (f x) (fun y => rbind (mapR f xs') (fun ys => Ok (y :: ys)))
  end.

(** ** rrefCalculator.js: class Matrix *)

Record Matrix : Type := MkMatrix { data : loc; rows : nat; cols : nat }.

(** [this.data[i]]: the reference to row [i]; out of range it is undefined,
    and every use in the source then reads a property of undefined. *)
Definition rowRef (this : Matrix) (i : nat) : HM loc :=
  rowRefs <-- readData (data this) ;;
  if i < size rowRefs then ret (nth 0 rowRefs i) else throw TypeError.

(** [constructor(data)] *)
Definition Matrix_new (grid : seq (seq JsValue)) : HM Matrix :=
  rowRefs <-- mapM (fun row => cells <-- lift (mapR Fraction_from row) ;;
                              alloc (RowArray cells)) grid ;;
  d <-- alloc (DataArray rowRefs) ;;
  ret (MkMatrix d (size grid) (size (head [::] grid))).

(** [get(i, j) { return this.data[i][j]; }]  Every caller invokes a method
    on the result, so an undefined result is the TypeError of that call. *)
Definition get (this : Matrix) (i j : nat) : HM Fraction :=
  r <-- rowRef this i ;;
  cells <-- readRow r ;;
  if j < size cells then ret (nth zeroF cells j) else throw TypeError.

(** [this.data[i][j] = value] *)
Definition putCell (this : Matrix) (i j : nat) (value : Fraction) : HM unit :=
  r <-- rowRef this i ;;
  cells <-- readRow r ;;
  write r (RowArray (set_nth zeroF cells j value)).

(** [clone()]: [this.data.map(row => [...row])] copies the outer array and
    every row array. *)
Definition clone (this : Matrix) : HM Matrix :=
  rowRefs <-- readData (data this) ;;
  newRefs <-- mapM (fun r => cells <-- readRow r ;; alloc (RowArray cells))
                  rowRefs ;;
  newData <-- alloc (DataArray newRefs) ;;
  ret (MkMatrix newData (rows this) (cols this)).

(** [swapRows(i, j)]: exchanges two references of the outer array.  The
    program calls it with two rows of the matrix.  Out of range the source
    stores undefined in the array; the arrays of the embedding hold
    references only, and the case is the TypeError of the next access. *)
Definition swapRows (this : Matrix) (i j : nat) : HM unit :=
  rowRefs <-- readData (data this) ;;
  if (i < size rowRefs) && (j < size rowRefs) then
    let ri := nth 0 rowRefs i in
    let rj := nth 0 rowRefs j in
    write (data this) (DataArray (set_nth 0 (set_nth 0 rowRefs i rj) j ri))
  else throw TypeError.

(** [multiplyRow(i, scalar)] *)
Definition multiplyRow (this : Matrix) (i : nat) (scalar : Fraction) : HM unit :=
  frac <-- lift (Fraction_from (VFraction scalar)) ;;
  forEach (iota 0 (cols this)) (fun j =>
    x <-- get this i j ;;
    y <-- lift (multiply x frac) ;;
    putCell this i j y).

(** [addRowMultiple(i, j, scalar)]: row[i] += scalar * row[j] *)
Definition addRowMultiple (this : Matrix) (i j : nat) (scalar : Fraction)
    : HM unit :=
  frac <-- lift (Fraction_from (VFraction scalar)) ;;
  forEach (iota 0 (cols this)) (fun k =>
    x <-- get this i k ;;
    y <-- get this j k ;;
    p <-- lift (multiply y frac) ;;
    s <-- lift (add x p) ;;
    putCell this i k s).

(** [toArray()]: the numeric grid. *)
Definition toArray (this : Matrix) : HM (seq (seq Q)) :=
  rowRefs <-- readData (data this) ;;
  mapM (fun r => cells <-- readRow r ;; ret [seq toNumber f | f <- cells])
       rowRefs.

(** [toFractionArray()] *)
Definition toFractionArray (this : Matrix) : HM (seq (seq Fraction)) :=
  rowRefs <-- readData (data this) ;;
  mapM readRow rowRefs.

(** [transpose()]: row [j] of the result holds [this.data[i][j]] for each
    row [i]; the rows and the outer array of the result are new. *)
Definition transpose (this : Matrix) : HM Matrix :=
  newRefs <-- mapM (fun j =>
               cells <-- mapM (fun i => get this i j) (iota 0 (rows this)) ;;
               alloc (RowArray cells))
             (iota 0 (cols this)) ;;
  d <-- alloc (DataArray newRefs) ;;
  ret (MkMatrix d (cols this) (rows this)).

(** ** rrefCalculator.js: computeRREF *)

Inductive OpType : Type := swap | scale | addOp.

Inductive OpParams : Type :=
| SwapParams (row1 row2 : nat)
| ScaleParams (row : nat) (scalar : Fraction)
| AddParams (targetRow sourceRow : nat) (scalar : Fraction).

(** An entry of the operation log; [matrixAfter] is undefined until
    [updateLastOperation] sets it. *)
Record Operation : Type := MkOperation {
  type : OpType;
  params : OpParams;
  matrixBefore : Matrix;
  matrixAfter : option Matrix
}.

(** [recordOperation(type, notation, description, params)] pushes an entry
    with a snapshot of [m]; [operations] is null when not tracking. *)
Definition recordOperation (trackOperations : bool) (m : Matrix)
    (ty : OpType) (ps : OpParams) (operations : option (seq Operation))
    : HM (option (seq Operation)) :=
  if ~~ trackOperations then ret operations
  else match operations with
       | None => throw TypeError
       | Some ops =>
           before <-- clone m ;;
           ret (Some (rcons ops (MkOperation ty ps before None)))
       end.

(** [updateLastOperation()] *)
Definition updateLastOperation (trackOperations : bool) (m : Matrix)
    (operations : option (seq Operation)) : HM (option (seq Operation)) :=
  if ~~ trackOperations then ret operations
  else match operations with
       | None => throw TypeError
       | Some ops =>
           if size ops == 0 then ret operations
           else
             let last := nth (MkOperation swap (SwapParams 0 0) m None)
                             ops (size ops - 1) in
             after <-- clone m ;;
             ret (Some (set_nth last ops (size ops - 1)
                          (MkOperation (type last) (params last)
                                       (matrixBefore last) (Some after))))
       end.

(** The scan for the pivot: [pivotRow] and [maxVal] over the rows below
    [currentRow]. *)
Fixpoint scanPivot (m : Matrix) (col : nat) (scanRows : seq nat)
    (pivotRow : nat) (maxVal : Q) : HM nat :=
  match scanRows with
  | [::] => ret pivotRow
  | row :: scanRows' =>
      x <-- get m row col ;;
      let val := Qabs (toNumber x) in
      if Qlt_bool maxVal val then scanPivot m col scanRows' row val
      else scanPivot m col scanRows' pivotRow maxVal
  end.

Definition findPivot (m : Matrix) (currentRow col : nat) : HM nat :=
  x <-- get m currentRow col ;;
  scanPivot m col (iota currentRow.+1 (rows m - currentRow.+1))
            currentRow (Qabs (toNumber x)).

(** The mutable locals of [computeRREF]. *)
Record RrefState : Type := MkRrefState {
  pivots : seq nat;
  operations : option (seq Operation);
  currentRow : nat
}.

(** The loop that clears column [col] in every row but [currentRow]. *)
Fixpoint eliminate (trackOperations : bool) (m : Matrix) (col cur : nat)
    (elimRows : seq nat) (ops : option (seq Operation))
    : HM (option (seq Operation)) :=
  match elimRows with
  | [::] => ret ops
  | row :: elimRows' =>
      if row != cur then
        x <-- get m row col ;;
        if ~~ isZero x then
          x' <-- get m row col ;;
          factor <-- lift (negate x') ;;
          ops1 <-- recordOperation trackOperations m addOp
                    (AddParams row cur factor) ops ;;
          addRowMultiple m row cur factor ;;;
          ops2 <-- updateLastOperation trackOperations m ops1 ;;
          eliminate trackOperations m col cur elimRows' ops2
        else eliminate trackOperations m col cur elimRows' ops
      else eliminate trackOperations m col cur elimRows' ops
  end.

(** One iteration of the main loop, for column [col]. *)
Definition rrefStep (trackOperations : bool) (m : Matrix) (col : nat)
    (st : RrefState) : HM RrefState :=
  let cur := currentRow st in
  pivotRow <-- findPivot m cur col ;;
  p <-- get m pivotRow col ;;
  if isZero p then ret st
  else
    ops1 <-- (if pivotRow != cur then
               o <-- recordOperation trackOperations m swap
                      (SwapParams cur pivotRow) (operations st) ;;
               swapRows m cur pivotRow ;;;
               updateLastOperation trackOperations m o
             else ret (operations st)) ;;
    pivot <-- get m cur col ;;
    one <-- lift (Fraction_new 1 1) ;;
    ops2 <-- (if ~~ equals pivot one then
               scalar <-- lift (divide one pivot) ;;
               o <-- recordOperation trackOperations m scale
                      (ScaleParams cur scalar) ops1 ;;
               multiplyRow m cur scalar ;;;
               updateLastOperation trackOperations m o
             else ret ops1) ;;
    ops3 <-- eliminate trackOperations m col cur (iota 0 (rows m)) ops2 ;;
    ret (MkRrefState (rcons (pivots st) col) ops3 cur.+1).

(** [for (let col = 0; col < m.cols && currentRow < m.rows; col++)] *)
Fixpoint rrefLoop (trackOperations : bool) (m : Matrix) (columns : seq nat)
    (st : RrefState) : HM RrefState :=
  match columns with
  | [::] => ret st
  | col :: columns' =>
      if currentRow st < rows m then
        st' <-- rrefStep trackOperations m col st ;;
        rrefLoop trackOperations m columns' st'
      else ret st
  end.

Record RrefResult : Type := MkRrefResult {
  rref : Matrix;
  rrefPivots : seq nat;
  rrefOperations : option (seq Operation)
}.

Definition computeRREF (matrix : Matrix) (trackOperations : bool)
    : HM RrefResult :=
  m <-- clone matrix ;;
  st <-- rrefLoop trackOperations m (iota 0 (cols m))
          (MkRrefState [::] (if trackOperations then Some [::] else None) 0) ;;
  ret (MkRrefResult m (pivots st) (operations st)).

Definition computeRank (matrix : Matrix) : HM nat :=
  r <-- computeRREF matrix false ;;
  ret (size (rrefPivots r)).

(** [isZeroRow(matrix, rowIndex)] *)
Fixpoint isZeroRowFrom (matrix : Matrix) (rowIndex : nat) (js : seq nat)
    : HM bool :=
  match js with
  | [::] => ret true
  | j :: js' =>
      x <-- get matrix rowIndex j ;;
      if ~~ isZero x then ret false else isZeroRowFrom matrix rowIndex js'
  end.

Definition isZeroRow (matrix : Matrix) (rowIndex : nat) : HM bool :=
  isZeroRowFrom matrix rowIndex (iota 0 (cols matrix)).

(** [getNonZeroRows(matrix)]: the row arrays themselves, not copies. *)
Fixpoint getNonZeroRowsFrom (matrix : Matrix) (indices : seq nat)
    : HM (seq loc) :=
  match indices with
  | [::] => ret [::]
  | i :: is' =>
      z <-- isZeroRow matrix i ;;
      if ~~ z then
        r <-- rowRef matrix i ;;
        rest <-- getNonZeroRowsFrom matrix is' ;;
        ret (r :: rest)
      else getNonZeroRowsFrom matrix is'
  end.

Definition getNonZeroRows (matrix : Matrix) : HM (seq loc) :=
  getNonZeroRowsFrom matrix (iota 0 (rows matrix)).

(** ** The space calculator *)

(** [computeColumnSpace(matrix)]: the pivot columns of the original matrix. *)
Definition computeColumnSpace (matrix : Matrix) : HM (seq (seq Fraction)) :=
  r <-- computeRREF matrix false ;;
  mapM (fun col => mapM (fun i => get matrix i col) (iota 0 (rows matrix)))
       (rrefPivots r).

(** [computeRowSpace(matrix)]: the non-zero rows of the RREF. *)
Definition computeRowSpace (matrix : Matrix) : HM (seq loc) :=
  r <-- computeRREF matrix false ;;
  getNonZeroRows (rref r).

(** The inner loop of the back substitution:
    [sum = sum.add(rref.get(i, j).multiply(vector[j]))]. *)
Fixpoint sumRight (rrefM : Matrix) (i : nat) (vector : seq Fraction)
    (js : seq nat) (sum : Fraction) : HM Fraction :=
  match js with
  | [::] => ret sum
  | j :: js' =>
      x <-- get rrefM i j ;;
      (if j < size vector then
         p <-- lift (multiply x (nth zeroF vector j)) ;;
         s <-- lift (add sum p) ;;
         sumRight rrefM i vector js' s
       else throw TypeError)
  end.

(** [for (let i = pivots.length - 1; i >= 0; i--)] *)
Fixpoint backSubstitute (rrefM : Matrix) (pivotCols : seq nat) (n : nat)
    (pivotRows : seq nat) (vector : seq Fraction) : HM (seq Fraction) :=
  match pivotRows with
  | [::] => ret vector
  | i :: pivotRows' =>
      let pivotCol := nth 0 pivotCols i in
      zero <-- lift (Fraction_new 0 1) ;;
      sum <-- sumRight rrefM i vector (iota pivotCol.+1 (n - pivotCol.+1)) zero ;;
      v <-- lift (negate sum) ;;
      backSubstitute rrefM pivotCols n pivotRows' (set_nth zeroF vector pivotCol v)
  end.

(** [computeNullSpace(matrix)] *)
Definition computeNullSpace (matrix : Matrix) : HM (seq (seq Fraction)) :=
  r <-- computeRREF matrix false ;;
  let n := cols matrix in
  let freeVars := [seq j <- iota 0 n | j \notin rrefPivots r] in
  if size freeVars == 0 then ret [::]
  else
    mapM (fun freeVar =>
            zero <-- lift (Fraction_new 0 1) ;;
            one <-- lift (Fraction_new 1 1) ;;
            let vector := set_nth zeroF (nseq n zero) freeVar one in
            backSubstitute (rref r) (rrefPivots r) n
              (rev (iota 0 (size (rrefPivots r)))) vector)
         freeVars.

(** [computeLeftNullSpace(matrix)] *)
Definition computeLeftNullSpace (matrix : Matrix) : HM (seq (seq Fraction)) :=
  transposed <-- transpose matrix ;;
  computeNullSpace transposed.

(** [formatBasis(basis).basis]: the numeric form of the vectors. *)
Definition formatBasis (basis : seq (seq Fraction)) : seq (seq Q) :=
  [seq [seq toNumber f | f <- vector] | vector <- basis].

Record Subspace : Type := MkSubspace {
  basis : seq (seq Q);
  dimension : nat
}.

Record Report : Type := MkReport {
  matrix_data : seq (seq Q);
  matrix_rows : nat;
  matrix_cols : nat;
  rank : nat;
  rref_matrix : seq (seq Q);
  rref_pivots : seq nat;
  column_space : Subspace;
  row_space : Subspace;
  null_space : Subspace;
  left_null_space : Subspace;
  dimension_check_valid : bool;
  report_operations : option (seq Operation)
}.

(** [a === b - c] on array lengths: the difference is taken in the integers. *)
Definition lengthIsDifference (a b c : nat) : bool :=
  (Z.of_nat a =? Z.of_nat b - Z.of_nat c)%Z.

(** [computeAllSpaces(matrixData, trackOperations = false)] *)
Definition computeAllSpaces (matrixData : seq (seq JsValue))
    (trackOperations : bool) : HM Report :=
  if size matrixData == 0 then throw MatrixEmpty
  else if ~~ all (fun row => size row == size (head [::] matrixData)) matrixData
  then throw RowsNotUniform
  else
    let m := size matrixData in
    let n := size (head [::] matrixData) in
    if (5 < m) || (5 < n) then throw DimensionsTooLarge
    else
      matrix <-- Matrix_new matrixData ;;
      r <-- computeRREF matrix trackOperations ;;
      let rank := size (rrefPivots r) in
      columnSpace <-- computeColumnSpace matrix ;;
      rowSpace <-- computeRowSpace matrix ;;
      nullSpace <-- computeNullSpace matrix ;;
      leftNullSpace <-- computeLeftNullSpace matrix ;;
      rowSpaceVectors <-- mapM readRow rowSpace ;;
      matrixArray <-- toArray matrix ;;
      rrefArray <-- toArray (rref r) ;;
      ret (MkReport matrixArray m n rank rrefArray (rrefPivots r)
             (MkSubspace (formatBasis columnSpace) (size columnSpace))
             (MkSubspace (formatBasis rowSpaceVectors) (size rowSpace))
             (MkSubspace (formatBasis nullSpace) (size nullSpace))
             (MkSubspace (formatBasis leftNullSpace) (size leftNullSpace))
             ((size columnSpace == rank)
              && (size rowSpace == rank)
              && lengthIsDifference (size nullSpace) n rank
              && lengthIsDifference (size leftNullSpace) m rank)
             (if trackOperations then rrefOperations r else None)).

(** ** The computation engine: validateMatrix *)

Definition isFiniteNumber (v : JsValue) : bool :=
  if v is VNumber x then isFinite x else false.

(** [validateMatrix(matrixData)]: returns [{ rows, cols }]. *)
Definition validateMatrix (matrixData : seq (seq JsValue))
    : Result (nat * nat) :=
  if size matrixData == 0 then Throw MatrixEmpty
  else
    let rows := size matrixData in
    let cols := size (head [::] matrixData) in
    if cols == 0 then Throw NoColumns
    else if (5 < rows) || (5 < cols) then Throw DimensionsTooLarge
    else if ~~ all (fun row => size row == cols) matrixData
    then Throw RowsNotUniform
    else if ~~ all (all isFiniteNumber) matrixData then Throw InvalidValue
    else Ok (rows, cols).

(** * Definitions for the proofs *)

(** ** The values of Fraction

    [normalize] is the constructor without its failure; the operations
    below are the methods of Fraction without theirs. *)

Definition normalize (numerator denominator : Z) : Fraction :=
  let numerator' := if (denominator <? 0)%Z then (- numerator)%Z else numerator in
  let denominator' := if (denominator <? 0)%Z then (- denominator)%Z else denominator in
  let g := gcd (Z.abs numerator') (Z.abs denominator') in
  MkFraction (numerator' / g) (denominator' / g).

Definition addF (x y : Fraction) : Fraction :=
  normalize (numerator x * denominator y + numerator y * denominator x)
            (denominator x * denominator y).
Definition mulF (x y : Fraction) : Fraction :=
  normalize (numerator x * numerator y) (denominator x * denominator y).
Definition negF (x : Fraction) : Fraction :=
  normalize (- numerator x) (denominator x).
Definition divF (x y : Fraction) : Fraction :=
  normalize (numerator x * denominator y) (denominator x * numerator y).

Definition ratz (z : Z) : rat := (int_of_Z z)%:~R.
Definition toRat (f : Fraction) : rat :=
  (ratz (numerator f) / ratz (denominator f))%R.

(** * The computation on grids of values

    The functions below replay the heap program on the grid a matrix holds.
    [computeRREF_spec] and its companions show that the heap program computes
    them; the algebra is then carried out on grids. *)

Definition Grid : Type := seq (seq Fraction).

Definition entry (G : Grid) (i j : nat) : Fraction :=
  nth zeroF (nth [::] G i) j.

Definition wfGrid (m n : nat) (G : Grid) : bool :=
  [&& size G == m, all (fun row => size row == n) G & all (all reduced) G].

Definition gswap (G : Grid) (i j : nat) : Grid :=
  set_nth [::] (set_nth [::] G i (nth [::] G j)) j (nth [::] G i).

Definition updRow (f : nat -> Fraction -> Fraction) (row : seq Fraction)
    (js : seq nat) : seq Fraction :=
  foldl (fun r j => set_nth zeroF r j (f j (nth zeroF r j))) row js.

Definition gscale (n : nat) (G : Grid) (i : nat) (s : Fraction) : Grid :=
  set_nth [::] G i (updRow (fun _ x => mulF x s) (nth [::] G i) (iota 0 n)).

Definition gaddmul (n : nat) (G : Grid) (i j : nat) (s : Fraction) : Grid :=
  set_nth [::] G i
    (updRow (fun k x => addF x (mulF (entry G j k) s)) (nth [::] G i)
            (iota 0 n)).

Definition absNum (x : Fraction) : Q := Qabs (toNumber x).

Fixpoint pscan (G : Grid) (col : nat) (scanRows : seq nat) (pivotRow : nat)
    (maxVal : Q) : nat :=
  match scanRows with
  | [::] => pivotRow
  | row :: scanRows' =>
      let val := absNum (entry G row col) in
      if Qlt_bool maxVal val then pscan G col scanRows' row val
      else pscan G col scanRows' pivotRow maxVal
  end.

Definition pfindPivot (m : nat) (G : Grid) (cur col : nat) : nat :=
  pscan G col (iota cur.+1 (m - cur.+1)) cur (absNum (entry G cur col)).

(** An entry of the operation log, with the grids of its two snapshots. *)
Record POp : Type := MkPOp {
  ptype : OpType;
  pparams : OpParams;
  pbefore : Grid;
  pafter : Grid
}.

Definition plog (track : bool) (log : seq POp) (ty : OpType) (ps : OpParams)
    (G G' : Grid) : seq POp :=
  if track then rcons log (MkPOp ty ps G G') else log.

Fixpoint pelim (track : bool) (n col cur : nat) (elimRows : seq nat)
    (G : Grid) (log : seq POp) : Grid * seq POp :=
  match elimRows with
  | [::] => (G, log)
  | row :: elimRows' =>
      if (row != cur) && ~~ isZero (entry G row col) then
        let factor := negF (entry G row col) in
        let G' := gaddmul n G row cur factor in
        pelim track n col cur elimRows' G'
              (plog track log addOp (AddParams row cur factor) G G')
      else pelim track n col cur elimRows' G log
  end.

Record PState : Type := MkPState {
  pgrid : Grid;
  ppivots : seq nat;
  plogs : seq POp;
  pcur : nat
}.

Definition pstep (track : bool) (m n col : nat) (st : PState) : PState :=
  let G := pgrid st in
  let cur := pcur st in
  let p := pfindPivot m G cur col in
  if isZero (entry G p col) then st
  else
    let G1 := if p != cur then gswap G cur p else G in
    let log1 := if p != cur
                then plog track (plogs st) swap (SwapParams cur p) G G1
                else plogs st in
    let pivot := entry G1 cur col in
    let scalar := divF oneF pivot in
    let G2 := if ~~ equals pivot oneF then gscale n G1 cur scalar else G1 in
    let log2 := if ~~ equals pivot oneF
                then plog track log1 scale (ScaleParams cur scalar) G1 G2
                else log1 in
    let GL := pelim track n col cur (iota 0 m) G2 log2 in
    MkPState GL.1 (rcons (ppivots st) col) GL.2 cur.+1.

Fixpoint ploop (track : bool) (m n : nat) (columns : seq nat) (st : PState)
    : PState :=
  match columns with
  | [::] => st
  | col :: columns' =>
      if pcur st < m then ploop track m n columns' (pstep track m n col st)
      else st
  end.

Definition prref (track : bool) (m n : nat) (G : Grid) : PState :=
  ploop track m n (iota 0 n) (MkPState G [::] [::] 0).

Definition ptranspose (m n : nat) (G : Grid) : Grid :=
  mkseq (fun j => mkseq (fun i => entry G i j) m) n.

(** ** Reading matrices from the heap *)

Definition dflt : Obj := RowArray [::].

Definition rowsOf (h : Heap) (l : loc) : seq loc :=
  if nth dflt h l is DataArray rowRefs then rowRefs else [::].

Definition cellsOf (h : Heap) (l : loc) : seq Fraction :=
  if nth dflt h l is RowArray cells then cells else [::].

Definition isDataAt (h : Heap) (l : loc) : bool :=
  (l < size h) && (if nth dflt h l is DataArray _ then true else false).

Definition isRowAt (h : Heap) (l : loc) : bool :=
  (l < size h) && (if nth dflt h l is RowArray _ then true else false).

(** The grid held by a matrix. *)
Definition gridOf (h : Heap) (M : Matrix) : Grid :=
  [seq cellsOf h r | r <- rowsOf h (data M)].

(** The outer array and the row arrays of [M] exist. *)
Definition readable (h : Heap) (M : Matrix) : bool :=
  isDataAt h (data M) && all (isRowAt h) (rowsOf h (data M)).

(** [M] is a well-formed matrix of the heap: its arrays exist, its rows are
    distinct arrays, and its grid is rectangular of the recorded dimensions,
    with reduced entries. *)
Definition wfMatrix (h : Heap) (M : Matrix) : bool :=
  [&& readable h M, uniq (rowsOf h (data M))
    & wfGrid (rows M) (cols M) (gridOf h M)].

(** The arrays of [M] lie at the locations from [lo] up to [hi]. *)
Definition within (lo hi : nat) (h : Heap) (M : Matrix) : bool :=
  [&& hi <= size h, lo <= data M < hi
    & all (fun r => lo <= r < hi) (rowsOf h (data M))].

(** [h'] keeps every object of [h] outside the locations [lo .. hi). *)
Definition frame (lo hi : nat) (h h' : Heap) : Prop :=
  size h <= size h' /\
  forall l, l < size h -> ~~ (lo <= l < hi) -> nth dflt h' l = nth dflt h l.

(** [h'] keeps every object of [h]. *)
Definition extends (h h' : Heap) : Prop :=
  size h <= size h' /\ forall l, l < size h -> nth dflt h' l = nth dflt h l.

Definition readOp (h : Heap) (o : Operation) : POp :=
  MkPOp (type o) (params o) (gridOf h (matrixBefore o))
        (if matrixAfter o is Some A then gridOf h A else [::]).

Definition opWithin (lo : nat) (h : Heap) (o : Operation) : bool :=
  within lo (size h) h (matrixBefore o)
  && (if matrixAfter o is Some A then within lo (size h) h A else false).

(** The operation log of the heap program against the log of grids. *)
Definition logRel (track : bool) (lo : nat) (h : Heap)
    (operations : option (seq Operation)) (log : seq POp) : Prop :=
  if track then
    exists ops, [/\ operations = Some ops, all (opWithin lo h) ops
                  & [seq readOp h o | o <- ops] = log]
  else operations = None /\ log = [::].

(** ** Rows of zeros on grids *)

Definition pisZeroRow (n : nat) (G : Grid) (i : nat) : bool :=
  all (fun j => isZero (entry G i j)) (iota 0 n).

Definition pnonZeroRows (m n : nat) (G : Grid) : seq nat :=
  [seq i <- iota 0 m | ~~ pisZeroRow n G i].

(** The conversion of a cell of the input. *)
Definition cellFraction (v : JsValue) : Fraction :=
  if Fraction_from v is Ok f then f else zeroF.

Definition convertible (v : JsValue) : bool :=
  match v with
  | VNumber _ => true
  | VFraction f => reduced f
  | VOther => false
  end.

Definition inputGrid (matrixData : seq (seq JsValue)) : Grid :=
  [seq [seq cellFraction v | v <- row] | row <- matrixData].

(** ** Reduced row-echelon form *)

(** The column of the first non-zero entry of a row; the length of the row
    when the row is zero. *)
Definition leadCol (row : seq Fraction) : nat :=
  find (fun x => ~~ isZero x) row.

Definition leadOf (G : Grid) (i : nat) : nat := leadCol (nth [::] G i).

(** [G], of [m] rows and [n] columns, is in reduced row-echelon form: the
    leading entry of a non-zero row is 1 and is the only non-zero entry of
    its column, and the leading entries move strictly to the right, the
    zero rows coming last. *)
Definition isRREF (m n : nat) (G : Grid) : bool :=
  [&& all (fun i => (leadOf G i < n) ==>
                    equals (entry G i (leadOf G i)) oneF) (iota 0 m),
      all (fun i => (leadOf G i < n) ==>
                    all (fun k => (k == i) || isZero (entry G k (leadOf G i)))
                        (iota 0 m)) (iota 0 m)
    & all (fun i => (leadOf G i.+1 < n) ==> (leadOf G i < leadOf G i.+1))
          (iota 0 m.-1)].

(** The pivot columns of a grid in reduced row-echelon form. *)
Definition leadCols (m n : nat) (G : Grid) : seq nat :=
  [seq c <- [seq leadOf G i | i <- iota 0 m] | c < n].

(** ** The operation log as a chain *)

(** The snapshots of the log [log] lead from [start] to [finish]. *)
Fixpoint chained (start : Grid) (log : seq POp) (finish : Grid) : Prop :=
  match log with
  | [::] => start = finish
  | op :: log' => pbefore op = start /\ chained (pafter op) log' finish
  end.

(** ** The heap and the loop invariants *)

(** A matrix whose arrays are allocated and lie outside [lo .. hi). *)
Definition apart (lo hi : nat) (h : Heap) (M : Matrix) : bool :=
  [&& data M < size h, ~~ (lo <= data M < hi)
    & all (fun r => (r < size h) && ~~ (lo <= r < hi)) (rowsOf h (data M))].

(** [M] is well formed, lies in [lo .. hi) and holds the grid [G]. *)
Definition Inv (lo hi : nat) (h : Heap) (M : Matrix) (G : Grid) : Prop :=
  [/\ wfMatrix h M, within lo hi h M & gridOf h M = G].

(** The locals of the heap program against the state of the grid program. *)
Definition StRel (track : bool) (lo hi : nat) (h : Heap) (m : Matrix)
    (st : RrefState) (pst : PState) : Prop :=
  [/\ Inv lo hi h m (pgrid pst), pivots st = ppivots pst,
      currentRow st = pcur pst
    & logRel track hi h (operations st) (plogs pst)].

(** ** Grids over the rationals *)

(** The value of an entry. *)
Definition V (G : Grid) (i j : nat) : rat := toRat (entry G i j).

(** Before column [col] is processed: the pivot columns found so far are
    unit columns, the rows from [pcur] on are zero left of [col], and every
    pivot row is zero left of its pivot. *)
Record RInv (m n col : nat) (pst : PState) : Prop := MkRInv {
  ri_wf : wfGrid m n (pgrid pst);
  ri_col : col <= n;
  ri_size : size (ppivots pst) = pcur pst;
  ri_cur : pcur pst <= m;
  ri_sorted : sorted ltn (ppivots pst);
  ri_lt : all (fun c => c < col) (ppivots pst);
  ri_unit : forall k i, k < pcur pst -> i < m ->
            V (pgrid pst) i (nth 0 (ppivots pst) k) = ((i == k)%:R)%R;
  ri_below : forall i j, pcur pst <= i -> i < m -> j < col ->
             V (pgrid pst) i j = 0%R;
  ri_lead : forall k j, k < pcur pst -> j < nth 0 (ppivots pst) k ->
            V (pgrid pst) k j = 0%R
}.

(** The leading columns of the rows from [cur] on. *)
Definition leadsFrom (m n : nat) (G : Grid) (cur : nat) : seq nat :=
  [seq c <- [seq leadOf G i | i <- iota cur (m - cur)] | c < n].

(** * Sample inputs *)

Definition F (n : Z) : Fraction := MkFraction n 1.
Definition num (n : Z) : JsValue := VNumber (Finite (inject_Z n)).

Definition heap2x3 : Heap :=
  [:: RowArray [:: F 1; F 2; F 3]; RowArray [:: F 4; F 5; F 6];
      DataArray [:: 0; 1]].

Definition matrix2x3 : Matrix := MkMatrix 2 2 3.

(** A matrix in reduced row-echelon form, [[1,2,0],[0,0,1],[0,0,0]]. *)
Definition heapReduced : Heap :=
  [:: RowArray [:: F 1; F 2; F 0]; RowArray [:: F 0; F 0; F 1];
      RowArray [:: F 0; F 0; F 0]; DataArray [:: 0; 1; 2]].

Definition matrixReduced : Matrix := MkMatrix 3 3 3.

(** A grid whose rows differ in length, [[1,2],[3]]. *)
Definition raggedGrid : seq (seq JsValue) :=
  [:: [:: num 1; num 2]; [:: num 3]].

Definition ragged (grid : seq (seq JsValue)) : bool :=
  ~~ all (fun row => size row == size (head [::] grid)) grid.

(** The grids of the two snapshots of a log entry. *)
Definition beforeGrid (h : Heap) (o : Operation) : Grid :=
  gridOf h (matrixBefore o).

Definition afterGrid (h : Heap) (o : Operation) : Grid :=
  if matrixAfter o is Some A then gridOf h A else [::].

(** A cell of a tab, a no-break space (U+00A0), an ideographic space
    (U+3000) and a space. *)
Definition nbspCell : string :=
  String (ascii_of_nat 9)
    (String (ascii_of_nat 194) (String (ascii_of_nat 160)
      (String (ascii_of_nat 227) (String (ascii_of_nat 128)
        (String (ascii_of_nat 128) (String (ascii_of_nat 32) EmptyString)))))).

(** * Further functions of the source *)

(** ** rrefCalculator.js: Matrix.set *)

(** [set(i, j, value) { this.data[i][j] = Fraction.from(value); }] *)
Definition Matrix_set (this : Matrix) (i j : nat) (value : JsValue) : HM unit :=
  f <-- lift (Fraction_from value) ;;
  putCell this i j f.

(** ** matrixUtils.js *)

(** [parseMatrix(matrix)]: [matrix.map(row => row.map(parseMatrixCell))]. *)
Definition parseMatrix (matrix : seq (seq string)) : Result (seq (seq JsNumber)) :=
  mapR (mapR parseMatrixCell) matrix.

(** [validateDimensions(rows, cols, min = 1, max = 5)], on integers. *)
Definition validateDimensions (rows cols min max : Z) : Z * Z :=
  (Z.max min (Z.min max rows), Z.max min (Z.min max cols)).

(** [createEmptyMatrix(rows, cols, defaultValue = '0')] *)
Definition createEmptyMatrix (rows cols : nat) (defaultValue : string)
    : seq (seq string) :=
  nseq rows (nseq cols defaultValue).

(** [resizeMatrix(matrix, newRows, newCols)].  [None] stands for a value
    that is not an array.  A cell that is missing in a short row reads as
    undefined and is replaced by the empty string. *)
Definition resizeMatrix (matrix : option (seq (seq string)))
    (newRows newCols : nat) : seq (seq string) :=
  match matrix with
  | None => nseq newRows (nseq newCols EmptyString)
  | Some matrix =>
      let result := nseq newRows (nseq newCols EmptyString) in
      let minRows := minn (size matrix) newRows in
      let minCols := minn (size (head [::] matrix)) newCols in
      foldl (fun result i =>
               foldl (fun result j =>
                        set_nth [::] result i
                          (set_nth EmptyString (nth [::] result i) j
                             (nth EmptyString (nth [::] matrix i) j)))
                     result (iota 0 minCols))
            result (iota 0 minRows)
  end.

(** ** MatrixInput.jsx: fillZeros *)

(** [prev.map(row => row.map(cell => cell.trim() === '' ? '0' : cell))] *)
Definition fillZeros (matrix : seq (seq string)) : seq (seq string) :=
  [seq [seq fillZerosCell cell | cell <- row] | row <- matrix].

(** ** The computation engine: parseMatrixInput and computeMatrix *)

(** A cell handed to the engine: a string, or a value of another type. *)
Inductive Cell : Type :=
| CString (s : string)
| CValue (v : JsValue).

(** The errors of the engine: [parseMatrixInput] wraps the error of the
    cell parser in a new one, 'Failed to parse matrix: ...'. *)
Inductive EngineError : Type :=
| FailedToParse (cause : Error)
| Raised (e : Error).

Definition parseCell (cell : Cell) : Result JsValue :=
  match cell with
  | CString s => rbind (parseMatrixCell s) (fun x => Ok (VNumber x))
  | CValue v => Ok v
  end.

(** [parseMatrixInput(matrixData)] *)
Definition parseMatrixInput (matrixData : seq (seq Cell))
    : EngineError + seq (seq JsValue) :=
  match mapR (mapR parseCell) matrixData with
  | Ok parsed => inr parsed
  | Throw e => inl (FailedToParse e)
  end.

(** The result of [computeMatrix]: [{ success: true, data }] with the heap
    that holds the matrices of the report, or [{ success: false, error }]. *)
Inductive Outcome : Type :=
| Success (data : Report) (heap : Heap)
| Failure (error : EngineError).

(** [computeMatrix(matrixData, trackOperations = true)] *)
Definition computeMatrix (matrixData : seq (seq Cell)) (trackOperations : bool)
    (h : Heap) : Outcome :=
  match parseMatrixInput matrixData with
  | inl e => Failure e
  | inr parsed =>
      match validateMatrix parsed with
      | Throw e => Failure (Raised e)
      | Ok _ =>
          match computeAllSpaces parsed trackOperations h with
          | Ok (results, h') => Success results h'
          | Throw e => Failure (Raised e)
          end
      end
  end.

(** * Further definitions for the proofs *)

(** A property of every element of a sequence. *)
Fixpoint every {A : Type} (P : A -> Prop) (s : seq A) : Prop :=
  match s with
  | [::] => True
  | x :: s' => P x /\ every P s'
  end.

(** The row operation that the parameters of a log entry describe. *)
Definition applyOp (n : nat) (ps : OpParams) (G : Grid) : Grid :=
  match ps with
  | SwapParams row1 row2 => gswap G row1 row2
  | ScaleParams row scalar => gscale n G row scalar
  | AddParams targetRow sourceRow scalar =>
      gaddmul n G targetRow sourceRow scalar
  end.

Definition opKind (ps : OpParams) : OpType :=
  match ps with
  | SwapParams _ _ => swap
  | ScaleParams _ _ => scale
  | AddParams _ _ _ => addOp
  end.

(** A log entry whose second snapshot is the first one after the row
    operation it records. *)
Definition faithful (n : nat) (op : POp) : Prop :=
  ptype op = opKind (pparams op)
  /\ pafter op = applyOp n (pparams op) (pbefore op).

(** * The program on binary64

    The same source, with every number the double JavaScript holds.  The
    numerator and the denominator of a Fraction are doubles; a product or a
    sum beyond 2^53 is rounded, beyond the largest double it is an
    infinity, and the operations on infinities give NaN.  The names are
    those of the source; outside this module they are written
    [Double.add], [Double.computeRREF], and so on. *)

Module Double.

Import Binary64.

(** ** fractionUtils.js: class Fraction *)

Record Fraction : Type := MkFraction { numerator : number; denominator : number }.

(** [gcd(a, b) { return b === 0 ? a : this.gcd(b, a % b); }]
    The remainder is exact and smaller than [b], so on finite arguments the
    recursion is Euclid's on multiples of 2^-1074 below 2^1024 and ends
    within 3100 calls.  Once an argument is NaN or the first one is an
    infinity, [b === 0] is false in every later call and the recursion has
    no end: the engine stops it with a RangeError when the call stack is
    full.  [None] is that case. *)
Fixpoint gcd_fuel (fuel : nat) (a b : number) : option number :=
  match fuel with
  | O => None
  | S fuel' => if eqb b zero then Some a else gcd_fuel fuel' b (rem a b)
  end.

Definition stackDepth : nat := 4096.

Definition gcd (a b : number) : Result number :=
  if gcd_fuel stackDepth a b is Some g then Ok g else Throw RangeError.

(** [constructor(numerator, denominator = 1)] *)
Definition Fraction_new (numerator denominator : number) : Result Fraction :=
  if eqb denominator zero then Throw DenominatorZero
  else
    let numerator' := if ltb denominator zero then opp numerator else numerator in
    let denominator' :=
      if ltb denominator zero then opp denominator else denominator in
    rbind (gcd (abs numerator') (abs denominator')) (fun g =>
    Ok (MkFraction (div numerator' g) (div denominator' g))).

Definition add (this other : Fraction) : Result Fraction :=
  let num := Binary64.add (mul (numerator this) (denominator other))
                          (mul (numerator other) (denominator this)) in
  let den := mul (denominator this) (denominator other) in
  Fraction_new num den.

Definition subtract (this other : Fraction) : Result Fraction :=
  let num := Binary64.sub (mul (numerator this) (denominator other))
                          (mul (numerator other) (denominator this)) in
  let den := mul (denominator this) (denominator other) in
  Fraction_new num den.

Definition multiply (this other : Fraction) : Result Fraction :=
  Fraction_new (mul (numerator this) (numerator other))
               (mul (denominator this) (denominator other)).

Definition divide (this other : Fraction) : Result Fraction :=
  if eqb (numerator other) zero then Throw DivisionByZero
  else Fraction_new (mul (numerator this) (denominator other))
                    (mul (denominator this) (numerator other)).

Definition negate (this : Fraction) : Result Fraction :=
  Fraction_new (opp (numerator this)) (denominator this).

Definition isZero (this : Fraction) : bool := eqb (numerator this) zero.

Definition equals (this other : Fraction) : bool :=
  eqb (numerator this) (numerator other)
  && eqb (denominator this) (denominator other).

(** [toNumber() { return this.numerator / this.denominator; }] *)
Definition toNumber (this : Fraction) : number :=
  div (numerator this) (denominator this).

Definition zeroF : Fraction := MkFraction (ofZ 0) (ofZ 1).

(** The invariant of the class: numerator and denominator are integers
    without a common factor, and the denominator is positive. *)
Definition reduced (f : Fraction) : bool :=
  [&& integerb (numerator f), integerb (denominator f),
      ltb zero (denominator f)
    & (Z.gcd (Qnum (toQ (numerator f))) (Qnum (toQ (denominator f))) =? 1)%Z].

(** The search loop of [fromDecimal]: [denominator] runs from its start
    value for [count] iterations; [best] is
    (bestNumerator, bestDenominator, bestError). *)
Fixpoint searchDenominator (count : nat) (decimal : number) (denominator : Z)
    (best : number * number * number) : number * number :=
  match count with
  | O => (best.1.1, best.1.2)
  | S count' =>
      let numerator := round (mul decimal (ofZ denominator)) in
      let error := abs (sub decimal (div numerator (ofZ denominator))) in
      if ltb error best.2 then
        if ltb error (ofQ (1 # 10000000000)) then (numerator, ofZ denominator)
        else searchDenominator count' decimal (denominator + 1)%Z
               (numerator, ofZ denominator, error)
      else searchDenominator count' decimal (denominator + 1)%Z best
  end.

(** [static fromDecimal(decimal, maxDenominator = 10000)] *)
Definition fromDecimal (decimal : number) : Result Fraction :=
  if integerb decimal then Fraction_new decimal (ofZ 1)
  else
    let sign := if ltb decimal zero then ofZ (-1) else ofZ 1 in
    let decimal := abs decimal in
    let best :=
      searchDenominator maxDenominator decimal 1%Z
        (ofZ 1, ofZ 1, abs (sub decimal (ofZ 1))) in
    Fraction_new (mul sign best.1) best.2.

(** [static fromString(str)] *)
Definition fromString (str : string) : Result Fraction :=
  let trimmed := trim str in
  if includesSlash trimmed then
    let parts := [seq parseFloat (trim s) | s <- splitSlash trimmed] in
    let num := nth NaN parts 0 in
    let den := nth NaN parts 1 in
    if isNaN num || isNaN den then Throw InvalidFraction
    else Fraction_new (toDouble num) (toDouble den)
  else
    let num := parseFloat trimmed in
    if isNaN num then Throw InvalidNumber
    else fromDecimal (toDouble num).

(** A value handed to [Fraction.from]: a number, a string, a Fraction, or
    anything else. *)
Inductive JsValue : Type :=
| VNumber (x : number)
| VString (s : string)
| VFraction (f : Fraction)
| VOther.

(** [static from(value)] *)
Definition Fraction_from (value : JsValue) : Result Fraction :=
  match value with
  | VFraction f => Ok f
  | VString s => fromString s
  | VNumber x => fromDecimal x
  | VOther => Throw CannotConvert
  end.

(** ** The heap *)

Inductive Obj : Type :=
| RowArray (cells : seq Fraction)
| DataArray (rowRefs : seq loc).

Definition Heap : Type := seq Obj.

Definition HM (A : Type) : Type := Heap -> Result (A * Heap).

Definition ret {A} (a : A) : HM A := fun h => Ok (a, h).

Definition bind {A B} (c : HM A) (k : A -> HM B) : HM B :=
  fun h => match c h with
           | Ok (a, h') => k a h'
           | Throw e => Throw e
           end.

Definition throw {A} (e : Error) : HM A := fun _ => Throw e.

Definition lift {A} (r : Result A) : HM A :=
  fun h => match r with
           | Ok a => Ok (a, h)
           | Throw e => Throw e
           end.

Declare Scope double_scope.
Delimit Scope double_scope with double.
Notation "x <-- c ;; k" := (bind c (fun x => k))
  (at level 61, c at next level, right associativity) : double_scope.
Notation "c ;;; k" := (bind c (fun _ => k))
  (at level 61, right associativity) : double_scope.
Local Open Scope double_scope.

Definition alloc (o : Obj) : HM loc := fun h => Ok (size h, rcons h o).

Definition readRow (l : loc) : HM (seq Fraction) :=
  fun h => if l < size h then
             match nth (RowArray [::]) h l with
             | RowArray cells => Ok (cells, h)
             | DataArray _ => Throw TypeError
             end
           else Throw TypeError.

Definition readData (l : loc) : HM (seq loc) :=
  fun h => if l < size h then
             match nth (RowArray [::]) h l with
             | DataArray rowRefs => Ok (rowRefs, h)
             | RowArray _ => Throw TypeError
             end
           else Throw TypeError.

Definition write (l : loc) (o : Obj) : HM unit :=
  fun h => if l < size h then Ok (tt, set_nth (RowArray [::]) h l o)
           else Throw TypeError.

Fixpoint forEach {A} (xs : seq A) (body : A -> HM unit) : HM unit :=
  match xs with
  | [::] => ret tt
  | x :: xs' => body x ;;; forEach xs' body
  end.

Fixpoint mapM {A B} (f : A -> HM B) (xs : seq A) : HM (seq B) :=
  match xs with
  | [::] => ret [::]
  | x :: xs' => y <-- f x ;; ys <-- mapM f xs' ;; ret (y :: ys)
  end.

(** ** rrefCalculator.js: class Matrix *)

Record Matrix : Type := MkMatrix { data : loc; rows : nat; cols : nat }.

(** [this.data[i]]: the reference to row [i]; out of range it is undefined,
    and every use in the source then reads a property of undefined. *)
Definition rowRef (this : Matrix) (i : nat) : HM loc :=
  rowRefs <-- readData (data this) ;;
  if i < size rowRefs then ret (nth 0 rowRefs i) else throw TypeError.

(** [constructor(data)] *)
Definition Matrix_new (grid : seq (seq JsValue)) : HM Matrix :=
  rowRefs <-- mapM (fun row => cells <-- lift (mapR Fraction_from row) ;;
                              alloc (RowArray cells)) grid ;;
  d <-- alloc (DataArray rowRefs) ;;
  ret (MkMatrix d (size grid) (size (head [::] grid))).

(** [get(i, j) { return this.data[i][j]; }] *)
Definition get (this : Matrix) (i j : nat) : HM Fraction :=
  r <-- rowRef this i ;;
  cells <-- readRow r ;;
  if j < size cells then ret (nth zeroF cells j) else throw TypeError.

(** [this.data[i][j] = value] *)
Definition putCell (this : Matrix) (i j : nat) (value : Fraction) : HM unit :=
  r <-- rowRef this i ;;
  cells <-- readRow r ;;
  write r (RowArray (set_nth zeroF cells j value)).

(** [clone()] *)
Definition clone (this : Matrix) : HM Matrix :=
  rowRefs <-- readData (data this) ;;
  newRefs <-- mapM (fun r => cells <-- readRow r ;; alloc (RowArray cells))
                  rowRefs ;;
  newData <-- alloc (DataArray newRefs) ;;
  ret (MkMatrix newData (rows this) (cols this)).

(** [swapRows(i, j)], with two rows of the matrix (out of range: see the
    first embedding). *)
Definition swapRows (this : Matrix) (i j : nat) : HM unit :=
  rowRefs <-- readData (data this) ;;
  if (i < size rowRefs) && (j < size rowRefs) then
    let ri := nth 0 rowRefs i in
    let rj := nth 0 rowRefs j in
    write (data this) (DataArray (set_nth 0 (set_nth 0 rowRefs i rj) j ri))
  else throw TypeError.

(** [multiplyRow(i, scalar)] *)
Definition multiplyRow (this : Matrix) (i : nat) (scalar : Fraction) : HM unit :=
  frac <-- lift (Fraction_from (VFraction scalar)) ;;
  forEach (iota 0 (cols this)) (fun j =>
    x <-- get this i j ;;
    y <-- lift (multiply x frac) ;;
    putCell this i j y).

(** [addRowMultiple(i, j, scalar)]: row[i] += scalar * row[j] *)
Definition addRowMultiple (this : Matrix) (i j : nat) (scalar : Fraction)
    : HM unit :=
  frac <-- lift (Fraction_from (VFraction scalar)) ;;
  forEach (iota 0 (cols this)) (fun k =>
    x <-- get this i k ;;
    y <-- get this j k ;;
    p <-- lift (multiply y frac) ;;
    s <-- lift (add x p) ;;
    putCell this i k s).

(** [toArray()] *)
Definition toArray (this : Matrix) : HM (seq (seq number)) :=
  rowRefs <-- readData (data this) ;;
  mapM (fun r => cells <-- readRow r ;; ret [seq toNumber f | f <- cells])
       rowRefs.

(** [toFractionArray()] *)
Definition toFractionArray (this : Matrix) : HM (seq (seq Fraction)) :=
  rowRefs <-- readData (data this) ;;
  mapM readRow rowRefs.

(** [transpose()] *)
Definition transpose (this : Matrix) : HM Matrix :=
  newRefs <-- mapM (fun j =>
               cells <-- mapM (fun i => get this i j) (iota 0 (rows this)) ;;
               alloc (RowArray cells))
             (iota 0 (cols this)) ;;
  d <-- alloc (DataArray newRefs) ;;
  ret (MkMatrix d (cols this) (rows this)).

(** ** rrefCalculator.js: computeRREF *)

Inductive OpParams : Type :=
| SwapParams (row1 row2 : nat)
| ScaleParams (row : nat) (scalar : Fraction)
| AddParams (targetRow sourceRow : nat) (scalar : Fraction).

Record Operation : Type := MkOperation {
  type : OpType;
  params : OpParams;
  matrixBefore : Matrix;
  matrixAfter : option Matrix
}.

(** [recordOperation(type, notation, description, params)] *)
Definition recordOperation (trackOperations : bool) (m : Matrix)
    (ty : OpType) (ps : OpParams) (operations : option (seq Operation))
    : HM (option (seq Operation)) :=
  if ~~ trackOperations then ret operations
  else match operations with
       | None => throw TypeError
       | Some ops =>
           before <-- clone m ;;
           ret (Some (rcons ops (MkOperation ty ps before None)))
       end.

(** [updateLastOperation()] *)
Definition updateLastOperation (trackOperations : bool) (m : Matrix)
    (operations : option (seq Operation)) : HM (option (seq Operation)) :=
  if ~~ trackOperations then ret operations
  else match operations with
       | None => throw TypeError
       | Some ops =>
           if size ops == 0 then ret operations
           else
             let last := nth (MkOperation swap (SwapParams 0 0) m None)
                             ops (size ops - 1) in
             after <-- clone m ;;
             ret (Some (set_nth last ops (size ops - 1)
                          (MkOperation (type last) (params last)
                                       (matrixBefore last) (Some after))))
       end.

(** The scan for the pivot:
    [const val = Math.abs(m.get(row, col).toNumber());
     if (val > maxVal) { maxVal = val; pivotRow = row; }] *)
Fixpoint scanPivot (m : Matrix) (col : nat) (scanRows : seq nat)
    (pivotRow : nat) (maxVal : number) : HM nat :=
  match scanRows with
  | [::] => ret pivotRow
  | row :: scanRows' =>
      x <-- get m row col ;;
      let val := abs (toNumber x) in
      if ltb maxVal val then scanPivot m col scanRows' row val
      else scanPivot m col scanRows' pivotRow maxVal
  end.

(** [let pivotRow = currentRow;
     let maxVal = Math.abs(m.get(currentRow, col).toNumber());] and the
    scan of the rows below. *)
Definition findPivot (m : Matrix) (currentRow col : nat) : HM nat :=
  x <-- get m currentRow col ;;
  scanPivot m col (iota currentRow.+1 (rows m - currentRow.+1))
            currentRow (abs (toNumber x)).

(** The mutable locals of [computeRREF]. *)
Record RrefState : Type := MkRrefState {
  pivots : seq nat;
  operations : option (seq Operation);
  currentRow : nat
}.

(** The loop that clears column [col] in every row but [currentRow]. *)
Fixpoint eliminate (trackOperations : bool) (m : Matrix) (col cur : nat)
    (elimRows : seq nat) (ops : option (seq Operation))
    : HM (option (seq Operation)) :=
  match elimRows with
  | [::] => ret ops
  | row :: elimRows' =>
      if row != cur then
        x <-- get m row col ;;
        if ~~ isZero x then
          x' <-- get m row col ;;
          factor <-- lift (negate x') ;;
          ops1 <-- recordOperation trackOperations m addOp
                    (AddParams row cur factor) ops ;;
          addRowMultiple m row cur factor ;;;
          ops2 <-- updateLastOperation trackOperations m ops1 ;;
          eliminate trackOperations m col cur elimRows' ops2
        else eliminate trackOperations m col cur elimRows' ops
      else eliminate trackOperations m col cur elimRows' ops
  end.

(** The body of the main loop after the pivot is found not to be zero
    (lines 166 to 212): the swap with [pivotRow], the scaling of the pivot
    row, the elimination, [pivots.push(col); currentRow++]. *)
Definition reduceColumn (trackOperations : bool) (m : Matrix) (col : nat)
    (st : RrefState) (pivotRow : nat) : HM RrefState :=
  let cur := currentRow st in
  ops1 <-- (if pivotRow != cur then
             o <-- recordOperation trackOperations m swap
                    (SwapParams cur pivotRow) (operations st) ;;
             swapRows m cur pivotRow ;;;
             updateLastOperation trackOperations m o
           else ret (operations st)) ;;
  pivot <-- get m cur col ;;
  one <-- lift (Fraction_new (ofZ 1) (ofZ 1)) ;;
  ops2 <-- (if ~~ equals pivot one then
             scalar <-- lift (divide one pivot) ;;
             o <-- recordOperation trackOperations m scale
                    (ScaleParams cur scalar) ops1 ;;
             multiplyRow m cur scalar ;;;
             updateLastOperation trackOperations m o
           else ret ops1) ;;
  ops3 <-- eliminate trackOperations m col cur (iota 0 (rows m)) ops2 ;;
  ret (MkRrefState (rcons (pivots st) col) ops3 cur.+1).

(** One iteration of the main loop, for column [col]: the pivot search,
    [if (m.get(pivotRow, col).isZero()) continue;], and the reduction with
    the row found. *)
Definition rrefStep (trackOperations : bool) (m : Matrix) (col : nat)
    (st : RrefState) : HM RrefState :=
  pivotRow <-- findPivot m (currentRow st) col ;;
  p <-- get m pivotRow col ;;
  if isZero p then ret st
  else reduceColumn trackOperations m col st pivotRow.

(** [for (let col = 0; col < m.cols && currentRow < m.rows; col++)] *)
Fixpoint rrefLoop (trackOperations : bool) (m : Matrix) (columns : seq nat)
    (st : RrefState) : HM RrefState :=
  match columns with
  | [::] => ret st
  | col :: columns' =>
      if currentRow st < rows m then
        st' <-- rrefStep trackOperations m col st ;;
        rrefLoop trackOperations m columns' st'
      else ret st
  end.

Record RrefResult : Type := MkRrefResult {
  rref : Matrix;
  rrefPivots : seq nat;
  rrefOperations : option (seq Operation)
}.

Definition computeRREF (matrix : Matrix) (trackOperations : bool)
    : HM RrefResult :=
  m <-- clone matrix ;;
  st <-- rrefLoop trackOperations m (iota 0 (cols m))
          (MkRrefState [::] (if trackOperations then Some [::] else None) 0) ;;
  ret (MkRrefResult m (pivots st) (operations st)).

Definition computeRank (matrix : Matrix) : HM nat :=
  r <-- computeRREF matrix false ;;
  ret (size (rrefPivots r)).

(** [isZeroRow(matrix, rowIndex)] *)
Fixpoint isZeroRowFrom (matrix : Matrix) (rowIndex : nat) (js : seq nat)
    : HM bool :=
  match js with
  | [::] => ret true
  | j :: js' =>
      x <-- get matrix rowIndex j ;;
      if ~~ isZero x then ret false else isZeroRowFrom matrix rowIndex js'
  end.

Definition isZeroRow (matrix : Matrix) (rowIndex : nat) : HM bool :=
  isZeroRowFrom matrix rowIndex (iota 0 (cols matrix)).

(** [getNonZeroRows(matrix)] *)
Fixpoint getNonZeroRowsFrom (matrix : Matrix) (indices : seq nat)
    : HM (seq loc) :=
  match indices with
  | [::] => ret [::]
  | i :: is' =>
      z <-- isZeroRow matrix i ;;
      if ~~ z then
        r <-- rowRef matrix i ;;
        rest <-- getNonZeroRowsFrom matrix is' ;;
        ret (r :: rest)
      else getNonZeroRowsFrom matrix is'
  end.

Definition getNonZeroRows (matrix : Matrix) : HM (seq loc) :=
  getNonZeroRowsFrom matrix (iota 0 (rows matrix)).

(** ** The space calculator *)

(** [computeColumnSpace(matrix)] *)
Definition computeColumnSpace (matrix : Matrix) : HM (seq (seq Fraction)) :=
  r <-- computeRREF matrix false ;;
  mapM (fun col => mapM (fun i => get matrix i col) (iota 0 (rows matrix)))
       (rrefPivots r).

(** [computeRowSpace(matrix)] *)
Definition computeRowSpace (matrix : Matrix) : HM (seq loc) :=
  r <-- computeRREF matrix false ;;
  getNonZeroRows (rref r).

(** [sum = sum.add(rref.get(i, j).multiply(vector[j]))] *)
Fixpoint sumRight (rrefM : Matrix) (i : nat) (vector : seq Fraction)
    (js : seq nat) (sum : Fraction) : HM Fraction :=
  match js with
  | [::] => ret sum
  | j :: js' =>
      x <-- get rrefM i j ;;
      (if j < size vector then
         p <-- lift (multiply x (nth zeroF vector j)) ;;
         s <-- lift (add sum p) ;;
         sumRight rrefM i vector js' s
       else throw TypeError)
  end.

(** [for (let i = pivots.length - 1; i >= 0; i--)] *)
Fixpoint backSubstitute (rrefM : Matrix) (pivotCols : seq nat) (n : nat)
    (pivotRows : seq nat) (vector : seq Fraction) : HM (seq Fraction) :=
  match pivotRows with
  | [::] => ret vector
  | i :: pivotRows' =>
      let pivotCol := nth 0 pivotCols i in
      zero <-- lift (Fraction_new (ofZ 0) (ofZ 1)) ;;
      sum <-- sumRight rrefM i vector (iota pivotCol.+1 (n - pivotCol.+1)) zero ;;
      v <-- lift (negate sum) ;;
      backSubstitute rrefM pivotCols n pivotRows' (set_nth zeroF vector pivotCol v)
  end.

(** [computeNullSpace(matrix)] *)
Definition computeNullSpace (matrix : Matrix) : HM (seq (seq Fraction)) :=
  r <-- computeRREF matrix false ;;
  let n := cols matrix in
  let freeVars := [seq j <- iota 0 n | j \notin rrefPivots r] in
  if size freeVars == 0 then ret [::]
  else
    mapM (fun freeVar =>
            zero <-- lift (Fraction_new (ofZ 0) (ofZ 1)) ;;
            one <-- lift (Fraction_new (ofZ 1) (ofZ 1)) ;;
            let vector := set_nth zeroF (nseq n zero) freeVar one in
            backSubstitute (rref r) (rrefPivots r) n
              (rev (iota 0 (size (rrefPivots r)))) vector)
         freeVars.

(** [computeLeftNullSpace(matrix)] *)
Definition computeLeftNullSpace (matrix : Matrix) : HM (seq (seq Fraction)) :=
  transposed <-- transpose matrix ;;
  computeNullSpace transposed.

(** [formatBasis(basis).basis] *)
Definition formatBasis (basis : seq (seq Fraction)) : seq (seq number) :=
  [seq [seq toNumber f | f <- vector] | vector <- basis].

Record Subspace : Type := MkSubspace {
  basis : seq (seq number);
  dimension : nat
}.

Record Report : Type := MkReport {
  matrix_data : seq (seq number);
  matrix_rows : nat;
  matrix_cols : nat;
  rank : nat;
  rref_matrix : seq (seq number);
  rref_pivots : seq nat;
  column_space : Subspace;
  row_space : Subspace;
  null_space : Subspace;
  left_null_space : Subspace;
  dimension_check_valid : bool;
  report_operations : option (seq Operation)
}.

(** [computeAllSpaces(matrixData, trackOperations = false)] *)
Definition computeAllSpaces (matrixData : seq (seq JsValue))
    (trackOperations : bool) : HM Report :=
  if size matrixData == 0 then throw MatrixEmpty
  else if ~~ all (fun row => size row == size (head [::] matrixData)) matrixData
  then throw RowsNotUniform
  else
    let m := size matrixData in
    let n := size (head [::] matrixData) in
    if (5 < m) || (5 < n) then throw DimensionsTooLarge
    else
      matrix <-- Matrix_new matrixData ;;
      r <-- computeRREF matrix trackOperations ;;
      let rank := size (rrefPivots r) in
      columnSpace <-- computeColumnSpace matrix ;;
      rowSpace <-- computeRowSpace matrix ;;
      nullSpace <-- computeNullSpace matrix ;;
      leftNullSpace <-- computeLeftNullSpace matrix ;;
      rowSpaceVectors <-- mapM readRow rowSpace ;;
      matrixArray <-- toArray matrix ;;
      rrefArray <-- toArray (rref r) ;;
      ret (MkReport matrixArray m n rank rrefArray (rrefPivots r)
             (MkSubspace (formatBasis columnSpace) (size columnSpace))
             (MkSubspace (formatBasis rowSpaceVectors) (size rowSpace))
             (MkSubspace (formatBasis nullSpace) (size nullSpace))
             (MkSubspace (formatBasis leftNullSpace) (size leftNullSpace))
             ((size columnSpace == rank)
              && (size rowSpace == rank)
              && lengthIsDifference (size nullSpace) n rank
              && lengthIsDifference (size leftNullSpace) m rank)
             (if trackOperations then rrefOperations r else None)).

(** ** The computation engine: validateMatrix *)

(** [typeof val === 'number' && isFinite(val)] *)
Definition isFiniteNumber (v : JsValue) : bool :=
  if v is VNumber x then finiteb x else false.

(** [validateMatrix(matrixData)]: returns [{ rows, cols }]. *)
Definition validateMatrix (matrixData : seq (seq JsValue))
    : Result (nat * nat) :=
  if size matrixData == 0 then Throw MatrixEmpty
  else
    let rows := size matrixData in
    let cols := size (head [::] matrixData) in
    if cols == 0 then Throw NoColumns
    else if (5 < rows) || (5 < cols) then Throw DimensionsTooLarge
    else if ~~ all (fun row => size row == cols) matrixData
    then Throw RowsNotUniform
    else if ~~ all (all isFiniteNumber) matrixData then Throw InvalidValue
    else Ok (rows, cols).

(** ** Definitions for the proofs *)

(** The arrays of a matrix, read in a heap. *)
Definition rowsOf (h : Heap) (m : Matrix) : seq loc :=
  if nth (RowArray [::]) h (data m) is DataArray rowRefs then rowRefs else [::].

Definition cellsOf (h : Heap) (l : loc) : seq Fraction :=
  if nth (RowArray [::]) h l is RowArray cells then cells else [::].

Definition entry (h : Heap) (m : Matrix) (i j : nat) : Fraction :=
  nth zeroF (cellsOf h (nth 0 (rowsOf h m) i)) j.

Definition isDataAt (h : Heap) (l : loc) : bool :=
  (l < size h) && (if nth (RowArray [::]) h l is DataArray _ then true else false).

Definition isRowAt (h : Heap) (l : loc) : bool :=
  (l < size h) && (if nth (RowArray [::]) h l is RowArray _ then true else false).

(** What the constructor, [clone] and [transpose] build: an outer array of
    [rows] references to row arrays of [cols] cells. *)
Definition wfMatrix (h : Heap) (m : Matrix) : bool :=
  [&& isDataAt h (data m), size (rowsOf h m) == rows m
    & all (fun r => isRowAt h r && (size (cellsOf h r) == cols m)) (rowsOf h m)].

(** [Math.abs(m.get(row, col).toNumber())], the number the pivot search
    compares. *)
Definition magnitude (h : Heap) (m : Matrix) (row col : nat) : number :=
  abs (toNumber (entry h m row col)).

(** What the pivot search of column [col], started at row [cur], knows
    after the rows from [cur] up to [a], with [pivotRow = p] and
    [maxVal = mv]: no row seen is larger, the rows before [p] are not even
    equal, and once the search has left the row [cur] neither [mv] nor the
    number of [cur] is NaN. *)
Definition scanned (h : Heap) (m : Matrix) (col cur : nat)
    (p : nat) (mv : number) (a : nat) : Prop :=
  [/\ cur <= p < a,
      mv = magnitude h m p col,
      cur < p -> ~~ nanb mv /\ ~~ nanb (magnitude h m cur col),
      forall r, cur <= r < a -> ltb mv (magnitude h m r col) = false
    & forall r, cur <= r < p -> leb mv (magnitude h m r col) = false].

(** The rational number a Fraction with finite fields stands for, and the
    product of a matrix and a vector over the rationals. *)
Definition value (f : Fraction) : Q :=
  Qred (toQ (numerator f) / toQ (denominator f)).

Definition exactProduct (A : seq (seq Fraction)) (x : seq Fraction) : seq Q :=
  [seq Qred (foldr Qplus 0%Q [seq (value p.1 * value p.2)%Q | p <- zip row x])
  | row <- A].

(** ** Sample inputs *)

(** A grid of integers, as [validateMatrix] and [computeAllSpaces] receive
    it. *)
Definition integerGrid (g : seq (seq Z)) : seq (seq JsValue) :=
  [seq [seq VNumber (ofZ z) | z <- row] | row <- g].

(** Five rows of two-digit integers, the last one the sum of the first and
    the fourth: the rank is 4. *)
Definition dependentGrid : seq (seq JsValue) :=
  integerGrid [:: [:: 44; 89; 86; 24; 12];
                  [:: 26; 57; 90; 93; 35];
                  [:: 79; 16; 91; 75; 62];
                  [:: 78; 92; 13; 72; 31];
                  [:: 122; 181; 99; 96; 43]]%Z.

Definition wideGrid : seq (seq JsValue) :=
  integerGrid [:: [:: 11; 32; 4; 50; 17];
                  [:: 16; 36; 49; 37; 19];
                  [:: 17; 44; 9; 38; 41];
                  [:: 43; 3; 41; 50; 19]]%Z.

(** [[1, 1e200, 0], [0, 1, 1e200]] *)
Definition overflowGrid : seq (seq JsValue) :=
  integerGrid [:: [:: 1; 10 ^ 200; 0]; [:: 0; 1; 10 ^ 200]]%Z.

(** A heap with one matrix of three rows and two columns,
    [[1/2, 0], [-3/4, 1], [3/4, 2]]. *)
Definition fractionOf (n d : Z) : Fraction := MkFraction (ofZ n) (ofZ d).

Definition heap3x2 : Heap :=
  [:: RowArray [:: fractionOf 1 2; fractionOf 0 1];
      RowArray [:: fractionOf (-3) 4; fractionOf 1 1];
      RowArray [:: fractionOf 3 4; fractionOf 2 1];
      DataArray [:: 0; 1; 2]].

Definition matrix3x2 : Matrix := MkMatrix 3 3 2.

(** A column of two fractions whose quotients round to the same double:
    [[9007199254740991/3], [9007199254740992/3]]. *)
Definition heapTie : Heap :=
  [:: RowArray [:: fractionOf (2 ^ 53 - 1) 3];
      RowArray [:: fractionOf (2 ^ 53) 3];
      DataArray [:: 0; 1]].

Definition matrixTie : Matrix := MkMatrix 2 2 1.

End Double.

(** Case analysis on the comparisons of exponents and mantissas. *)
Ltac compare_cases :=
  repeat match goal with
  | |- context [Z.compare ?a ?b] =>
      let H := fresh in case: (Z.compare_spec a b) => H /=
  | |- context [PosDef.Pos.compare_cont Eq ?a ?b] =>
      change (PosDef.Pos.compare_cont Eq a b) with (Pos.compare a b);
      let H := fresh in case: (Pos.compare_spec a b) => H /=
  end.

(** * Properties of Fraction *)

Section FractionFacts.

Local Open Scope Z_scope.

Lemma gcd_fuel_enough (fuel : nat) (a b : Z) :
  0 <= a -> 0 <= b -> (Z.to_nat b < fuel)%coq_nat ->
  gcd_fuel fuel a b = Z.gcd a b.
Proof.
elim: fuel a b => [|fuel IH] a b Ha Hb Hlt.  by exfalso; lia.
rewrite /=; case: Z.eqb_spec => [->|Hb0].
  by rewrite Z.gcd_0_r Z.abs_eq.
have Hr := Z.rem_bound_pos a b Ha ltac:(lia).
rewrite IH; try lia.
rewrite Z.rem_mod_nonneg; try lia.
by rewrite Z.gcd_comm Z.gcd_mod // Z.gcd_comm.
Qed.

Lemma gcdE (a b : Z) : 0 <= a -> 0 <= b -> gcd a b = Z.gcd a b.
Proof. by move=> Ha Hb; apply: gcd_fuel_enough => //; lia. Qed.

Lemma Fraction_newE (n d : Z) :
  d <> 0 -> Fraction_new n d = Ok (normalize n d).
Proof. by rewrite /Fraction_new => /Z.eqb_spec; case: Z.eqb_spec. Qed.

Lemma normalizeE (n d : Z) :
  normalize n d =
  let n' := if d <? 0 then - n else n in
  let d' := if d <? 0 then - d else d in
  MkFraction (n' / Z.gcd n' d') (d' / Z.gcd n' d').
Proof.
rewrite /normalize gcdE; try lia.
by rewrite Z.gcd_abs_l Z.gcd_abs_r.
Qed.

Lemma reduced_normalize (n d : Z) : d <> 0 -> reduced (normalize n d).
Proof.
move=> Hd; rewrite normalizeE /reduced /=.
set n' := if _ then _ else n; set d' := if _ then _ else d.
have Hd' : 0 < d' by rewrite /d'; case: Z.ltb_spec; lia.
have Hg0 := Z.gcd_nonneg n' d'.
have Hgn : Z.gcd n' d' <> 0 by move/Z.gcd_eq_0_r; lia.
have [k Hk] := Z.gcd_divide_r n' d'.
have Hdq : 0 < d' / Z.gcd n' d'.
  apply: Z.div_str_pos; split; first lia.
  by apply: Z.divide_pos_le => //; apply: Z.gcd_divide_r.
apply/andP; split; first by apply/Z.ltb_spec0.
apply/Z.eqb_spec; rewrite Z.gcd_abs_l.
by apply: Z.gcd_div_gcd.
Qed.

Lemma reduced_den (f : Fraction) : reduced f -> 0 < denominator f.
Proof. by case/andP => /Z.ltb_spec0. Qed.

Lemma reduced_gcd (f : Fraction) :
  reduced f -> Z.gcd (Z.abs (numerator f)) (denominator f) = 1.
Proof. by case/andP => _ /Z.eqb_spec. Qed.

Lemma add_ok (x y : Fraction) :
  reduced x -> reduced y -> add x y = Ok (addF x y).
Proof.
move=> /reduced_den Hx /reduced_den Hy.
by rewrite /add Fraction_newE //; nia.
Qed.

Lemma multiply_ok (x y : Fraction) :
  reduced x -> reduced y -> multiply x y = Ok (mulF x y).
Proof.
move=> /reduced_den Hx /reduced_den Hy.
by rewrite /multiply Fraction_newE //; nia.
Qed.

Lemma negate_ok (x : Fraction) : reduced x -> negate x = Ok (negF x).
Proof. by move=> /reduced_den Hx; rewrite /negate Fraction_newE //; lia. Qed.

Lemma divide_ok (x y : Fraction) :
  reduced x -> reduced y -> isZero y = false -> divide x y = Ok (divF x y).
Proof.
move=> /reduced_den Hx /reduced_den Hy; rewrite /isZero /divide.
case: Z.eqb_spec => // Hn _.
by rewrite Fraction_newE //; nia.
Qed.

Lemma reduced_addF x y : reduced x -> reduced y -> reduced (addF x y).
Proof.
by move=> /reduced_den Hx /reduced_den Hy; apply: reduced_normalize; nia.
Qed.

Lemma reduced_mulF x y : reduced x -> reduced y -> reduced (mulF x y).
Proof.
by move=> /reduced_den Hx /reduced_den Hy; apply: reduced_normalize; nia.
Qed.

Lemma reduced_negF x : reduced x -> reduced (negF x).
Proof. by move=> /reduced_den Hx; apply: reduced_normalize; lia. Qed.

Lemma reduced_divF x y :
  reduced x -> reduced y -> isZero y = false -> reduced (divF x y).
Proof.
move=> /reduced_den Hx /reduced_den Hy; rewrite /isZero.
by case: Z.eqb_spec => // Hn _; apply: reduced_normalize; nia.
Qed.

Lemma den_mul_neq0 x y :
  reduced x -> reduced y -> denominator x * denominator y <> 0.
Proof. by move=> /reduced_den Hx /reduced_den Hy; nia. Qed.

Lemma den_neq0 x : reduced x -> denominator x <> 0.
Proof. by move=> /reduced_den Hx; lia. Qed.

Lemma den_num_neq0 x y :
  reduced x -> isZero y = false -> denominator x * numerator y <> 0.
Proof.
move=> /reduced_den Hx; rewrite /isZero.
by case: Z.eqb_spec => // Hn _; nia.
Qed.

End FractionFacts.

Section FractionValue.

Local Open Scope ring_scope.

Lemma ratzD (a b : Z) : ratz (a + b) = ratz a + ratz b.
Proof.
rewrite /ratz -rmorphD /=; congr (_%:~R).
exact/eqP/(ZintD (Zint_int_of_Z a) (Zint_int_of_Z b)).
Qed.

Lemma ratzM (a b : Z) : ratz (a * b) = ratz a * ratz b.
Proof.
rewrite /ratz -rmorphM /=; congr (_%:~R).
exact/eqP/(ZintM (Zint_int_of_Z a) (Zint_int_of_Z b)).
Qed.

Lemma ratzN (a : Z) : ratz (- a) = - ratz a.
Proof.
rewrite /ratz -rmorphN /=; congr (_%:~R).
exact/eqP/(ZintN (Zint_int_of_Z a)).
Qed.

Lemma ratz0 : ratz 0 = 0. Proof. by []. Qed.
Lemma ratz1 : ratz 1 = 1. Proof. by []. Qed.

Lemma ratz_eq (a b : Z) : (ratz a == ratz b) = (a =? b)%Z.
Proof.
by rewrite /ratz eqr_int (Zint_eq (Zint_int_of_Z a) (Zint_int_of_Z b)).
Qed.

Lemma ratz_eq0 (a : Z) : (ratz a == 0) = (a =? 0)%Z.
Proof. by rewrite -ratz0 ratz_eq. Qed.

Lemma ratz_neq0 (a : Z) : a <> 0%Z -> ratz a != 0.
Proof. by rewrite ratz_eq0 => /Z.eqb_spec; case: Z.eqb_spec. Qed.

Lemma toRat_normalize (n d : Z) :
  d <> 0%Z -> toRat (normalize n d) = ratz n / ratz d.
Proof.
move=> Hd; rewrite normalizeE /toRat /=.
set n' := if _ then _ else n; set d' := if _ then _ else d.
have Hd' : d' <> 0%Z by rewrite /d'; case: Z.ltb_spec; lia.
have -> : ratz n / ratz d = ratz n' / ratz d'.
  rewrite /n' /d'; case: Z.ltb_spec => // _.
  by rewrite !ratzN invrN mulrNN.
have Hg : Z.gcd n' d' <> 0%Z by move/Z.gcd_eq_0_r.
have [kn Hn] := Z.gcd_divide_l n' d'.
have [kd Hk] := Z.gcd_divide_r n' d'.
move: Hg Hn Hk; set g := Z.gcd n' d' => Hg Hn Hk.
rewrite Hn Hk !Z.div_mul // !ratzM.
have Hgr := ratz_neq0 Hg.
have Hkd : ratz kd != 0 by apply: ratz_neq0 => Hkd; rewrite Hkd in Hk; lia.
by rewrite -mulf_div divff // mulr1.
Qed.

Lemma ratz_den (f : Fraction) : reduced f -> ratz (denominator f) != 0.
Proof. by move/reduced_den => H; apply: ratz_neq0; lia. Qed.

Lemma toRat_addF x y :
  reduced x -> reduced y -> toRat (addF x y) = toRat x + toRat y.
Proof.
move=> Hx Hy; have Dx := ratz_den Hx; have Dy := ratz_den Hy.
rewrite /addF toRat_normalize; first exact: den_mul_neq0.
by rewrite /toRat ratzD !ratzM addf_div.
Qed.

Lemma toRat_mulF x y :
  reduced x -> reduced y -> toRat (mulF x y) = toRat x * toRat y.
Proof.
move=> Hx Hy; rewrite /mulF toRat_normalize; first exact: den_mul_neq0.
by rewrite /toRat !ratzM mulf_div.
Qed.

Lemma toRat_negF x : reduced x -> toRat (negF x) = - toRat x.
Proof.
move=> Hx; rewrite /negF toRat_normalize; first exact: den_neq0.
by rewrite /toRat ratzN mulNr.
Qed.

Lemma isZero_toRat x : reduced x -> isZero x = (toRat x == 0).
Proof.
move=> Hx; rewrite /toRat mulf_eq0 invr_eq0 (negbTE (ratz_den Hx)) orbF.
by rewrite ratz_eq0.
Qed.

Lemma toRat_divF x y :
  reduced x -> reduced y -> isZero y = false ->
  toRat (divF x y) = toRat x / toRat y.
Proof.
move=> Hx Hy Hz; rewrite /divF toRat_normalize; first exact: den_num_neq0.
by rewrite /toRat !ratzM invf_div mulf_div.
Qed.

Lemma toRat_oneF : toRat oneF = 1.
Proof. by rewrite /toRat /= ratz1 divr1. Qed.

Lemma equals_oneP x : reduced x -> equals x oneF = (toRat x == 1).
Proof.
case: x => n d Hx; rewrite /equals /=.
have Hd := reduced_den Hx; have Dx := ratz_den Hx; simpl in Hd, Dx.
rewrite /toRat /= -(inj_eq (mulIf Dx)) mul1r divfK // ratz_eq.
apply/andP/idP => [[/Z.eqb_spec -> /Z.eqb_spec ->] //|/Z.eqb_spec Hnd].
move: (reduced_gcd Hx) => /=; rewrite Hnd Z.gcd_abs_l Z.gcd_diag => H.
by split; apply/Z.eqb_spec; lia.
Qed.

Lemma equalsP (x y : Fraction) : reflect (x = y) (equals x y).
Proof.
case: x y => [n d] [n' d']; rewrite /equals /=.
apply: (iffP andP) => [[/Z.eqb_spec -> /Z.eqb_spec -> //]|[-> ->]].
by split; apply/Z.eqb_spec.
Qed.

End FractionValue.

(** * Grids: shape lemmas *)

Section GridFacts.

Lemma size_updRow f row js :
  all (fun j => j < size row) js -> size (updRow f row js) = size row.
Proof.
rewrite /updRow; elim: js row => [|j js IH] row //= /andP [Hj Hjs].
have Hs : size (set_nth zeroF row j (f j (nth zeroF row j))) = size row.
  by rewrite size_set_nth; apply/maxn_idPr.
by rewrite IH Hs.
Qed.

Lemma nth_updRow f row k j :
  k <= size row ->
  nth zeroF (updRow f row (iota 0 k)) j
  = if j < k then f j (nth zeroF row j) else nth zeroF row j.
Proof.
rewrite /updRow; elim: k j => [|k IH] j Hk; first by [].
rewrite -addn1 iotaD foldl_cat /= add0n addn1 nth_set_nth /=.
rewrite !(IH _ (ltnW Hk)) ltnn ltnS.
by case: (ltngtP j k) => // ->.
Qed.

Lemma size_updRow_iota f row k :
  k <= size row -> size (updRow f row (iota 0 k)) = size row.
Proof.
move=> Hk; apply: size_updRow; apply/allP => j.
by rewrite mem_iota add0n => /andP [_ Hj]; apply: leq_trans Hk.
Qed.

Lemma all_reduced_updRow f row k :
  k <= size row -> all reduced row ->
  (forall j, j < k -> reduced (f j (nth zeroF row j))) ->
  all reduced (updRow f row (iota 0 k)).
Proof.
move=> Hk Hr Hf; apply/(all_nthP zeroF) => j.
rewrite size_updRow_iota // => Hj; rewrite nth_updRow //.
by case: ltnP => [/Hf|_] //; apply: (all_nthP zeroF Hr).
Qed.

Variables (m n : nat).

Lemma wfGrid_size G : wfGrid m n G -> size G = m.
Proof. by case/and3P => /eqP. Qed.

Lemma wfGrid_row G i : wfGrid m n G -> i < m -> size (nth [::] G i) = n.
Proof.
case/and3P => /eqP Hm /(all_nthP [::]) Hn _ Hi.
by apply/eqP/Hn; rewrite Hm.
Qed.

Lemma wfGrid_rowred G i : wfGrid m n G -> i < m -> all reduced (nth [::] G i).
Proof.
case/and3P => /eqP Hm _ /(all_nthP [::]) Hr Hi.
by apply: Hr; rewrite Hm.
Qed.

Lemma wfGrid_reduced G i j :
  wfGrid m n G -> i < m -> j < n -> reduced (entry G i j).
Proof.
move=> HG Hi Hj; have Hrow := wfGrid_rowred HG Hi.
by apply: (all_nthP zeroF Hrow); rewrite wfGrid_row.
Qed.

Lemma wfGridP G :
  size G = m ->
  (forall i, i < m -> size (nth [::] G i) = n) ->
  (forall i, i < m -> all reduced (nth [::] G i)) ->
  wfGrid m n G.
Proof.
move=> Hm Hn Hr; apply/and3P; split; first exact/eqP.
  by apply/(all_nthP [::]) => i; rewrite Hm => /Hn /eqP.
by apply/(all_nthP [::]) => i; rewrite Hm => /Hr.
Qed.

Lemma wfGrid_set_row G i row :
  wfGrid m n G -> i < m -> size row = n -> all reduced row ->
  wfGrid m n (set_nth [::] G i row).
Proof.
move=> HG Hi Hs Hr; have Hm := wfGrid_size HG.
apply: wfGridP.
- by rewrite size_set_nth Hm; apply/maxn_idPr.
- move=> k Hk; rewrite nth_set_nth /=; case: eqP => // _.
  exact: wfGrid_row.
- move=> k Hk; rewrite nth_set_nth /=; case: eqP => // _.
  exact: wfGrid_rowred.
Qed.

Lemma wfGrid_gswap G i j :
  wfGrid m n G -> i < m -> j < m -> wfGrid m n (gswap G i j).
Proof.
move=> HG Hi Hj; rewrite /gswap.
apply: wfGrid_set_row => //; last exact: wfGrid_rowred.
  apply: wfGrid_set_row => //; last exact: wfGrid_rowred.
  exact: wfGrid_row.
exact: wfGrid_row.
Qed.

Lemma wfGrid_gscale G i s :
  wfGrid m n G -> i < m -> reduced s -> wfGrid m n (gscale n G i s).
Proof.
move=> HG Hi Hs; rewrite /gscale; have Hn := wfGrid_row HG Hi.
apply: wfGrid_set_row => //.
  by rewrite size_updRow_iota ?Hn.
apply: all_reduced_updRow; rewrite ?Hn //; first exact: wfGrid_rowred.
by move=> j Hj; apply: reduced_mulF => //; apply: (wfGrid_reduced HG).
Qed.

Lemma wfGrid_gaddmul G i j s :
  wfGrid m n G -> i < m -> j < m -> reduced s ->
  wfGrid m n (gaddmul n G i j s).
Proof.
move=> HG Hi Hj Hs; rewrite /gaddmul; have Hn := wfGrid_row HG Hi.
apply: wfGrid_set_row => //.
  by rewrite size_updRow_iota ?Hn.
apply: all_reduced_updRow; rewrite ?Hn //; first exact: wfGrid_rowred.
move=> k Hk; apply: reduced_addF; first exact: (wfGrid_reduced HG).
by apply: reduced_mulF => //; apply: (wfGrid_reduced HG).
Qed.

Lemma entry_gswap G i j a b :
  wfGrid m n G -> i < m -> j < m ->
  entry (gswap G i j) a b
  = entry G (if a == j then i else if a == i then j else a) b.
Proof.
move=> HG Hi Hj; rewrite /entry /gswap !nth_set_nth /=.
by case: (a =P j) => // _; rewrite nth_set_nth /=; case: (a =P i).
Qed.

Lemma entry_gscale G i s a b :
  wfGrid m n G -> i < m ->
  entry (gscale n G i s) a b
  = if (a == i) && (b < n) then mulF (entry G i b) s else entry G a b.
Proof.
move=> HG Hi; rewrite /entry /gscale nth_set_nth /=.
case: (a =P i) => [->|_] //=.
by rewrite nth_updRow // (wfGrid_row HG).
Qed.

Lemma entry_gaddmul G i j s a b :
  wfGrid m n G -> i < m ->
  entry (gaddmul n G i j s) a b
  = if (a == i) && (b < n) then addF (entry G i b) (mulF (entry G j b) s)
    else entry G a b.
Proof.
move=> HG Hi; rewrite /entry /gaddmul nth_set_nth /=.
case: (a =P i) => [->|_] //=.
by rewrite nth_updRow // (wfGrid_row HG).
Qed.

End GridFacts.

(** * The heap: reading, writing, framing *)

Section HeapFacts.

Lemma bindE {A B} (c : HM A) (k : A -> HM B) h a h' :
  c h = Ok (a, h') -> bind c k h = k a h'.
Proof. by rewrite /bind => ->. Qed.

Lemma lift_ok {A} (r : Result A) a h : r = Ok a -> lift r h = Ok (a, h).
Proof. by move=> ->. Qed.

Lemma readData_ok h l : isDataAt h l -> readData l h = Ok (rowsOf h l, h).
Proof.
rewrite /isDataAt /readData /rowsOf => /andP [-> ].
by case: (nth _ _ _).
Qed.

Lemma readRow_ok h l : isRowAt h l -> readRow l h = Ok (cellsOf h l, h).
Proof.
rewrite /isRowAt /readRow /cellsOf => /andP [-> ].
by case: (nth _ _ _).
Qed.

Lemma write_ok h l o :
  l < size h -> write l o h = Ok (tt, set_nth dflt h l o).
Proof. by rewrite /write => ->. Qed.

Lemma isRowAt_lt h l : isRowAt h l -> l < size h.
Proof. by case/andP. Qed.

Lemma isDataAt_lt h l : isDataAt h l -> l < size h.
Proof. by case/andP. Qed.

Lemma row_neq_data h r d : isRowAt h r -> isDataAt h d -> r != d.
Proof.
case/andP => _ Hr /andP [_ Hd]; apply/eqP => E; move: Hr Hd; rewrite E.
by case: (nth _ _ _).
Qed.

Lemma size_write h l o : l < size h -> size (set_nth dflt h l o) = size h.
Proof. by move=> Hl; rewrite size_set_nth; apply/maxn_idPr. Qed.

Lemma readable_data h M : readable h M -> isDataAt h (data M).
Proof. by case/andP. Qed.

Lemma readable_row h M i :
  readable h M -> i < size (rowsOf h (data M)) ->
  isRowAt h (nth 0 (rowsOf h (data M)) i).
Proof. by case/andP => _ /(all_nthP 0) H /H. Qed.

Lemma wfMatrix_readable h M : wfMatrix h M -> readable h M.
Proof. by case/and3P. Qed.

Lemma wfMatrix_uniq h M : wfMatrix h M -> uniq (rowsOf h (data M)).
Proof. by case/and3P. Qed.

Lemma wfMatrix_grid h M : wfMatrix h M -> wfGrid (rows M) (cols M) (gridOf h M).
Proof. by case/and3P. Qed.

Lemma wfMatrix_rows h M : wfMatrix h M -> size (rowsOf h (data M)) = rows M.
Proof. by move/wfMatrix_grid/wfGrid_size; rewrite /gridOf size_map. Qed.

Lemma gridOf_row h M i :
  i < size (rowsOf h (data M)) ->
  nth [::] (gridOf h M) i = cellsOf h (nth 0 (rowsOf h (data M)) i).
Proof. by move=> Hi; rewrite /gridOf (nth_map 0). Qed.

Lemma rowRef_ok h M i :
  readable h M -> i < size (rowsOf h (data M)) ->
  rowRef M i h = Ok (nth 0 (rowsOf h (data M)) i, h).
Proof.
move=> HM Hi; rewrite /rowRef (bindE _ (readData_ok (readable_data HM))).
by rewrite Hi.
Qed.

Lemma get_ok h M i j :
  wfMatrix h M -> i < rows M -> j < cols M ->
  get M i j h = Ok (entry (gridOf h M) i j, h).
Proof.
move=> HM Hi Hj; have HR := wfMatrix_readable HM.
have Hi' : i < size (rowsOf h (data M)) by rewrite wfMatrix_rows.
rewrite /get (bindE _ (rowRef_ok HR Hi')).
rewrite (bindE _ (readRow_ok (readable_row HR Hi'))).
rewrite -gridOf_row // (wfGrid_row (wfMatrix_grid HM)) // Hj.
by [].
Qed.

(** Framing *)

Lemma frame_refl lo hi h : frame lo hi h h.
Proof. by split. Qed.

Lemma frame_trans lo hi h1 h2 h3 :
  frame lo hi h1 h2 -> frame lo hi h2 h3 -> frame lo hi h1 h3.
Proof.
move=> [S12 H12] [S23 H23]; split; first exact: leq_trans S23.
move=> l Hl Ho; rewrite H23 ?H12 //.
exact: leq_trans S12.
Qed.

Lemma extends_frame lo hi h h' : extends h h' -> frame lo hi h h'.
Proof. by move=> [S H]; split => // l Hl _; apply: H. Qed.

Lemma extends_cat h t : extends h (h ++ t).
Proof.
split; first by rewrite size_cat leq_addr.
by move=> l Hl; rewrite nth_cat Hl.
Qed.

Lemma frame_write lo hi h l o :
  lo <= l < hi -> l < size h -> frame lo hi h (set_nth dflt h l o).
Proof.
move=> Hl Hs; split; first by rewrite size_write.
move=> k Hk Ho; rewrite nth_set_nth /=; case: eqP => // E.
by move: Ho; rewrite E Hl.
Qed.

Lemma frame_rowsOf lo hi h h' M :
  frame lo hi h h' -> apart lo hi h M ->
  rowsOf h' (data M) = rowsOf h (data M).
Proof.
by move=> [_ H] /and3P [Hd Ho _]; rewrite /rowsOf H.
Qed.

Lemma frame_gridOf lo hi h h' M :
  frame lo hi h h' -> apart lo hi h M -> gridOf h' M = gridOf h M.
Proof.
move=> Hf Ha; rewrite /gridOf (frame_rowsOf Hf Ha).
case: Hf => _ H; case/and3P: Ha => _ _ /allP Hr.
apply/eq_in_map => r /Hr /andP [Hs Ho].
by rewrite /cellsOf H.
Qed.

Lemma frame_readable lo hi h h' M :
  frame lo hi h h' -> apart lo hi h M -> readable h M -> readable h' M.
Proof.
move=> Hf Ha; rewrite /readable (frame_rowsOf Hf Ha).
case: Hf => S H; case/and3P: Ha => Hd Ho /allP Hr /andP [HD /allP HR].
apply/andP; split.
  by move: HD; rewrite /isDataAt H // Hd (leq_trans Hd S).
apply/allP => r Hin; move: (HR r Hin) (Hr r Hin) => /andP [_ Hrow] /andP [Hs Hro].
by rewrite /isRowAt H // Hrow (leq_trans Hs S).
Qed.

Lemma frame_wfMatrix lo hi h h' M :
  frame lo hi h h' -> apart lo hi h M -> wfMatrix h M -> wfMatrix h' M.
Proof.
move=> Hf Ha /and3P [HR HU HG]; apply/and3P; split.
- exact: (frame_readable Hf Ha HR).
- by rewrite (frame_rowsOf Hf Ha).
- by rewrite (frame_gridOf Hf Ha).
Qed.

Lemma readable_apart h M : readable h M -> apart 0 0 h M.
Proof.
case/andP => /isDataAt_lt Hd /allP HR; rewrite /apart Hd /=.
by apply/allP => r /HR /isRowAt_lt ->.
Qed.

Lemma within_apart lo hi lo' hi' h M :
  within lo' hi' h M -> (hi <= lo') || (hi' <= lo) -> apart lo hi h M.
Proof.
case/and3P => Hs /andP [Hd1 Hd2] /allP Hr Hor.
have Hout l : lo' <= l < hi' -> (l < size h) && ~~ (lo <= l < hi).
  case/andP => H1 H2; rewrite (leq_trans H2 Hs) /= negb_and -ltnNge -leqNgt.
  case/orP: Hor => Hor; first by rewrite (leq_trans Hor H1) orbT.
  by rewrite (leq_trans H2 Hor).
apply/and3P; split.
- by case/andP: (Hout (data M) (introT andP (conj Hd1 Hd2))).
- by case/andP: (Hout (data M) (introT andP (conj Hd1 Hd2))).
- by apply/allP => r /Hr /Hout.
Qed.

Lemma frame_within lo hi h h' M :
  frame lo hi h h' -> within hi (size h) h M -> within hi (size h') h' M.
Proof.
move=> Hf HW; have Ha : apart lo hi h M.
  by apply: within_apart HW _; rewrite leqnn.
rewrite /within (frame_rowsOf Hf Ha); case: Hf => S _.
case/and3P: HW => _ /andP [-> Hd] /allP Hr.
rewrite leqnn (leq_trans Hd S) /=; apply/allP => r /Hr /andP [-> Hs].
exact: (leq_trans Hs S).
Qed.

Lemma extends_wfMatrix h h' M :
  extends h h' -> wfMatrix h M -> wfMatrix h' M.
Proof.
move=> He HM; apply: (frame_wfMatrix (extends_frame 0 0 He) _ HM).
exact/readable_apart/wfMatrix_readable.
Qed.

Lemma extends_gridOf h h' M :
  extends h h' -> readable h M -> gridOf h' M = gridOf h M.
Proof.
move=> He HM; apply: (frame_gridOf (extends_frame 0 0 He)).
exact: readable_apart.
Qed.

Lemma extends_rowsOf h h' M :
  extends h h' -> readable h M -> rowsOf h' (data M) = rowsOf h (data M).
Proof.
move=> He HM; apply: (frame_rowsOf (extends_frame 0 0 He)).
exact: readable_apart.
Qed.

Lemma extends_within lo hi h h' M :
  extends h h' -> readable h M -> within lo hi h M -> within lo hi h' M.
Proof.
move=> He HR /and3P [Hs Hd Hr]; rewrite /within (extends_rowsOf He HR) Hd Hr.
by case: He => S _; rewrite (leq_trans Hs S).
Qed.

End HeapFacts.

(** * The methods of Matrix on the heap *)

Section MatrixMethods.

Lemma forEach_spec {A} (x0 : A) (xs : seq A) (body : A -> HM unit)
    (I : nat -> Heap -> Prop) h :
  I 0 h ->
  (forall k hk, k < size xs -> I k hk ->
     exists hk', body (nth x0 xs k) hk = Ok (tt, hk') /\ I k.+1 hk') ->
  exists h', forEach xs body h = Ok (tt, h') /\ I (size xs) h'.
Proof.
elim: xs I h => [|x xs IH] I h H0 Hstep /=; first by exists h.
have [h1 [E1 H1]] := Hstep 0 h (ltn0Sn _) H0.
have [h2 [E2 H2]] := IH (fun k => I k.+1) h1 H1
  (fun k hk Hk Hi => Hstep k.+1 hk Hk Hi).
by exists h2; split => //; rewrite (bindE _ E1).
Qed.

Lemma mapM_read {A B} (x0 : A) (f : A -> HM B) (g : A -> B) (xs : seq A) h :
  (forall k, k < size xs -> f (nth x0 xs k) h = Ok (g (nth x0 xs k), h)) ->
  mapM f xs h = Ok ([seq g x | x <- xs], h).
Proof.
elim: xs => [|x xs IH] Hf //=.
rewrite (bindE _ (Hf 0 (ltn0Sn _))) /= (bindE _ (IH _)) //.
by move=> k Hk; apply: (Hf k.+1).
Qed.

(** Allocating one row array per element of [xs]. *)
Lemma mapM_alloc {A} (x0 : A) (c : A -> HM (seq Fraction))
    (g : A -> seq Fraction) (xs : seq A) h0 :
  (forall k t, k < size xs ->
     c (nth x0 xs k) (h0 ++ t) = Ok (g (nth x0 xs k), h0 ++ t)) ->
  forall t,
    mapM (fun x => cells <-- c x ;; alloc (RowArray cells)) xs (h0 ++ t)
    = Ok (iota (size (h0 ++ t)) (size xs),
          h0 ++ t ++ [seq RowArray (g x) | x <- xs]).
Proof.
elim: xs => [|x xs IH] Hc t /=; first by rewrite cats0.
rewrite (bindE _ (bindE _ (Hc 0 t (ltn0Sn _)))) /alloc /=.
rewrite -cats1 -catA (bindE _ (IH _ _)) /=.
  by move=> k t' Hk; apply: (Hc k.+1).
by rewrite /ret !size_cat /= addn1 addnS -catA.
Qed.

Lemma set_nth_same {T} (x0 : T) (s : seq T) i a b :
  set_nth x0 (set_nth x0 s i a) i b = set_nth x0 s i b.
Proof. by rewrite set_set_nth eqxx. Qed.

(** Writing one row array of a readable matrix. *)
Lemma rowWrite h M i c
    (r := nth 0 (rowsOf h (data M)) i)
    (h' := set_nth dflt h r (RowArray c)) :
  readable h M -> uniq (rowsOf h (data M)) ->
  i < size (rowsOf h (data M)) ->
  [/\ rowsOf h' (data M) = rowsOf h (data M),
      gridOf h' M = set_nth [::] (gridOf h M) i c
    & readable h' M].
Proof.
move=> HR HU Hi.
have Hrow : isRowAt h r by apply: readable_row.
have Hrd : r != data M := row_neq_data Hrow (readable_data HR).
have Hrows : rowsOf h' (data M) = rowsOf h (data M).
  by rewrite /rowsOf /h' nth_set_nth /= eq_sym (negbTE Hrd).
have Hcells l : cellsOf h' l = if l == r then c else cellsOf h l.
  by rewrite /cellsOf /h' nth_set_nth /=; case: eqP.
split => //.
- rewrite /gridOf Hrows; apply: (@eq_from_nth _ [::]).
    by rewrite size_set_nth !size_map; apply/esym/maxn_idPr.
  move=> k; rewrite size_map => Hk.
  rewrite (nth_map 0) // nth_set_nth /= Hcells (nth_uniq 0 Hk Hi HU).
  by case: eqP => // _; rewrite (nth_map 0).
- rewrite /readable Hrows; case/andP: HR => HD /allP HRs.
  apply/andP; split.
    move: HD; rewrite /isDataAt /h' size_write ?(isRowAt_lt Hrow) //.
    by rewrite nth_set_nth /= eq_sym (negbTE Hrd).
  apply/allP => l /HRs; rewrite /isRowAt /h' size_write ?(isRowAt_lt Hrow) //.
  rewrite nth_set_nth /=; case: eqP => [->|] // _.
  by rewrite (isRowAt_lt Hrow).
Qed.

Lemma putCell_spec lo hi h M G i j v :
  Inv lo hi h M G -> i < rows M -> j < cols M -> reduced v ->
  exists h',
    [/\ putCell M i j v h = Ok (tt, h'),
        Inv lo hi h' M (set_nth [::] G i (set_nth zeroF (nth [::] G i) j v))
      & frame lo hi h h'].
Proof.
move=> [HM HW HG] Hi Hj Hv; have HR := wfMatrix_readable HM.
have Hi' : i < size (rowsOf h (data M)) by rewrite wfMatrix_rows.
have Hrow := readable_row HR Hi'.
set r := nth 0 (rowsOf h (data M)) i in Hrow.
set c := set_nth zeroF (cellsOf h r) j v.
exists (set_nth dflt h r (RowArray c)).
have [Hrows Hgrid HR'] := rowWrite c HR (wfMatrix_uniq HM) Hi'.
have Hc : c = set_nth zeroF (nth [::] G i) j v by rewrite -HG gridOf_row.
have HGw := wfMatrix_grid HM.
have Hin : lo <= r < hi.
  by case/and3P: HW => _ _ /(all_nthP 0); apply.
split.
- rewrite /putCell (bindE _ (rowRef_ok HR Hi')).
  rewrite (bindE _ (readRow_ok Hrow)) write_ok //.
  exact: isRowAt_lt.
- split.
  + apply/and3P; split => //; first by rewrite Hrows (wfMatrix_uniq HM).
    rewrite Hgrid; apply: wfGrid_set_row => //.
      rewrite size_set_nth /c -gridOf_row // (wfGrid_row HGw) //.
      exact/maxn_idPr.
    apply/(all_nthP zeroF) => k; rewrite size_set_nth nth_set_nth /=.
    rewrite -gridOf_row // (wfGrid_row HGw) // => Hk.
    case: eqP => // _; apply: (wfGrid_reduced HGw) => //.
    by move: Hk; rewrite (maxn_idPr Hj).
  + case/and3P: HW => Hs Hd Hr; rewrite /within Hrows Hd Hr.
    by rewrite size_write ?Hs // (isRowAt_lt Hrow).
  + by rewrite Hgrid HG -Hc.
- by apply: frame_write => //; apply: isRowAt_lt.
Qed.

Lemma Inv_get lo hi h M G i j :
  Inv lo hi h M G -> i < rows M -> j < cols M ->
  get M i j h = Ok (entry G i j, h).
Proof. by move=> [HM _ <-]; apply: get_ok. Qed.

Lemma Inv_wfGrid lo hi h M G : Inv lo hi h M G -> wfGrid (rows M) (cols M) G.
Proof. by move=> [HM _ <-]; apply: wfMatrix_grid. Qed.

(** The loop shared by [multiplyRow] and [addRowMultiple]: cell [k] of row
    [i] becomes [f k] of its old value. *)
Lemma rowLoop_spec lo hi h M G i (f : nat -> Fraction -> Fraction)
    (body : nat -> HM unit) :
  Inv lo hi h M G -> i < rows M ->
  (forall k x, k < cols M -> reduced x -> reduced (f k x)) ->
  (forall k hk Gk, k < cols M -> Inv lo hi hk M Gk ->
     (forall a, a != i -> nth [::] Gk a = nth [::] G a) ->
     exists hk',
       [/\ body k hk = Ok (tt, hk'),
           Inv lo hi hk' M
             (set_nth [::] Gk i
                (set_nth zeroF (nth [::] Gk i) k
                         (f k (nth zeroF (nth [::] Gk i) k))))
         & frame lo hi hk hk']) ->
  exists h',
    [/\ forEach (iota 0 (cols M)) body h = Ok (tt, h'),
        Inv lo hi h' M
          (set_nth [::] G i (updRow f (nth [::] G i) (iota 0 (cols M))))
      & frame lo hi h h'].
Proof.
move=> HI Hi Hf Hbody.
pose I k hk :=
  Inv lo hi hk M (set_nth [::] G i (updRow f (nth [::] G i) (iota 0 k)))
  /\ frame lo hi h hk.
have HG := Inv_wfGrid HI; have Hsz := wfGrid_size HG.
have H0 : I 0 h.
  split; last exact: frame_refl.
  case: HI => HM HW HE; split => //=.
  rewrite HE; apply: (@eq_from_nth _ [::]).
    by rewrite size_set_nth Hsz; apply/esym/maxn_idPr.
  by move=> k _; rewrite nth_set_nth /=; case: eqP => // ->.
have Hstep k hk : k < size (iota 0 (cols M)) -> I k hk ->
    exists hk', body (nth 0 (iota 0 (cols M)) k) hk = Ok (tt, hk')
                /\ I k.+1 hk'.
  rewrite size_iota => Hk [HIk HFk]; rewrite nth_iota // add0n.
  have [|hk' [Ek HIk' HFk']] := Hbody k hk _ Hk HIk.
    by move=> a Ha; rewrite nth_set_nth /= (negbTE Ha).
  exists hk'; split => //; split; last exact: frame_trans HFk'.
  rewrite -addn1 iotaD /updRow foldl_cat add0n -/(updRow _ _ _).
  by move: HIk'; rewrite nth_set_nth /= eqxx set_nth_same.
have [h' [E [HI' HF']]] := forEach_spec H0 Hstep.
by exists h'; split => //; move: HI'; rewrite size_iota.
Qed.

Lemma multiplyRow_spec lo hi h M G i s :
  Inv lo hi h M G -> i < rows M -> reduced s ->
  exists h',
    [/\ multiplyRow M i s h = Ok (tt, h'),
        Inv lo hi h' M (gscale (cols M) G i s)
      & frame lo hi h h'].
Proof.
move=> HI Hi Hs.
have -> : multiplyRow M i s h
          = forEach (iota 0 (cols M)) (fun j =>
              x <-- get M i j ;; y <-- lift (multiply x s) ;; putCell M i j y) h
  by [].
apply: (rowLoop_spec (f := fun _ x => mulF x s)) => //.
  by move=> k x _ Hx; apply: reduced_mulF.
move=> k hk Gk Hk HIk _.
have Hx : reduced (entry Gk i k) by apply: (wfGrid_reduced (Inv_wfGrid HIk)).
have [hk' [E HI' HF']] := putCell_spec HIk Hi Hk (reduced_mulF Hx Hs).
exists hk'; split => //.
by rewrite (bindE _ (Inv_get HIk Hi Hk)) multiply_ok.
Qed.

Lemma addRowMultiple_spec lo hi h M G i j s :
  Inv lo hi h M G -> i < rows M -> j < rows M -> i != j -> reduced s ->
  exists h',
    [/\ addRowMultiple M i j s h = Ok (tt, h'),
        Inv lo hi h' M (gaddmul (cols M) G i j s)
      & frame lo hi h h'].
Proof.
move=> HI Hi Hj Hij Hs.
have -> : addRowMultiple M i j s h
          = forEach (iota 0 (cols M)) (fun k =>
              x <-- get M i k ;; y <-- get M j k ;;
              p <-- lift (multiply y s) ;; s' <-- lift (add x p) ;;
              putCell M i k s') h
  by [].
have HG := Inv_wfGrid HI.
apply: (rowLoop_spec (f := fun k x => addF x (mulF (entry G j k) s))) => //.
  move=> k x Hk Hx; apply: reduced_addF => //; apply: reduced_mulF => //.
  exact: (wfGrid_reduced HG).
move=> k hk Gk Hk HIk Hrows.
have Hx : reduced (entry Gk i k) by apply: (wfGrid_reduced (Inv_wfGrid HIk)).
have Ey : entry Gk j k = entry G j k by rewrite /entry Hrows // eq_sym.
have Hy : reduced (entry G j k) by apply: (wfGrid_reduced HG).
have Hp := reduced_mulF Hy Hs.
have [hk' [E HI' HF']] := putCell_spec HIk Hi Hk (reduced_addF Hx Hp).
exists hk'; split => //.
rewrite (bindE _ (Inv_get HIk Hi Hk)) (bindE _ (Inv_get HIk Hj Hk)) Ey.
by rewrite multiply_ok //= /bind /= add_ok.
Qed.

Lemma uniq_swap (s : seq nat) i j :
  uniq s -> i < size s -> j < size s ->
  uniq (set_nth 0 (set_nth 0 s i (nth 0 s j)) j (nth 0 s i)).
Proof.
move=> HU Hi Hj.
have Hsz : size (set_nth 0 (set_nth 0 s i (nth 0 s j)) j (nth 0 s i)) = size s.
  by rewrite !size_set_nth (maxn_idPr Hi) (maxn_idPr Hj).
pose sw k := if k == j then i else if k == i then j else k.
have Hnth k : nth 0 (set_nth 0 (set_nth 0 s i (nth 0 s j)) j (nth 0 s i)) k
              = nth 0 s (sw k).
  rewrite /sw nth_set_nth /=; case: (k =P j) => // _.
  by rewrite nth_set_nth /=; case: (k =P i).
have Hsw k : k < size s -> sw k < size s.
  by rewrite /sw; case: eqP => // _; case: eqP.
apply/(uniqP 0) => a b; rewrite !inE Hsz => Ha Hb; rewrite !Hnth => E.
have := nth_uniq 0 (Hsw _ Ha) (Hsw _ Hb) HU; rewrite E eqxx /sw => /esym/eqP.
case: (a =P j) => [->|/eqP Haj]; case: (b =P j) => [->|/eqP Hbj] //.
- by case: (b =P i) => [-> //|/eqP Hbi] E'; rewrite E' eqxx in Hbi.
- by case: (a =P i) => [-> //|/eqP Hai] E'; rewrite -E' eqxx in Hai.
- case: (a =P i) => [->|/eqP Hai]; case: (b =P i) => [->|/eqP Hbi] //.
  + by move=> E'; rewrite -E' eqxx in Hbj.
  + by move=> E'; rewrite E' eqxx in Haj.
Qed.

Lemma swapRows_spec lo hi h M G i j :
  Inv lo hi h M G -> i < rows M -> j < rows M ->
  exists h',
    [/\ swapRows M i j h = Ok (tt, h'),
        Inv lo hi h' M (gswap G i j)
      & frame lo hi h h'].
Proof.
move=> [HM HW HG] Hi Hj; have HR := wfMatrix_readable HM.
have HD := readable_data HR; have Hsz := wfMatrix_rows HM.
set ls := rowsOf h (data M) in Hsz.
set ls' := set_nth 0 (set_nth 0 ls i (nth 0 ls j)) j (nth 0 ls i).
exists (set_nth dflt h (data M) (DataArray ls')).
set h' := set_nth _ _ _ _.
have Hrows : rowsOf h' (data M) = ls'.
  by rewrite /rowsOf /h' nth_set_nth /= eqxx.
have Hsz' : size ls' = size ls.
  by rewrite !size_set_nth Hsz (maxn_idPr Hi) (maxn_idPr Hj).
have Hmem r : r \in ls' -> r \in ls.
  move=> /(nthP 0) [k]; rewrite Hsz' => Hk <-.
  rewrite /ls' nth_set_nth /=; case: (k =P j) => _.
    by apply: mem_nth; rewrite Hsz.
  rewrite nth_set_nth /=; case: (k =P i) => _; apply: mem_nth => //.
  by rewrite Hsz.
have Hcells r : r \in ls -> cellsOf h' r = cellsOf h r.
  case/andP: HR => _ /allP HRs /HRs Hrow.
  by rewrite /cellsOf /h' nth_set_nth /= (negbTE (row_neq_data Hrow HD)).
have Hsize : size h' = size h by rewrite size_write ?(isDataAt_lt HD).
have Hgrid : gridOf h' M = gswap (gridOf h M) i j.
  rewrite /gridOf Hrows -/ls /gswap; apply: (@eq_from_nth _ [::]).
    by rewrite size_map Hsz' !size_set_nth !size_map Hsz (maxn_idPr Hi)
               (maxn_idPr Hj).
  move=> k; rewrite size_map Hsz' => Hk.
  have Hkin : nth 0 ls' k \in ls by apply: Hmem; apply: mem_nth; rewrite Hsz'.
  rewrite (nth_map 0) ?Hsz' // (Hcells _ Hkin).
  rewrite /ls' nth_set_nth /= [in RHS]nth_set_nth /=.
  case: (k =P j) => _; first by rewrite (nth_map 0) ?Hsz.
  rewrite nth_set_nth /= [in RHS]nth_set_nth /=.
  by case: (k =P i) => _; rewrite (nth_map 0) // ?Hsz.
split.
- rewrite /swapRows (bindE _ (readData_ok HD)) -/ls Hsz Hi Hj /=.
  by rewrite write_ok ?(isDataAt_lt HD).
- split.
  + apply/and3P; split.
    * rewrite /readable Hrows; apply/andP; split.
        by rewrite /isDataAt Hsize (isDataAt_lt HD) /h' nth_set_nth /= eqxx.
      case/andP: (HR) => _ /allP HRs; apply/allP => r Hr.
      have Hrow := HRs r (Hmem r Hr).
      rewrite /isRowAt Hsize (isRowAt_lt Hrow) /h' nth_set_nth /=.
      rewrite (negbTE (row_neq_data Hrow HD)).
      by case/andP: Hrow.
    * by rewrite Hrows; apply: uniq_swap; rewrite ?Hsz // (wfMatrix_uniq HM).
    * by rewrite Hgrid; apply: wfGrid_gswap => //; apply: wfMatrix_grid.
  + case/and3P: HW => Hs Hd /allP Hr; rewrite /within Hrows Hd Hsize Hs /=.
    by apply/allP => r /Hmem /Hr.
  + by rewrite Hgrid HG.
- apply: frame_write; last exact: isDataAt_lt.
  by case/and3P: HW.
Qed.

Lemma clone_spec h M :
  wfMatrix h M ->
  exists M' h',
    [/\ clone M h = Ok (M', h'), extends h h',
        Inv (size h) (size h') h' M' (gridOf h M),
        rows M' = rows M & cols M' = cols M].
Proof.
move=> HM; have HR := wfMatrix_readable HM; have HD := readable_data HR.
set ls := rowsOf h (data M).
set rowObjs := [seq RowArray (cellsOf h r) | r <- ls].
set newRefs := iota (size h) (size ls).
set h' := h ++ rowObjs ++ [:: DataArray newRefs].
exists (MkMatrix (size h + size ls) (rows M) (cols M)), h'.
have Ealloc : mapM (fun r => cells <-- readRow r ;; alloc (RowArray cells))
                ls h = Ok (newRefs, h ++ rowObjs).
  have := @mapM_alloc _ 0 readRow (cellsOf h) ls h _ [::].
  rewrite !cats0 => -> // k t Hk.
  have Hrow := readable_row HR Hk.
  have Hrow' : isRowAt (h ++ t) (nth 0 ls k).
    case/andP: Hrow => Hlt Hrow; rewrite /isRowAt size_cat nth_cat Hlt Hrow.
    by rewrite (leq_trans Hlt) // leq_addr.
  rewrite readRow_ok // /cellsOf nth_cat.
  by case/andP: Hrow => ->.
have Hsz : size h' = (size h + size ls).+1.
  by rewrite /h' !size_cat size_map /= addn1 addnS.
have Hd' : nth dflt h' (size h + size ls) = DataArray newRefs.
  rewrite /h' nth_cat ltnNge leq_addr /= addKn nth_cat size_map ltnn subnn.
  by [].
have Hrow' k : k < size ls ->
    nth dflt h' (size h + k) = RowArray (cellsOf h (nth 0 ls k)).
  move=> Hk; rewrite /h' nth_cat ltnNge leq_addr /= addKn nth_cat size_map Hk.
  by rewrite (nth_map 0).
have Hrows : rowsOf h' (size h + size ls) = newRefs by rewrite /rowsOf Hd'.
have Hgrid : [seq cellsOf h' r | r <- newRefs] = gridOf h M.
  apply: (@eq_from_nth _ [::]); first by rewrite !size_map size_iota.
  move=> k; rewrite size_map size_iota => Hk.
  rewrite (nth_map 0) ?size_iota // nth_iota // /cellsOf Hrow' //.
  by rewrite /gridOf (nth_map 0).
split => //.
- by rewrite /clone (bindE _ (readData_ok HD)) (bindE _ Ealloc) /alloc /bind
            /= /ret size_cat size_map -cats1 -catA.
- exact: extends_cat.
- split => /=.
  + apply/and3P; split => /=.
    * rewrite /readable /= Hrows; apply/andP; split.
        by rewrite /isDataAt Hsz ltnSn Hd'.
      apply/allP => r; rewrite mem_iota => /andP [Hlo Hhi].
      rewrite /isRowAt Hsz ltnS (ltnW Hhi) /=.
      have Hk : r - size h < size ls by rewrite ltn_subLR.
      by rewrite -(subnKC Hlo) Hrow'.
    * by rewrite Hrows iota_uniq.
    * by rewrite /gridOf /= Hrows Hgrid; apply: wfMatrix_grid.
  + rewrite /within /= Hrows leqnn leq_addr Hsz ltnSn /=.
    apply/allP => r; rewrite mem_iota => /andP [-> Hhi] /=.
    exact: ltnW.
  + by rewrite /gridOf /= Hrows.
Qed.

End MatrixMethods.

(** * computeRREF on the heap computes [prref] *)

Section RrefSimulation.

Variables (track : bool) (lo hi : nat) (m : Matrix).

Lemma within_weaken lo1 hi1 lo2 hi2 h M :
  within lo1 hi1 h M -> lo2 <= lo1 -> hi1 <= hi2 -> hi2 <= size h ->
  within lo2 hi2 h M.
Proof.
case/and3P => _ /andP [Hd1 Hd2] /allP Hr Hlo Hhi Hs.
rewrite /within Hs (leq_trans Hlo Hd1) (leq_trans Hd2 Hhi) /=.
apply/allP => r /Hr /andP [H1 H2].
by rewrite (leq_trans Hlo H1) (leq_trans H2 Hhi).
Qed.

Lemma Inv_hi h G : Inv lo hi h m G -> hi <= size h.
Proof. by case=> _ /and3P []. Qed.

Lemma Inv_extends h h' G : extends h h' -> Inv lo hi h m G -> Inv lo hi h' m G.
Proof.
move=> He [HM HW HG]; have HR := wfMatrix_readable HM; split.
- exact: extends_wfMatrix HM.
- exact: extends_within HW.
- by rewrite (extends_gridOf He HR).
Qed.

Lemma opWithin_frame h h' o :
  frame lo hi h h' -> opWithin hi h o ->
  opWithin hi h' o /\ readOp h' o = readOp h o.
Proof.
move=> Hf; rewrite /opWithin /readOp.
case: (matrixAfter o) => [A|]; last by rewrite andbF.
case/andP => HB HA.
have HaB : apart lo hi h (matrixBefore o).
  by apply: within_apart HB _; rewrite leqnn.
have HaA : apart lo hi h A by apply: within_apart HA _; rewrite leqnn.
rewrite (frame_within Hf HB) (frame_within Hf HA).
by rewrite (frame_gridOf Hf HaB) (frame_gridOf Hf HaA).
Qed.

Lemma ops_frame h h' l :
  frame lo hi h h' -> all (opWithin hi h) l ->
  all (opWithin hi h') l /\ [seq readOp h' o | o <- l] = [seq readOp h o | o <- l].
Proof.
move=> Hf; elim: l => [|o l IH] //= /andP [Ho Hl].
have [-> ->] := opWithin_frame Hf Ho.
by have [-> ->] := IH Hl.
Qed.

Lemma set_nth_rcons_last {T} (x0 : T) (l : seq T) a b :
  set_nth x0 (rcons l a) (size l) b = rcons l b.
Proof. by elim: l => //= x l ->. Qed.

Lemma tracked_bind {B} (record : HM (option (seq Operation)))
    (mut : HM unit) (update : option (seq Operation) -> HM (option (seq Operation)))
    (K : option (seq Operation) -> HM B) h :
  (o <-- record ;; mut ;;; o2 <-- update o ;; K o2) h
  = (o2 <-- (o <-- record ;; mut ;;; update o) ;; K o2) h.
Proof.
rewrite /bind; case: (record h) => [[o h1]|] //.
by case: (mut h1) => [[[] h2]|].
Qed.

(** A recorded mutation: snapshot, mutate, snapshot. *)
Lemma tracked_spec h G G' ty ps (mut : HM unit) ops log :
  Inv lo hi h m G -> logRel track hi h ops log ->
  (forall h1, Inv lo hi h1 m G ->
     exists h2, [/\ mut h1 = Ok (tt, h2), Inv lo hi h2 m G'
                  & frame lo hi h1 h2]) ->
  exists ops' h',
    [/\ (o <-- recordOperation track m ty ps ops ;; mut ;;;
         updateLastOperation track m o) h = Ok (ops', h'),
        Inv lo hi h' m G', frame lo hi h h'
      & logRel track hi h' ops' (plog track log ty ps G G')].
Proof.
move=> HI HL Hmut; rewrite /recordOperation /updateLastOperation /plog.
move: HL; rewrite /logRel; case: track => /=.
  move=> [l [-> Hall Hlog]].
  have [HM HW HG] := HI.
  have [B [h1 [EB He1 HIB _ _]]] := clone_spec HM.
  have HI1 := Inv_extends He1 HI.
  have [h2 [E2 HI2 Hf2]] := Hmut h1 HI1.
  have [HM2 HW2 HG2] := HI2.
  have [A [h3 [EA He3 HIA _ _]]] := clone_spec HM2.
  have HI3 := Inv_extends He3 HI2.
  have Hf1 := extends_frame lo hi He1.
  have Hf3 := extends_frame lo hi He3.
  have Hf13 := frame_trans Hf2 Hf3.
  set op := MkOperation ty ps B None.
  set op' := MkOperation ty ps B (Some A).
  exists (Some (rcons l op')), h3; split => //.
  - rewrite (bindE _ (bindE _ EB)) /= (bindE _ E2) size_rcons /=.
    rewrite subn1 /= nth_rcons ltnn eqxx (bindE _ EA) /=.
    by rewrite /ret set_nth_rcons_last.
  - exact: frame_trans Hf1 Hf13.
  - exists (rcons l op'); split => //.
    + rewrite all_rcons; apply/andP; split; last first.
        by case: (ops_frame (frame_trans Hf1 Hf13) Hall).
      have HB1 : within hi (size h1) h1 B.
        case: HIB => _ HWB _; apply: within_weaken HWB _ _ _ => //.
        exact: Inv_hi HI.
      rewrite /opWithin /= (frame_within Hf13 HB1).
      case: HIA => _ HWA _; apply: within_weaken HWA _ _ _ => //.
      exact: Inv_hi HI2.
    + rewrite map_rcons -Hlog; congr rcons.
        by case: (ops_frame (frame_trans Hf1 Hf13) Hall).
      rewrite /readOp /=; congr MkPOp.
        have HB1 : within hi (size h1) h1 B.
          case: HIB => _ HWB _; apply: within_weaken HWB _ _ _ => //.
          exact: Inv_hi HI.
        have HaB : apart lo hi h1 B.
          by apply: within_apart HB1 _; rewrite leqnn.
        by rewrite (frame_gridOf Hf13 HaB) -HG; case: HIB.
      by rewrite -HG2; case: HIA.
move=> [-> ->].
have [h2 [E2 HI2 Hf2]] := Hmut h HI.
by exists None, h2; split => //; rewrite /bind /= E2.
Qed.

Lemma scanPivot_spec h col scanRows p mx :
  wfMatrix h m -> col < cols m -> all (fun r => r < rows m) scanRows ->
  scanPivot m col scanRows p mx h
  = Ok (pscan (gridOf h m) col scanRows p mx, h).
Proof.
move=> HM Hc; elim: scanRows p mx => [|r rs IH] p mx //= /andP [Hr Hrs].
rewrite (bindE _ (get_ok HM Hr Hc)) /absNum.
by case: Qlt_bool; rewrite IH.
Qed.

Lemma findPivot_spec h cur col :
  wfMatrix h m -> cur < rows m -> col < cols m ->
  findPivot m cur col h = Ok (pfindPivot (rows m) (gridOf h m) cur col, h).
Proof.
move=> HM Hcur Hc; rewrite /findPivot (bindE _ (get_ok HM Hcur Hc)).
rewrite scanPivot_spec //; apply/allP => r; rewrite mem_iota.
by rewrite subnKC // => /andP [].
Qed.

Lemma pscan_mem G col scanRows p mx :
  pscan G col scanRows p mx \in p :: scanRows.
Proof.
elim: scanRows p mx => [|r rs IH] p mx /=; first by rewrite inE.
case: Qlt_bool; move: (IH r (absNum (entry G r col))) (IH p mx);
  rewrite !inE => H1 H2.
  by rewrite H1 orbT.
by case/orP: H2 => -> //; rewrite !orbT.
Qed.

Lemma pfindPivot_bound rws G cur col :
  cur < rws -> cur <= pfindPivot rws G cur col < rws.
Proof.
move=> Hcur; have := pscan_mem G col (iota cur.+1 (rws - cur.+1)) cur
                       (absNum (entry G cur col)).
rewrite -/(pfindPivot rws G cur col) inE mem_iota subnKC //.
by case/orP => [/eqP ->|/andP [/ltnW -> ->]] //; rewrite leqnn.
Qed.

Lemma eliminate_spec col cur elimRows :
  cur < rows m -> col < cols m -> all (fun r => r < rows m) elimRows ->
  forall h G ops log,
    Inv lo hi h m G -> logRel track hi h ops log ->
    exists ops' h',
      [/\ eliminate track m col cur elimRows ops h = Ok (ops', h'),
          Inv lo hi h' m (pelim track (cols m) col cur elimRows G log).1,
          frame lo hi h h'
        & logRel track hi h' ops'
            (pelim track (cols m) col cur elimRows G log).2].
Proof.
move=> Hcur Hc; elim: elimRows => [|row rs IH] /=.
  by move=> _ h G ops log HI HL; exists ops, h; split => //; apply: frame_refl.
move=> /andP [Hrow Hrs] h G ops log HI HL.
case: (row =P cur) => [_|/eqP Hne] /=; first exact: IH.
rewrite (bindE _ (Inv_get HI Hrow Hc)).
case Hz: (isZero (entry G row col)) => /=; first exact: IH.
rewrite (bindE _ (Inv_get HI Hrow Hc)).
have Hx : reduced (entry G row col).
  exact: (wfGrid_reduced (Inv_wfGrid HI)).
rewrite (bindE _ (lift_ok _ (negate_ok Hx))).
rewrite tracked_bind.
set factor := negF (entry G row col).
have Hfac : reduced factor by apply: reduced_negF.
have [ops1 [h1 [E1 HI1 Hf1 HL1]]] :=
  tracked_spec addOp (AddParams row cur factor) HI HL
    (fun h1 HI1 => addRowMultiple_spec HI1 Hrow Hcur Hne Hfac).
have [ops2 [h2 [E2 HI2 Hf2 HL2]]] := IH Hrs h1 _ ops1 _ HI1 HL1.
exists ops2, h2; split => //; last exact: frame_trans Hf2.
by rewrite (bindE _ E1).
Qed.

Lemma Fraction_new_one : Fraction_new 1 1 = Ok oneF.
Proof. by []. Qed.

Lemma rrefStep_spec h col st pst :
  StRel track lo hi h m st pst -> pcur pst < rows m -> col < cols m ->
  exists st' h',
    [/\ rrefStep track m col st h = Ok (st', h'),
        StRel track lo hi h' m st' (pstep track (rows m) (cols m) col pst)
      & frame lo hi h h'].
Proof.
move=> [HI Hpiv Hcur HL] Hlt Hc; rewrite /rrefStep /pstep Hcur.
set G := pgrid pst; set cur := pcur pst.
have [HM HW HG] := HI; have HGw := Inv_wfGrid HI.
rewrite (bindE _ (findPivot_spec HM Hlt Hc)) HG.
set p := pfindPivot (rows m) G cur col.
have /andP [Hp1 Hp2] := pfindPivot_bound G col Hlt.
rewrite (bindE _ (Inv_get HI Hp2 Hc)).
case Hz: (isZero (entry G p col)).
  by exists st, h; split; [by [] | by split | exact: frame_refl].
(* the swap *)
set G1 := if p != cur then gswap G cur p else G.
set log1 := if p != cur
            then plog track (plogs pst) swap (SwapParams cur p) G G1
            else plogs pst.
have [ops1 [h1 [E1 HI1 Hf1 HL1]]] :
  exists ops1 h1,
    [/\ (if p != cur then
           o <-- recordOperation track m swap (SwapParams cur p)
                   (operations st) ;;
           swapRows m cur p ;;; updateLastOperation track m o
         else ret (operations st)) h = Ok (ops1, h1),
        Inv lo hi h1 m G1, frame lo hi h h1 & logRel track hi h1 ops1 log1].
  rewrite /log1 /G1; case: (p =P cur) => [_|_] /=.
    by exists (operations st), h; split => //; apply: frame_refl.
  exact: (tracked_spec swap (SwapParams cur p) HI HL
            (fun h1 HI1 => swapRows_spec HI1 Hlt Hp2)).
rewrite (bindE _ E1).
have HG1 := Inv_wfGrid HI1.
rewrite (bindE _ (Inv_get HI1 Hlt Hc)).
set pivot := entry G1 cur col.
have Epiv : pivot = entry G p col.
  rewrite /pivot /G1; case: (p =P cur) => [->|_] //=.
  by rewrite (entry_gswap _ _ HGw) // eqxx; case: (cur =P p) => [<-|].
have Hpr : reduced pivot by apply: (wfGrid_reduced HG1).
have Hpz : isZero pivot = false by rewrite Epiv.
rewrite (bindE _ (lift_ok _ Fraction_new_one)).
(* the scaling *)
set scalar := divF oneF pivot.
have Hsr : reduced scalar by apply: reduced_divF.
set G2 := if ~~ equals pivot oneF then gscale (cols m) G1 cur scalar else G1.
set log2 := if ~~ equals pivot oneF
            then plog track log1 scale (ScaleParams cur scalar) G1 G2
            else log1.
have [ops2 [h2 [E2 HI2 Hf2 HL2]]] :
  exists ops2 h2,
    [/\ (if ~~ equals pivot oneF then
           scalar <-- lift (divide oneF pivot) ;;
           o <-- recordOperation track m scale (ScaleParams cur scalar) ops1 ;;
           multiplyRow m cur scalar ;;; updateLastOperation track m o
         else ret ops1) h1 = Ok (ops2, h2),
        Inv lo hi h2 m G2, frame lo hi h1 h2 & logRel track hi h2 ops2 log2].
  rewrite /log2 /G2; case: (equals pivot oneF) => /=.
    by exists ops1, h1; split => //; apply: frame_refl.
  have Hone : reduced oneF by [].
  rewrite (bindE _ (lift_ok _ (divide_ok Hone Hpr Hpz))).
  exact: (tracked_spec scale (ScaleParams cur scalar) HI1 HL1
            (fun h' HI' => multiplyRow_spec HI' Hlt Hsr)).
rewrite (bindE _ E2).
(* the elimination *)
have Hall : all (fun r => r < rows m) (iota 0 (rows m)).
  by apply/allP => r; rewrite mem_iota add0n.
have [ops3 [h3 [E3 HI3 Hf3 HL3]]] :=
  eliminate_spec Hlt Hc Hall HI2 HL2.
rewrite (bindE _ E3) /=.
eexists _, h3; split; first by [].
  by split => //=; rewrite Hpiv.
exact: frame_trans (frame_trans Hf1 Hf2) Hf3.
Qed.

Lemma rrefLoop_spec columns :
  all (fun c => c < cols m) columns ->
  forall h st pst,
    StRel track lo hi h m st pst ->
    exists st' h',
      [/\ rrefLoop track m columns st h = Ok (st', h'),
          StRel track lo hi h' m st'
            (ploop track (rows m) (cols m) columns pst)
        & frame lo hi h h'].
Proof.
elim: columns => [|col cs IH] /=.
  by move=> _ h st pst HS; exists st, h; split => //; apply: frame_refl.
move=> /andP [Hc Hcs] h st pst HS.
have Ecur : currentRow st = pcur pst by case: HS.
rewrite Ecur; case: ltnP => Hlt; last first.
  by exists st, h; split => //; apply: frame_refl.
have [st1 [h1 [E1 HS1 Hf1]]] := rrefStep_spec HS Hlt Hc.
have [st2 [h2 [E2 HS2 Hf2]]] := IH Hcs h1 st1 _ HS1.
exists st2, h2; split => //; last exact: frame_trans Hf2.
by rewrite (bindE _ E1).
Qed.

End RrefSimulation.

Lemma logRel_init track hi h :
  logRel track hi h (if track then Some [::] else None) [::].
Proof. by rewrite /logRel; case: track => //; exists [::]. Qed.

(** The specification of [computeRREF]: it runs to completion on every well
    formed matrix, leaves the caller's heap as it was, and returns a fresh
    matrix holding the grid computed by [prref]. *)
Lemma computeRREF_spec (track : bool) h M :
  wfMatrix h M ->
  let P := prref track (rows M) (cols M) (gridOf h M) in
  exists res h' hi,
    [/\ computeRREF M track h = Ok (res, h'), extends h h'
      & [/\ Inv (size h) hi h' (rref res) (pgrid P),
            rrefPivots res = ppivots P,
            logRel track hi h' (rrefOperations res) (plogs P),
            rows (rref res) = rows M
          & cols (rref res) = cols M]].
Proof.
move=> HM P.
have [m [h1 [Ec He1 HI1 Hr Hcl]]] := clone_spec HM.
pose st0 := MkRrefState [::] (if track then Some [::] else None) 0.
pose pst0 := MkPState (gridOf h M) [::] [::] 0.
have HS0 : StRel track (size h) (size h1) h1 m st0 pst0.
  by split => //; apply: logRel_init.
have Hall : all (fun c => c < cols m) (iota 0 (cols m)).
  by apply/allP => r; rewrite mem_iota add0n.
have [st' [h' [E HS' Hf]]] := rrefLoop_spec Hall HS0.
move: HS'; rewrite Hr Hcl -/(prref _ _ _ _) -/P => -[HI' Hp Hcur HL'].
exists (MkRrefResult m (pivots st') (operations st')), h', (size h1).
split => //=.
- by rewrite /computeRREF (bindE _ Ec) (bindE _ E).
- case: He1 Hf => S1 H1 [S2 H2]; split; first exact: leq_trans S2.
  move=> l Hl; rewrite H2 ?H1 //; first exact: leq_trans S1.
  by rewrite negb_and -ltnNge Hl.
Qed.

(** * The value of a grid, and the row operations on values *)

Section Canonical.

Local Open Scope Z_scope.

Lemma reduced_eq_cross (n1 d1 n2 d2 : Z) :
  0 < d1 -> 0 < d2 -> Z.gcd n1 d1 = 1 -> Z.gcd n2 d2 = 1 ->
  n1 * d2 = n2 * d1 -> n1 = n2 /\ d1 = d2.
Proof.
move=> H1 H2 G1 G2 E.
have D12 : (d1 | d2).
  apply: (Z.gauss d1 n1); last by rewrite Z.gcd_comm.
  by exists n2; rewrite E.
have D21 : (d2 | d1).
  apply: (Z.gauss d2 n2); last by rewrite Z.gcd_comm.
  by exists n1; rewrite -E.
have Ed : d1 = d2 by apply: Z.divide_antisym_nonneg => //; lia.
by split => //; subst d2; nia.
Qed.

End Canonical.

Section Values.

Lemma toRat_inj x y : reduced x -> reduced y -> toRat x = toRat y -> x = y.
Proof.
case: x y => [n1 d1] [n2 d2] Hx Hy.
have Dx := ratz_den Hx; have Dy := ratz_den Hy.
rewrite /toRat /= => /eqP; rewrite eqr_div // -!ratzM ratz_eq.
move/Z.eqb_spec => E.
have [] := @reduced_eq_cross n1 d1 n2 d2 (reduced_den Hx) (reduced_den Hy) _ _ E.
- by rewrite -Z.gcd_abs_l; apply: (reduced_gcd Hx).
- by rewrite -Z.gcd_abs_l; apply: (reduced_gcd Hy).
- by move=> -> ->.
Qed.

Lemma toRat1_eq x : reduced x -> toRat x = 1%R -> x = oneF.
Proof. by move=> Hx E; apply: toRat_inj => //; rewrite toRat_oneF. Qed.

Variables (m n : nat).

Lemma V_gswap G i j a b :
  wfGrid m n G -> i < m -> j < m ->
  V (gswap G i j) a b
  = V G (if a == j then i else if a == i then j else a) b.
Proof. by move=> HG Hi Hj; rewrite /V (entry_gswap _ _ HG). Qed.

Lemma V_gscale G i s a b :
  wfGrid m n G -> i < m -> reduced s -> a < m -> b < n ->
  V (gscale n G i s) a b = if a == i then (V G i b * toRat s)%R else V G a b.
Proof.
move=> HG Hi Hs Ha Hb; rewrite /V (entry_gscale _ _ _ HG) // Hb andbT.
case: eqP => // _; rewrite toRat_mulF //.
exact: (wfGrid_reduced HG).
Qed.

Lemma V_gaddmul G i j s a b :
  wfGrid m n G -> i < m -> j < m -> reduced s -> a < m -> b < n ->
  V (gaddmul n G i j s) a b
  = if a == i then (V G i b + V G j b * toRat s)%R else V G a b.
Proof.
move=> HG Hi Hj Hs Ha Hb; rewrite /V (entry_gaddmul _ _ _ _ HG) // Hb andbT.
case: eqP => // _.
have Hx := wfGrid_reduced HG Hi Hb; have Hy := wfGrid_reduced HG Hj Hb.
by rewrite toRat_addF ?toRat_mulF //; apply: reduced_mulF.
Qed.

Lemma isZero_V G i j :
  wfGrid m n G -> i < m -> j < n -> isZero (entry G i j) = (V G i j == 0%R).
Proof. by move=> HG Hi Hj; rewrite isZero_toRat //; apply: (wfGrid_reduced HG). Qed.

(** The elimination loop: every listed row other than [cur] loses its
    multiple of row [cur]. *)
Lemma pelim_spec track col cur elimRows G log :
  wfGrid m n G -> cur < m -> col < n ->
  uniq elimRows -> all (fun r => r < m) elimRows ->
  let G' := (pelim track n col cur elimRows G log).1 in
  wfGrid m n G' /\
  forall i j, i < m -> j < n ->
    V G' i j = if (i \in elimRows) && (i != cur)
               then (V G i j - V G i col * V G cur j)%R
               else V G i j.
Proof.
move=> HG Hcur Hcol.
elim: elimRows G log HG => [|row rs IH] G log HG /=; first by [].
move=> /andP [Hnin Hu] /andP [Hrow Hrs].
case Hc: ((row != cur) && ~~ isZero (entry G row col)); last first.
  have [HG' HV] := IH G log HG Hu Hrs; split => // i j Hi Hj.
  rewrite HV // inE; case: (i =P row) => [->|_] //=.
  rewrite (negbTE Hnin) /=.
  move: Hc; case: (row =P cur) => //= _ /negbFE.
  by rewrite (isZero_V HG) // => /eqP ->; rewrite mul0r subr0.
case/andP: Hc => Hne Hnz.
have Hx := wfGrid_reduced HG Hrow Hcol.
have Hf := reduced_negF Hx.
have HG1 : wfGrid m n (gaddmul n G row cur (negF (entry G row col))).
  exact: wfGrid_gaddmul.
have [HG' HV] :=
  IH _ (plog track log addOp (AddParams row cur (negF (entry G row col))) G
          (gaddmul n G row cur (negF (entry G row col))))
     HG1 Hu Hrs.
split => // i j Hi Hj.
rewrite HV // inE !(V_gaddmul HG) // toRat_negF // -/(V G row col).
rewrite [cur == row]eq_sym (negbTE Hne).
case: (i =P row) => [->|/eqP Hir] /=.
  by rewrite (negbTE Hnin) Hne /= mulrN mulrC.
by [].
Qed.

End Values.

(** * The choice of the pivot *)

Section Pivot.

Lemma Qlt_bool_true a b : Qlt_bool a b = true -> (a < b)%Q.
Proof.
unfold Qlt_bool; intros H; apply Qnot_le_lt; intros Hle.
apply Qle_bool_iff in Hle; rewrite Hle in H; discriminate.
Qed.

Lemma Qlt_bool_false a b : Qlt_bool a b = false -> (b <= a)%Q.
Proof.
unfold Qlt_bool; intros H; apply Qle_bool_iff.
destruct (Qle_bool b a); [reflexivity | discriminate].
Qed.

Lemma toNumber_zero x :
  reduced x -> (toNumber x == 0)%Q <-> numerator x = 0%Z.
Proof.
destruct x as [n d]; intros Hx; pose proof (reduced_den Hx) as Hd.
unfold toNumber; simpl in *; split; intros E.
- destruct (Qmult_integral _ _ E) as [E'|E'].
  + unfold Qeq in E'; simpl in E'; lia.
  + exfalso; assert (Hnz : ~ (inject_Z d == 0)%Q).
    { unfold Qeq; simpl; lia. }
    apply Hnz; rewrite <- (Qinv_involutive (inject_Z d)), E'; reflexivity.
- subst n; unfold Qdiv; apply Qmult_0_l.
Qed.

Lemma absNum_isZero x : reduced x -> isZero x -> (absNum x == 0)%Q.
Proof.
intros Hx Hz; unfold absNum.
assert (E : (toNumber x == 0)%Q).
{ apply toNumber_zero; [exact Hx | apply Z.eqb_eq; exact Hz]. }
rewrite E; reflexivity.
Qed.

Lemma absNum_le0 x : reduced x -> (absNum x <= 0)%Q -> isZero x.
Proof.
intros Hx Hle; apply Z.eqb_eq, (toNumber_zero Hx).
pose proof (Qabs_nonneg (toNumber x)) as H0.
assert (E : (Qabs (toNumber x) == 0)%Q) by (apply Qle_antisym; assumption).
revert E; apply Qabs_case; intros _ E; [exact E|].
rewrite <- (Qopp_involutive (toNumber x)), E; reflexivity.
Qed.

(** The scan over the rows [a .. a + k), started with the row [p] above
    them: the result is a row of maximal absolute value, and the first
    such row. *)
Lemma pscan_iota G col a k p :
  p < a ->
  let q := pscan G col (iota a k) p (absNum (entry G p col)) in
  [/\ q = p \/ a <= q < a + k,
      (absNum (entry G p col) <= absNum (entry G q col))%Q,
      forall r, a <= r < a + k ->
        (absNum (entry G r col) <= absNum (entry G q col))%Q
    & q <> p ->
      (absNum (entry G p col) < absNum (entry G q col))%Q /\
      forall r, a <= r < q ->
        (absNum (entry G r col) < absNum (entry G q col))%Q].
Proof.
elim: k a p => [|k IH] a p Hpa /=.
  split; [by left | exact: Qle_refl | | by []].
  by move=> r; rewrite addn0; case: ltngtP.
case Hlt: (Qlt_bool _ _).
- have Hpv := Qlt_bool_true Hlt.
  have [Hi Hii Hiii Hiv] := IH a.+1 a (ltnSn a).
  set q := pscan _ _ _ _ _ in Hi Hii Hiii Hiv *.
  have Haq : a <= q < a + k.+1.
    case: Hi => [->|/andP [H1 H2]].
      by rewrite leqnn -addn1 leq_add2l.
    by rewrite (ltnW H1) addnS -addSn.
  have Hqp : q <> p.
    by move=> E; move: Haq Hpa; rewrite E => /andP [H _]; rewrite ltnNge H.
  split => //.
  + by right.
  + exact: Qle_trans (Qlt_le_weak _ _ Hpv) Hii.
  + move=> r; rewrite leq_eqVlt addnS -addSn => /andP [/orP [/eqP <-|H1] H2] //.
    by apply: Hiii; rewrite H1.
  + move=> _; split; first exact: Qlt_le_trans Hpv Hii.
    move=> r; rewrite leq_eqVlt => /andP [/orP [/eqP <-|H1] H2].
      have Hqa : q <> a by move=> E; rewrite E ltnn in H2.
      by case: (Hiv Hqa).
    have Hqa : q <> a.
      by move=> E; move: H1 H2; rewrite E => H1 H2; move: (leq_trans H2 (ltnW H1)); rewrite ltnn.
    by case: (Hiv Hqa) => _; apply; rewrite H1.
- have Hpv := Qlt_bool_false Hlt.
  have [Hi Hii Hiii Hiv] := IH a.+1 p (ltnW Hpa : p < a.+1).
  set q := pscan _ _ _ _ _ in Hi Hii Hiii Hiv *.
  split => //.
  + case: Hi => [->|/andP [H1 H2]]; [by left | right].
    by rewrite (ltnW H1) addnS -addSn.
  + move=> r; rewrite leq_eqVlt addnS -addSn => /andP [/orP [/eqP <-|H1] H2].
      exact: Qle_trans Hpv Hii.
    by apply: Hiii; rewrite H1.
  + move=> Hqp; case: (Hiv Hqp) => H1 H2; split => //.
    move=> r; rewrite leq_eqVlt => /andP [/orP [/eqP <-|H3] H4].
      exact: Qle_lt_trans Hpv H1.
    by apply: H2; rewrite H3.
Qed.

Lemma pfindPivot_max rws G cur col :
  cur < rws ->
  let q := pfindPivot rws G cur col in
  [/\ cur <= q < rws,
      forall r, cur <= r < rws ->
        (absNum (entry G r col) <= absNum (entry G q col))%Q
    & forall r, cur <= r < q ->
        (absNum (entry G r col) < absNum (entry G q col))%Q].
Proof.
move=> Hcur; rewrite /pfindPivot.
have [Hi Hii Hiii Hiv] :=
  @pscan_iota G col cur.+1 (rws - cur.+1) cur (ltnSn cur).
set q := pscan _ _ _ _ _ in Hi Hii Hiii Hiv *.
rewrite subnKC // in Hi Hiii.
have Hq : cur <= q < rws.
  by case: Hi => [->|/andP [/ltnW -> ->]] //; rewrite leqnn.
split => //.
- move=> r; rewrite leq_eqVlt => /andP [/orP [/eqP <-|H1] H2] //.
  by apply: Hiii; rewrite H1.
- move=> r; rewrite leq_eqVlt => /andP [/orP [/eqP <-|H1] H2].
    have Hqc : q <> cur by move=> E; rewrite E ltnn in H2.
    by case: (Hiv Hqc).
  have Hqc : q <> cur.
    by move=> E; move: H1 H2; rewrite E => H1 H2; move: (leq_trans H2 (ltnW H1)); rewrite ltnn.
  by case: (Hiv Hqc) => _; apply; rewrite H1.
Qed.

End Pivot.

(** * One elimination step, on values *)

Section Step.

Variables (track : bool) (m n : nat).

Local Open Scope ring_scope.

(** The grid after a step that found a non-zero pivot in row [p]: row
    [cur] is row [p] divided by the pivot; every other row [i] is the row it
    held after the swap, minus its multiple of the new row [cur]. *)
Lemma pstep_values col pst
    (G := pgrid pst) (cur := pcur pst)
    (p := pfindPivot m G cur col)
    (G' := pgrid (pstep track m n col pst)) :
  wfGrid m n G -> (cur < m)%N -> (col < n)%N ->
  isZero (entry G p col) = false ->
  wfGrid m n G' /\
  forall i j, (i < m)%N -> (j < n)%N ->
    V G' i j =
      if i == cur then V G p j / V G p col
      else let src := if i == p then cur else i in
           V G src j - V G src col * (V G p j / V G p col).
Proof.
move=> HG Hcur Hcol Hz.
have [/andP [Hp1 Hp2] _ _] := pfindPivot_max G col Hcur.
rewrite /G' /pstep -/G -/cur -/p Hz /=.
set G1 := if p != cur then gswap G cur p else G.
have HG1 : wfGrid m n G1.
  by rewrite /G1; case: ifP => // _; apply: wfGrid_gswap.
have HV1 i j : (i < m)%N -> (j < n)%N ->
    V G1 i j = V G (if i == p then cur else if i == cur then p else i) j.
  move=> Hi Hj; rewrite /G1; case: (p =P cur) => [E|_] /=.
    by rewrite E; case: eqP => // ->.
  by rewrite (V_gswap _ _ HG).
set pivot := entry G1 cur col.
have Epiv : toRat pivot = V G p col.
  rewrite -/(V G1 cur col) HV1 // eqxx.
  by case: (cur =P p) => // ->.
have Hpr : reduced pivot by apply: (wfGrid_reduced HG1).
have Hpz : isZero pivot = false.
  by rewrite isZero_toRat // Epiv -(isZero_V HG).
have Hone : reduced oneF by [].
set scalar := divF oneF pivot.
have Hsr : reduced scalar by apply: reduced_divF.
have Es : toRat scalar = (V G p col)^-1.
  by rewrite toRat_divF // toRat_oneF Epiv div1r.
set G2 := if ~~ equals pivot oneF then gscale n G1 cur scalar else G1.
have HG2 : wfGrid m n G2.
  by rewrite /G2; case: ifP => // _; apply: wfGrid_gscale.
have HV2 i j : (i < m)%N -> (j < n)%N ->
    V G2 i j = if i == cur then V G1 cur j / V G p col else V G1 i j.
  move=> Hi Hj; rewrite /G2; case He: (equals pivot oneF) => /=.
    move: He; rewrite equals_oneP // Epiv => /eqP ->.
    by rewrite divr1; case: eqP => // ->.
  by rewrite (V_gscale HG1) // Es.
have Hall : all (fun r => (r < m)%N) (iota 0 m).
  by apply/allP => r; rewrite mem_iota add0n.
set log2 := if ~~ equals pivot oneF then _ else _.
have [HG3 HV3] := pelim_spec track log2 HG2 Hcur Hcol (iota_uniq 0 m) Hall.
split => // i j Hi Hj.
rewrite HV3 // mem_iota add0n Hi /= !HV2 // eqxx !HV1 // eqxx.
have -> : (if cur == p then cur else p) = p by case: eqP.
by case: (i =P cur).
Qed.

End Step.

(** * The invariant of the main loop *)

Section Invariant.

Variables (track : bool) (m n : nat).

Lemma sorted_rcons_ltn (s : seq nat) c :
  sorted ltn s -> all (fun x => x < c) s -> sorted ltn (rcons s c).
Proof.
case: s => [|x s] //= Hp /andP [Hx Hs].
rewrite rcons_path Hp /=.
elim: s x Hx Hs {Hp} => [|y s IH] x Hx //= /andP [Hy Hs].
exact: IH.
Qed.

Lemma RInv_pivot_lt col pst k :
  RInv m n col pst -> k < pcur pst -> nth 0 (ppivots pst) k < col.
Proof.
move=> HR Hk; have /(all_nthP 0) := ri_lt HR; apply.
by rewrite (ri_size HR).
Qed.

Lemma RInv_init G : wfGrid m n G -> RInv m n 0 (MkPState G [::] [::] 0).
Proof. by move=> HG; split. Qed.

Lemma RInv_done col pst :
  RInv m n col pst -> m <= pcur pst -> RInv m n n pst.
Proof.
move=> HR Hm; case: (HR) => Hwf Hcol Hsz Hcur Hs Hlt Hu Hb Hl.
split => //.
- apply/allP => c /(allP Hlt) Hc.
  exact: leq_trans Hc Hcol.
- by move=> i j Hi Him; move: (leq_trans Hm Hi); rewrite leqNgt Him.
Qed.

Lemma pstep_RInv col pst :
  RInv m n col pst -> col < n -> pcur pst < m ->
  RInv m n col.+1 (pstep track m n col pst).
Proof.
move=> HR Hcol Hcur.
have HG := ri_wf HR.
have [/andP [Hp1 Hp2] Hmax _] := pfindPivot_max (pgrid pst) col Hcur.
case Hz: (isZero (entry (pgrid pst) (pfindPivot m (pgrid pst) (pcur pst) col) col)).
  (* the column is zero from the current row on *)
  rewrite /pstep Hz; case: (HR) => _ _ Hsz' Hcur' Hs' Hlt' Hu' Hb' Hl'.
  split => //.
  - apply/allP => c /(allP Hlt') Hc; exact: ltnW.
  - move=> i j Hi Him; rewrite ltnS leq_eqVlt => /orP [/eqP ->|Hj].
      apply/eqP; rewrite -(isZero_V HG) //.
      apply: absNum_le0; first exact: (wfGrid_reduced HG).
      have Hle := Hmax i; rewrite Hi Him in Hle.
      have H0 := absNum_isZero (wfGrid_reduced HG Hp2 Hcol) Hz.
      by rewrite -H0; apply: Hle.
    exact: (ri_below HR).
have [HG' HV] := pstep_values track HG Hcur Hcol Hz.
move: HG' HV; rewrite /pstep Hz /=.
set p := pfindPivot m (pgrid pst) (pcur pst) col in Hp1 Hp2 Hz *.
set G := pgrid pst in HG Hz *; set cur := pcur pst in Hcur Hp1 *.
set G' := (pelim _ _ _ _ _ _ _).1 => HG' HV.
have Hpiv : V G p col != 0%R by rewrite -(isZero_V HG) // Hz.
have Hbelow i j : cur <= i -> i < m -> j < col -> V G i j = 0%R.
  exact: (ri_below HR).
have Hsrc i : cur <= (if i == p then cur else i) \/ i < cur.
  case: eqP => _; first by left; rewrite leqnn.
  by case: (leqP cur i) => H; [left | right].
have Hplt k : k < cur -> nth 0 (ppivots pst) k < col.
  exact: RInv_pivot_lt.
have Hsz := ri_size HR.
split => /=.
- exact: HG'.
- exact: Hcol.
- by rewrite size_rcons Hsz.
- exact: Hcur.
- exact: sorted_rcons_ltn (ri_sorted HR) (ri_lt HR).
- rewrite all_rcons ltnSn /=.
  by apply/allP => c /(allP (ri_lt HR)) Hc; exact: ltnW.
- move=> k i; rewrite ltnS leq_eqVlt nth_rcons Hsz => /orP [/eqP ->|Hk] Hi.
    rewrite ltnn eqxx HV //; case: (i =P cur) => _; first by rewrite divff.
    by rewrite /= divff // mulr1 subrr.
  rewrite Hk; have Hpk := Hplt k Hk; have Hpkn := ltn_trans Hpk Hcol.
  have Hu a : a < m -> V G a (nth 0 (ppivots pst) k) = ((a == k)%:R)%R.
    by move=> Ha; apply: (ri_unit HR).
  have Hkp : (p == k) = false.
    by apply/negbTE; rewrite neq_ltn (leq_trans Hk Hp1) orbT.
  have Hkc : (cur == k) = false by apply/negbTE; rewrite neq_ltn Hk orbT.
  rewrite HV // (Hu p) // Hkp mul0r.
  case: (i =P cur) => [->|_]; first by rewrite Hkc.
  rewrite /= mulr0 subr0; case: (i =P p) => [->|_]; last exact: Hu.
  by rewrite Hu // Hkc Hkp.
- move=> i j Hci Him; have Hic : (i == cur) = false.
    by apply/negbTE; rewrite neq_ltn Hci orbT.
  have Hs : cur <= (if i == p then cur else i).
    by case: eqP => _; [rewrite leqnn | apply: ltnW].
  have Hsm : (if i == p then cur else i) < m by case: eqP.
  rewrite ltnS leq_eqVlt => /orP [/eqP ->|Hj].
    by rewrite HV // Hic /= divff // mulr1 subrr.
  rewrite HV ?(ltn_trans Hj Hcol) // Hic /=.
  by rewrite (Hbelow _ j) // (Hbelow p j) // mul0r mulr0 subr0.
- move=> k j; rewrite ltnS leq_eqVlt nth_rcons Hsz => /orP [/eqP ->|Hk].
    rewrite ltnn eqxx => Hj.
    by rewrite HV ?(ltn_trans Hj Hcol) // eqxx Hbelow // mul0r.
  rewrite Hk => Hj; have Hpk := Hplt k Hk.
  have Hjc := ltn_trans Hj Hpk.
  have Hkm : k < m by apply: ltn_trans Hk Hcur.
  rewrite HV ?(ltn_trans Hjc Hcol) //.
  have -> : (k == cur) = false by apply/negbTE; rewrite neq_ltn Hk.
  have -> : (k == p) = false.
    by apply/negbTE; rewrite neq_ltn (leq_trans Hk Hp1).
  by rewrite /= (ri_lead HR) // (Hbelow p j) // mul0r mulr0 subr0.
Qed.

Lemma ploop_RInv k col pst :
  col + k = n -> RInv m n col pst ->
  RInv m n n (ploop track m n (iota col k) pst).
Proof.
elim: k col pst => [|k IH] col pst /=.
  by rewrite addn0 => ->.
move=> Hn HR; case: ltnP => Hcur; last exact: RInv_done HR Hcur.
apply: IH; first by rewrite addSnnS.
by apply: pstep_RInv => //; rewrite -Hn -addn1 leq_add2l.
Qed.

Lemma prref_RInv G : wfGrid m n G -> RInv m n n (prref track m n G).
Proof.
by move=> HG; apply: (@ploop_RInv n 0) => //; apply: RInv_init.
Qed.

End Invariant.

(** * The transpose of a grid *)

Section Transpose.

Variables (m n : nat).

Local Open Scope ring_scope.

Lemma entry_ptranspose G i j :
  (i < n)%N -> (j < m)%N -> entry (ptranspose m n G) i j = entry G j i.
Proof.
by move=> Hi Hj; rewrite /entry /ptranspose nth_mkseq // nth_mkseq.
Qed.

Lemma wfGrid_ptranspose G : wfGrid m n G -> wfGrid n m (ptranspose m n G).
Proof.
move=> HG; apply: wfGridP.
- by rewrite size_mkseq.
- by move=> i Hi; rewrite nth_mkseq // size_mkseq.
- move=> i Hi; rewrite nth_mkseq //; apply/(all_nthP zeroF) => j.
  rewrite size_mkseq => Hj; rewrite nth_mkseq //.
  exact: (wfGrid_reduced HG).
Qed.

End Transpose.

(** * The space calculator on the heap *)

Section Spaces.

Lemma isZeroRowFrom_spec h M i js :
  wfMatrix h M -> i < rows M -> all (fun j => j < cols M) js ->
  isZeroRowFrom M i js h
  = Ok (all (fun j => isZero (entry (gridOf h M) i j)) js, h).
Proof.
move=> HM Hi; elim: js => [|j js IH] //= /andP [Hj Hjs].
rewrite (bindE _ (get_ok HM Hi Hj)).
by case: (isZero _) => //=; apply: IH.
Qed.

Lemma isZeroRow_spec h M i :
  wfMatrix h M -> i < rows M ->
  isZeroRow M i h = Ok (pisZeroRow (cols M) (gridOf h M) i, h).
Proof.
move=> HM Hi; apply: isZeroRowFrom_spec => //.
by apply/allP => j; rewrite mem_iota add0n.
Qed.

Lemma getNonZeroRowsFrom_spec h M indices :
  wfMatrix h M -> all (fun i => i < rows M) indices ->
  getNonZeroRowsFrom M indices h
  = Ok ([seq nth 0 (rowsOf h (data M)) i
        | i <- [seq i <- indices | ~~ pisZeroRow (cols M) (gridOf h M) i]],
        h).
Proof.
move=> HM; elim: indices => [|i idx IH] //= /andP [Hi Hidx].
rewrite (bindE _ (isZeroRow_spec HM Hi)).
case: (pisZeroRow _ _ _) => /=; first exact: IH.
have Hi' : i < size (rowsOf h (data M)) by rewrite wfMatrix_rows.
rewrite (bindE _ (rowRef_ok (wfMatrix_readable HM) Hi')).
by rewrite (bindE _ (IH Hidx)).
Qed.

Lemma getNonZeroRows_spec h M :
  wfMatrix h M ->
  getNonZeroRows M h
  = Ok ([seq nth 0 (rowsOf h (data M)) i
        | i <- pnonZeroRows (rows M) (cols M) (gridOf h M)], h).
Proof.
move=> HM; apply: getNonZeroRowsFrom_spec => //.
by apply/allP => j; rewrite mem_iota add0n.
Qed.

(** Allocating a matrix: one array per row, then the outer array. *)
Lemma allocMatrix_spec h (C : Grid) m' n' :
  wfGrid m' n' C ->
  let h' := h ++ [seq RowArray c | c <- C]
              ++ [:: DataArray (iota (size h) (size C))] in
  let M' := MkMatrix (size h + size C) m' n' in
  [/\ extends h h', wfMatrix h' M' & gridOf h' M' = C].
Proof.
move=> HC h' M'.
have Hsz : size h' = (size h + size C).+1.
  by rewrite /h' !size_cat size_map /= addn1 addnS.
have Hd' : nth dflt h' (size h + size C) = DataArray (iota (size h) (size C)).
  rewrite /h' nth_cat ltnNge leq_addr /= addKn nth_cat size_map ltnn subnn.
  by [].
have Hrow' k : k < size C ->
    nth dflt h' (size h + k) = RowArray (nth [::] C k).
  move=> Hk; rewrite /h' nth_cat ltnNge leq_addr /= addKn nth_cat size_map Hk.
  by rewrite (nth_map [::]).
have Hrows : rowsOf h' (data M') = iota (size h) (size C).
  by rewrite /rowsOf /= Hd'.
have Hgrid : gridOf h' M' = C.
  rewrite /gridOf Hrows; apply: (@eq_from_nth _ [::]).
    by rewrite size_map size_iota.
  move=> k; rewrite size_map size_iota => Hk.
  by rewrite (nth_map 0) ?size_iota // nth_iota // /cellsOf Hrow'.
split => //; first exact: extends_cat.
apply/and3P; split.
- rewrite /readable Hrows; apply/andP; split.
    by rewrite /isDataAt /= Hsz ltnSn Hd'.
  apply/allP => r; rewrite mem_iota => /andP [Hlo Hhi].
  rewrite /isRowAt Hsz ltnS (ltnW Hhi) /=.
  have Hk : r - size h < size C by rewrite ltn_subLR.
  by rewrite -(subnKC Hlo) Hrow'.
- by rewrite Hrows iota_uniq.
- by rewrite Hgrid.
Qed.

Lemma transpose_spec h M :
  wfMatrix h M ->
  exists T h',
    [/\ transpose M h = Ok (T, h'), extends h h', wfMatrix h' T,
        gridOf h' T = ptranspose (rows M) (cols M) (gridOf h M)
      & rows T = cols M /\ cols T = rows M].
Proof.
move=> HM; set G := gridOf h M.
pose g j := [seq entry G i j | i <- iota 0 (rows M)].
have Hc k t : k < size (iota 0 (cols M)) ->
    mapM (fun i => get M i (nth 0 (iota 0 (cols M)) k)) (iota 0 (rows M))
         (h ++ t)
    = Ok (g (nth 0 (iota 0 (cols M)) k), h ++ t).
  rewrite size_iota => Hk; rewrite nth_iota // add0n.
  have He := extends_cat h t.
  have HM' := extends_wfMatrix He HM.
  apply: (mapM_read (x0 := 0)) => i; rewrite size_iota => Hi.
  rewrite nth_iota // add0n /G -(extends_gridOf He (wfMatrix_readable HM)).
  exact: get_ok.
have := mapM_alloc
  (c := fun j => mapM (fun i => get M i j) (iota 0 (rows M))) Hc [::].
rewrite !cats0 size_iota => Ealloc.
have HC : wfGrid (cols M) (rows M) (ptranspose (rows M) (cols M) G).
  exact/wfGrid_ptranspose/wfMatrix_grid.
have Esz : size (ptranspose (rows M) (cols M) G) = cols M.
  by rewrite size_mkseq.
have := allocMatrix_spec h HC; rewrite Esz => -[He' HM' HG'].
exists (MkMatrix (size h + cols M) (cols M) (rows M)),
       (h ++ [seq RowArray c | c <- ptranspose (rows M) (cols M) G]
          ++ [:: DataArray (iota (size h) (cols M))]).
split => //.
rewrite /transpose (bindE _ Ealloc) /alloc /bind /= /ret.
rewrite size_cat !size_map size_iota -cats1 -catA.
by rewrite /ptranspose /mkseq -map_comp.
Qed.

Lemma searchDenominator_pos count decimal d best :
  (1 <= d)%Z -> (1 <= best.1.2)%Z ->
  (1 <= (searchDenominator count decimal d best).2)%Z.
Proof.
elim: count d best => [|count IH] d best Hd Hb //=.
case: Qlt_bool; last by apply: IH => //; lia.
by case: Qlt_bool => //=; apply: IH => //=; lia.
Qed.

Lemma fromDecimal_ok x : exists f, fromDecimal x = Ok f /\ reduced f.
Proof.
case: x => [q||negative]; rewrite /fromDecimal.
- case: (Number_isInteger _).
    by eexists; split; [apply: Fraction_newE | apply: reduced_normalize].
  move: (@searchDenominator_pos maxDenominator (Qabs q) 1%Z
           (1%Z, 1%Z, Qabs (Qabs q - 1)%Q) (Z.le_refl 1) (Z.le_refl 1)).
  move: (searchDenominator _ _ _ _) => best Hb.
  have Hb0 : best.2 <> 0%Z by lia.
  by eexists; split; [apply: Fraction_newE | apply: reduced_normalize].
- by exists oneF.
- by eexists; split; [apply: Fraction_newE | apply: reduced_normalize].
Qed.

Lemma Fraction_from_ok v :
  convertible v ->
  Fraction_from v = Ok (cellFraction v) /\ reduced (cellFraction v).
Proof.
rewrite /cellFraction; case: v => [x|f|] //=.
by have [f [-> Hf]] := fromDecimal_ok x.
Qed.

Lemma mapR_Fraction_from row :
  all convertible row ->
  mapR Fraction_from row = Ok [seq cellFraction v | v <- row].
Proof.
elim: row => [|v row IH] //= /andP [Hv Hrow].
by have [-> _] := Fraction_from_ok Hv; rewrite /= IH.
Qed.

End Spaces.

(** * The operation log is a replay chain *)

Section Chain.

Variables (m n : nat).

Lemma chained_rcons start log G ty ps G' :
  chained start log G -> chained start (rcons log (MkPOp ty ps G G')) G'.
Proof.
elim: log start => [|op log IH] start /=; first by move=> ->.
by move=> [-> H]; split => //; apply: IH.
Qed.

Lemma pelim_chained col cur elimRows start G log :
  chained start log G ->
  chained start (pelim true n col cur elimRows G log).2
          (pelim true n col cur elimRows G log).1.
Proof.
elim: elimRows G log => [|row rs IH] G log //= H.
case: ifP => _; last exact: IH.
by apply: IH; apply: chained_rcons.
Qed.

Lemma pstep_chained col start pst :
  chained start (plogs pst) (pgrid pst) ->
  chained start (plogs (pstep true m n col pst))
          (pgrid (pstep true m n col pst)).
Proof.
move=> H; rewrite /pstep; case: ifP => // _.
rewrite [plogs _]/= [pgrid (MkPState _ _ _ _)]/=.
apply: pelim_chained.
have H1 : chained start
    (if pfindPivot m (pgrid pst) (pcur pst) col != pcur pst
     then plog true (plogs pst) swap
            (SwapParams (pcur pst) (pfindPivot m (pgrid pst) (pcur pst) col))
            (pgrid pst)
            (if pfindPivot m (pgrid pst) (pcur pst) col != pcur pst
             then gswap (pgrid pst) (pcur pst)
                    (pfindPivot m (pgrid pst) (pcur pst) col)
             else pgrid pst)
     else plogs pst)
    (if pfindPivot m (pgrid pst) (pcur pst) col != pcur pst
     then gswap (pgrid pst) (pcur pst)
            (pfindPivot m (pgrid pst) (pcur pst) col)
     else pgrid pst).
  by rewrite /plog; case: (_ != _) => //=; apply: chained_rcons.
by case: (~~ equals _ _) => //=; apply: chained_rcons.
Qed.

Lemma ploop_chained columns start pst :
  chained start (plogs pst) (pgrid pst) ->
  chained start (plogs (ploop true m n columns pst))
          (pgrid (ploop true m n columns pst)).
Proof.
elim: columns pst => [|col cs IH] pst //= H.
by case: ifP => // _; apply: IH; apply: pstep_chained.
Qed.

Lemma prref_chained G :
  chained G (plogs (prref true m n G)) (pgrid (prref true m n G)).
Proof. exact: ploop_chained. Qed.

(** A chain, entry by entry. *)
Lemma chained_nth (op0 : POp) start log finish :
  chained start log finish ->
  [/\ 0 < size log -> pbefore (nth op0 log 0) = start,
      forall k, k.+1 < size log ->
        pafter (nth op0 log k) = pbefore (nth op0 log k.+1)
    & 0 < size log -> pafter (nth op0 log (size log).-1) = finish].
Proof.
elim: log start => [|op log IH] start //= [Hb Hc].
have [H1 H2 H3] := IH _ Hc; split => //.
- case=> [|k] Hk /=; last exact: H2.
  by rewrite H1.
- move=> _; case: (log) H3 Hc => [|op' log'] //= H3 _.
  exact: H3.
Qed.

End Chain.

(** * A grid in reduced row-echelon form is left as it is *)

Section Idempotence.

Variables (track : bool) (m n : nat) (G : Grid).
Hypothesis HG : wfGrid m n G.
Hypothesis HRR : isRREF m n G.

Lemma leadOf_le i : i < m -> leadOf G i <= n.
Proof. by move=> Hi; rewrite /leadOf /leadCol -(wfGrid_row HG Hi) find_size. Qed.

Lemma before_lead i j : i < m -> j < leadOf G i -> isZero (entry G i j).
Proof.
move=> Hi Hj; apply/negbFE.
exact: (before_find zeroF (a := fun x => ~~ isZero x) Hj).
Qed.

Lemma rref_one i : i < m -> leadOf G i < n -> entry G i (leadOf G i) = oneF.
Proof.
move=> Hi Hl; case/and3P: HRR => /allP H1 _ _.
have := H1 i; rewrite mem_iota add0n Hi Hl => /(_ isT) /=.
exact/equalsP.
Qed.

Lemma rref_col i k :
  i < m -> k < m -> leadOf G i < n -> k != i -> isZero (entry G k (leadOf G i)).
Proof.
move=> Hi Hk Hl Hki; case/and3P: HRR => _ /allP H2 _.
have := H2 i; rewrite mem_iota add0n Hi Hl => /(_ isT) /= /allP /(_ k).
by rewrite mem_iota add0n Hk (negbTE Hki) => /(_ isT).
Qed.

Lemma rref_next i : i.+1 < m -> leadOf G i.+1 < n -> leadOf G i < leadOf G i.+1.
Proof.
move=> Hi Hl; case/and3P: HRR => _ _ /allP H3.
have := H3 i; rewrite mem_iota add0n Hl.
by case: (m) Hi => [|m'] //=; rewrite ltnS => -> /(_ isT).
Qed.

Lemma rref_mono i k :
  i < k -> k < m -> leadOf G k < n -> leadOf G i < leadOf G k.
Proof.
elim: k => [|k IH] //; rewrite ltnS leq_eqVlt => /orP [/eqP ->|Hik] Hk Hl.
  exact: rref_next.
have Hn := rref_next Hk Hl.
apply: (ltn_trans _ Hn); apply: IH => //; first exact: ltnW.
exact: (ltn_trans Hn Hl).
Qed.

Lemma pelim_noop col cur elimRows log :
  (forall row, row \in elimRows -> row != cur -> isZero (entry G row col)) ->
  pelim track n col cur elimRows G log = (G, log).
Proof.
elim: elimRows => [|row rs IH] //= H.
have -> : (row != cur) && ~~ isZero (entry G row col) = false.
  case Hr: (row != cur) => //=.
  by rewrite H // mem_head.
by apply: IH => r Hr; apply: H; rewrite inE Hr orbT.
Qed.

Lemma absNum_zero_lt i j col :
  i < m -> j < m -> col < n ->
  isZero (entry G j col) ->
  ~ (absNum (entry G i col) < absNum (entry G j col))%Q.
Proof.
move=> Hi Hj Hc Hz Hlt.
have E := absNum_isZero (wfGrid_reduced HG Hj Hc) Hz.
have H0 := Qabs_nonneg (toNumber (entry G i col)).
rewrite E in Hlt; exact: (Qlt_not_le _ _ Hlt H0).
Qed.

Lemma pstep_rref_skip col pv cur :
  cur < m -> col < n ->
  (forall i, cur <= i -> i < m -> isZero (entry G i col)) ->
  pstep track m n col (MkPState G pv [::] cur) = MkPState G pv [::] cur.
Proof.
move=> Hcur Hcol Hz; rewrite /pstep /=.
have [/andP [Hp1 Hp2] _ _] := pfindPivot_max G col Hcur.
by rewrite Hz.
Qed.

Lemma pstep_rref_pivot col pv cur :
  cur < m -> col < n -> leadOf G cur = col ->
  pstep track m n col (MkPState G pv [::] cur)
  = MkPState G (rcons pv col) [::] cur.+1.
Proof.
move=> Hcur Hcol Hl; rewrite /pstep /=.
have Hln : leadOf G cur < n by rewrite Hl.
have Eone : entry G cur col = oneF by rewrite -Hl; apply: rref_one.
have Hz i : i < m -> i != cur -> isZero (entry G i col).
  by move=> Hi Hic; rewrite -Hl; apply: rref_col.
have [/andP [Hp1 Hp2] _ Hfirst] := pfindPivot_max G col Hcur.
have Ep : pfindPivot m G cur col = cur.
  apply/eqP; rewrite eqn_leq Hp1 andbT leqNgt; apply/negP => Hlt.
  have Hne : pfindPivot m G cur col != cur by rewrite neq_ltn Hlt orbT.
  apply: (@absNum_zero_lt cur (pfindPivot m G cur col) col) => //.
    exact: Hz.
  by apply: Hfirst; rewrite leqnn.
rewrite Ep Eone /= eqxx /= !Eone.
have -> : equals oneF oneF = true by [].
by rewrite /= pelim_noop // => row; rewrite mem_iota add0n => /= Hr; apply: Hz.
Qed.

Lemma ploop_rref k col cur pv :
  col + k = n -> cur <= m ->
  (forall i, cur <= i -> i < m -> col <= leadOf G i) ->
  ploop track m n (iota col k) (MkPState G pv [::] cur)
  = MkPState G (pv ++ leadsFrom m n G cur) [::] (cur + size (leadsFrom m n G cur)).
Proof.
elim: k col cur pv => [|k IH] col cur pv /=.
  rewrite addn0 => -> Hcur Hge.
  have -> : leadsFrom m n G cur = [::].
    rewrite /leadsFrom -(filter_pred0 [seq leadOf G i | i <- iota cur (m - cur)]).
    apply: eq_in_filter => c /mapP [i]; rewrite mem_iota subnKC //.
    by move=> /andP [H1 H2] -> /=; rewrite ltnNge Hge.
  by rewrite cats0 addn0.
move=> Hn Hcur Hge /=.
have Hcol : col < n by rewrite -Hn -addn1 leq_add2l.
case: ltnP => Hlt; last first.
  have -> : leadsFrom m n G cur = [::].
    by rewrite /leadsFrom (eqP (_ : m - cur == 0)) // subn_eq0.
  by rewrite cats0 addn0.
have Eiota : iota cur (m - cur) = cur :: iota cur.+1 (m - cur.+1).
  have : 0 < m - cur by rewrite subn_gt0.
  by rewrite subnS; case: (m - cur).
case: (leadOf G cur =P col) => [El|/eqP Hne].
- have Hge1 i : cur.+1 <= i -> i < m -> col.+1 <= leadOf G i.
    move=> Hi Him; have := leadOf_le Him.
    rewrite leq_eqVlt => /orP [/eqP ->|Hlin] //.
    by rewrite -El; apply: rref_mono.
  have Hnk : col.+1 + k = n by rewrite addSnnS.
  rewrite pstep_rref_pivot // (IH col.+1 cur.+1 (rcons pv col) Hnk Hlt Hge1).
  rewrite /leadsFrom Eiota /= El Hcol /= -cats1 -catA /=.
  by rewrite addSnnS.
- have Hgt i : cur <= i -> i < m -> col < leadOf G i.
    move=> Hi Him; rewrite ltn_neqAle Hge // andbT.
    apply/eqP => Ei; move: Hi; rewrite leq_eqVlt => /orP [/eqP E|Hci].
      by rewrite E -Ei eqxx in Hne.
    have : leadOf G cur < leadOf G i by apply: rref_mono => //; rewrite -Ei.
    by rewrite -Ei ltnNge Hge // leqnn.
  have Hnk : col.+1 + k = n by rewrite addSnnS.
  have Hz i : cur <= i -> i < m -> isZero (entry G i col).
    by move=> Hi Him; apply: before_lead => //; apply: Hgt.
  by rewrite (pstep_rref_skip pv Hlt Hcol Hz) (IH col.+1 cur pv Hnk Hcur Hgt).
Qed.

(** Idempotence on grids. *)
Lemma prref_rref :
  prref track m n G
  = MkPState G (leadCols m n G) [::] (size (leadCols m n G)).
Proof.
rewrite /prref (@ploop_rref n 0 0 [::]) //.
by rewrite /leadsFrom subn0 add0n.
Qed.

End Idempotence.

(** * The result of the reduction is in reduced row-echelon form *)

Section Reduced.

Variables (m n : nat).

Lemma find_first (T : Type) (a : pred T) (x0 : T) (s : seq T) c :
  c < size s -> a (nth x0 s c) ->
  (forall j, j < c -> ~~ a (nth x0 s j)) -> find a s = c.
Proof.
move=> Hc Ha Hb; apply/eqP; rewrite eqn_leq; apply/andP; split.
  rewrite leqNgt; apply/negP => Hlt.
  by move: (before_find x0 Hlt); rewrite Ha.
rewrite leqNgt; apply/negP => Hlt.
have Hh : has a s by rewrite has_find; apply: ltn_trans Hlt Hc.
by move: (Hb _ Hlt); rewrite (nth_find x0 Hh).
Qed.

Lemma find_none (T : Type) (a : pred T) (x0 : T) (s : seq T) :
  (forall j, j < size s -> ~~ a (nth x0 s j)) -> find a s = size s.
Proof.
move=> Hb; apply/eqP; rewrite eqn_leq find_size /= leqNgt; apply/negP => Hlt.
have Hh : has a s by rewrite has_find.
by move: (Hb _ Hlt); rewrite (nth_find x0 Hh).
Qed.

Variable pst : PState.
Hypothesis HR : RInv m n n pst.

Let G := pgrid pst.
Let pv := ppivots pst.
Let r := pcur pst.

Lemma RInv_lead_pivot k : k < r -> leadOf G k = nth 0 pv k.
Proof.
move=> Hk; have HG := ri_wf HR.
have Hkm : k < m by apply: leq_trans Hk (ri_cur HR).
have Hc : nth 0 pv k < n by apply: (RInv_pivot_lt HR).
apply: (find_first (x0 := zeroF)).
- by rewrite (wfGrid_row HG Hkm).
- by rewrite -/(entry G k _) (isZero_V HG Hkm Hc) (ri_unit HR) // eqxx oner_eq0.
- move=> j Hj; have Hjn : j < n by apply: ltn_trans Hj Hc.
  by rewrite negbK -/(entry G k j) (isZero_V HG Hkm Hjn) (ri_lead HR).
Qed.

Lemma RInv_lead_zero k : r <= k -> k < m -> leadOf G k = n.
Proof.
move=> Hk Hkm; have HG := ri_wf HR.
rewrite /leadOf /leadCol (find_none (x0 := zeroF)) ?(wfGrid_row HG Hkm) //.
move=> j Hj.
by rewrite negbK -/(entry G k j) (isZero_V HG Hkm Hj) (ri_below HR).
Qed.

Lemma RInv_lead_lt k : k < m -> (leadOf G k < n) = (k < r).
Proof.
move=> Hkm; case: (ltnP k r) => Hk.
  by rewrite RInv_lead_pivot //; apply: (RInv_pivot_lt HR).
by rewrite RInv_lead_zero // ltnn.
Qed.

Lemma sorted_nth_ltn (s : seq nat) i j :
  sorted ltn s -> i < j -> j < size s -> nth 0 s i < nth 0 s j.
Proof.
move=> Hs Hij Hj.
have Htr : transitive ltn by move=> a b c; apply: ltn_trans.
by have := sorted_ltn_nth Htr 0 Hs; apply; rewrite ?inE //; apply: ltn_trans Hj.
Qed.

Lemma RInv_isRREF : isRREF m n G.
Proof.
have HG := ri_wf HR.
apply/and3P; split.
- apply/allP => i; rewrite mem_iota add0n /= => Hi.
  apply/implyP; rewrite RInv_lead_lt // => Hir.
  have Hc : nth 0 pv i < n by apply: (RInv_pivot_lt HR).
  rewrite RInv_lead_pivot //; apply/equalsP; apply: toRat1_eq.
    exact: (wfGrid_reduced HG).
  by rewrite -/(V G i _) (ri_unit HR) // eqxx.
- apply/allP => i; rewrite mem_iota add0n /= => Hi.
  apply/implyP; rewrite RInv_lead_lt // => Hir.
  have Hc : nth 0 pv i < n by apply: (RInv_pivot_lt HR).
  apply/allP => k; rewrite mem_iota add0n /= => Hk.
  case: (k =P i) => //= /eqP Hki.
  by rewrite RInv_lead_pivot // (isZero_V HG Hk Hc) (ri_unit HR) // (negbTE Hki).
- apply/allP => i; rewrite mem_iota add0n /= => Hi.
  have Him : i.+1 < m by case: (m) Hi.
  apply/implyP; rewrite RInv_lead_lt // => Hir.
  rewrite (RInv_lead_pivot Hir) (RInv_lead_pivot (ltnW Hir)).
  apply: sorted_nth_ltn; rewrite ?(ri_size HR) //.
  exact: (ri_sorted HR).
Qed.

Lemma RInv_leadCols : leadCols m n G = pv.
Proof.
have Hrm : r <= m := ri_cur HR.
rewrite /leadCols -(subnKC Hrm) iotaD map_cat filter_cat add0n.
have -> : [seq c <- [seq leadOf G i | i <- iota r (m - r)] | c < n] = [::].
  rewrite -(filter_pred0 [seq leadOf G i | i <- iota r (m - r)]).
  apply: eq_in_filter => c /mapP [i]; rewrite mem_iota subnKC //.
  by move=> /andP [H1 H2] -> /=; rewrite RInv_lead_zero // ltnn.
rewrite cats0.
have -> : [seq leadOf G i | i <- iota 0 r] = pv.
  apply: (eq_from_nth (x0 := 0)); first by rewrite size_map size_iota (ri_size HR).
  move=> i; rewrite size_map size_iota => Hi.
  by rewrite (nth_map 0) ?size_iota // nth_iota // add0n RInv_lead_pivot.
apply/all_filterP; exact: (ri_lt HR).
Qed.

End Reduced.

(** [prref] computes a grid in reduced row-echelon form, whose leading
    columns are the pivot columns. *)
Lemma prref_isRREF track m n G :
  wfGrid m n G ->
  isRREF m n (pgrid (prref track m n G))
  /\ leadCols m n (pgrid (prref track m n G)) = ppivots (prref track m n G).
Proof.
move=> HG; have HR := prref_RInv track HG.
by split; [apply: RInv_isRREF HR | apply: RInv_leadCols HR].
Qed.

(** * The cell parser *)

Lemma trimStart_blank s : allWhiteSpace s -> trimStart s = EmptyString.
Proof.
move: {2}(String.length s) (leqnn (String.length s)) => n.
elim: n s => [|n IH] [|c1 s1] //= Hn.
case: (isWhiteSpace c1); first exact: IH.
case: s1 Hn => [|c2 s2] //= Hn.
case: (isWhiteSpace2 c1 c2); first by apply: IH; apply: ltnW.
case: s2 Hn => [|c3 s3] //= Hn.
by case: (isWhiteSpace3 c1 c2 c3) => //=; apply: IH; do 2!apply: ltnW.
Qed.

Lemma trim_blank s : allWhiteSpace s -> trim s = EmptyString.
Proof. by move=> Hs; rewrite /trim trimStart_blank. Qed.

(** C7, as stated, fails: the parser returns 0 on the empty string and on
    a blank cell. *)
Lemma C7_counterexample :
  parseMatrixCell ""%string = Ok (Finite 0)
  /\ parseMatrixCell "  "%string = Ok (Finite 0).
Proof. by split; vm_compute. Qed.

(** C7, amended.  [parseMatrixCell] itself maps the empty string and every
    cell made of white space only to 0: it returns 0 and does not fail.
    White space is what [trim] removes: the code points of WhiteSpace and
    LineTerminator, U+00A0 and the other Unicode spaces included.  The
    fill-zeros helper replaces the same cells by the text 0, which the
    parser reads as 0. *)
Theorem C7_blank_cell_is_zero (s : string) :
  allWhiteSpace s ->
  [/\ parseMatrixCell s = Ok (Finite 0), fillZerosCell s = "0"%string
    & parseMatrixCell (fillZerosCell s) = Ok (Finite 0)].
Proof.
move=> Hs; have E := trim_blank Hs.
by split; rewrite /parseMatrixCell /fillZerosCell E.
Qed.

Lemma C7_blank_cell_is_zero_witness :
  [/\ parseMatrixCell nbspCell = Ok (Finite 0),
      fillZerosCell nbspCell = "0"%string
    & parseMatrixCell (fillZerosCell nbspCell) = Ok (Finite 0)].
Proof. by apply: C7_blank_cell_is_zero; vm_compute. Defined.

(** * The Matrix constructor and the guards on the input *)

Lemma Matrix_new_ok h grid :
  all (all convertible) grid ->
  Matrix_new grid h
  = Ok (MkMatrix (size h + size grid) (size grid) (size (head [::] grid)),
        h ++ [seq RowArray c | c <- inputGrid grid]
          ++ [:: DataArray (iota (size h) (size grid))]).
Proof.
move=> /(all_nthP [::]) Hconv.
have Hc k t : k < size grid ->
    lift (mapR Fraction_from (nth [::] grid k)) (h ++ t)
    = Ok ([seq cellFraction v | v <- nth [::] grid k], h ++ t).
  by move=> Hk; apply: lift_ok; apply: mapR_Fraction_from; apply: Hconv.
have := mapM_alloc (c := fun row => lift (mapR Fraction_from row)) Hc [::].
rewrite !cats0 => Ealloc.
rewrite /Matrix_new (bindE _ Ealloc) /alloc /bind /= /ret.
rewrite size_cat !size_map -cats1 -catA.
by rewrite /inputGrid -map_comp.
Qed.

(** C8, as stated, fails: the constructor builds a Matrix from [[1,2],[3]]. *)
Lemma C8_counterexample :
  ragged raggedGrid
  /\ Matrix_new raggedGrid [::]
     = Ok (MkMatrix 2 2 2,
           [:: RowArray [:: F 1; F 2]; RowArray [:: F 3]; DataArray [:: 0; 1]]).
Proof. by split; vm_compute. Qed.

(** C8, amended.  The Matrix constructor does not compare the lengths of
    the rows: on a ragged grid of convertible values it succeeds, with the
    number of columns of the first row.  A ragged grid is refused before a
    Matrix is built: [computeAllSpaces] raises the error on rows of
    different lengths, and [validateMatrix] does not accept the grid. *)
Theorem C8_ragged_grid_rejected h (grid : seq (seq JsValue)) track :
  ragged grid -> all (all convertible) grid ->
  [/\ exists M h', [/\ Matrix_new grid h = Ok (M, h'), rows M = size grid
                     & cols M = size (head [::] grid)],
      computeAllSpaces grid track h = Throw RowsNotUniform
    & isOk (validateMatrix grid) = false].
Proof.
rewrite /ragged => Hr Hc; split.
- by eexists _, _; split; first exact: Matrix_new_ok.
- rewrite /computeAllSpaces Hr.
  by case: grid Hr {Hc}.
- rewrite /validateMatrix Hr.
  by do 3![case: ifP => // _].
Qed.

Lemma C8_ragged_grid_rejected_witness :
  [/\ exists M h', [/\ Matrix_new raggedGrid [::] = Ok (M, h'),
                       rows M = size raggedGrid
                     & cols M = size (head [::] raggedGrid)],
      computeAllSpaces raggedGrid true [::] = Throw RowsNotUniform
    & isOk (validateMatrix raggedGrid) = false].
Proof. by apply: C8_ragged_grid_rejected; vm_compute. Defined.

(** * The reduction *)

(** On a matrix in reduced row-echelon form [computeRREF] returns a copy
    of the matrix, its leading columns as pivots, and a log without
    entries. *)
Lemma computeRREF_reduced track h M :
  wfMatrix h M -> isRREF (rows M) (cols M) (gridOf h M) ->
  exists res h',
    [/\ computeRREF M track h = Ok (res, h'),
        wfMatrix h' (rref res),
        gridOf h' (rref res) = gridOf h M,
        rrefPivots res = leadCols (rows M) (cols M) (gridOf h M)
      & rrefOperations res = if track then Some [::] else None].
Proof.
move=> HM HR.
have [res [h' [hi [E He [HI Hp HL Hr Hc]]]]] := computeRREF_spec track HM.
have HG : wfGrid (rows M) (cols M) (gridOf h M) by case/and3P: HM.
move: HI Hp HL; rewrite (prref_rref track HG HR) /= => -[HM' _ EG] Hp HL.
exists res, h'; split => //.
move: HL; rewrite /logRel; case: track {E} => [[ops [-> _]]|[-> _]] //.
by case: ops.
Qed.

(** C4.  For a matrix in reduced row-echelon form, [computeRREF] with
    tracking returns a matrix with the same entries, the columns of the
    leading ones as pivot columns, and an empty operation log; reducing the
    result once more gives the same matrix and the same pivot columns. *)
Theorem C4_idempotence h M :
  wfMatrix h M -> isRREF (rows M) (cols M) (gridOf h M) ->
  exists res h',
    [/\ computeRREF M true h = Ok (res, h'),
        gridOf h' (rref res) = gridOf h M,
        rrefPivots res = leadCols (rows M) (cols M) (gridOf h M),
        rrefOperations res = Some [::]
      & exists res2 h'',
          [/\ computeRREF (rref res) true h' = Ok (res2, h''),
              gridOf h'' (rref res2) = gridOf h M,
              rrefPivots res2 = rrefPivots res
            & rrefOperations res2 = Some [::]]].
Proof.
move=> HM HR.
have [res [h' [hi [E He [_ _ _ Hr Hc]]]]] := computeRREF_spec true HM.
have [res1 [h1 [E1 HM1 EG1 Hp1 HL1]]] := computeRREF_reduced true HM HR.
move: E1; rewrite E => -[E1 E2]; move: HM1 EG1 Hp1 HL1; rewrite -E1 -E2.
move=> HM1 EG1 Hp1 HL1 {E1 E2 res1 h1}.
have HR1 : isRREF (rows (rref res)) (cols (rref res)) (gridOf h' (rref res)).
  by rewrite EG1 Hr Hc.
have [res2 [h2 [E2 _ EG2 Hp2 HL2]]] := computeRREF_reduced true HM1 HR1.
exists res, h'; split => //.
exists res2, h2; split => //; first by rewrite EG2.
by rewrite Hp2 Hp1 EG1 Hr Hc.
Qed.

Lemma C4_idempotence_witness :
  exists res h',
    [/\ computeRREF matrixReduced true heapReduced = Ok (res, h'),
        gridOf h' (rref res) = gridOf heapReduced matrixReduced,
        rrefPivots res = leadCols 3 3 (gridOf heapReduced matrixReduced),
        rrefOperations res = Some [::]
      & exists res2 h'',
          [/\ computeRREF (rref res) true h' = Ok (res2, h''),
              gridOf h'' (rref res2) = gridOf heapReduced matrixReduced,
              rrefPivots res2 = rrefPivots res
            & rrefOperations res2 = Some [::]]].
Proof.
apply: (@C4_idempotence heapReduced matrixReduced).
- by vm_compute.
- by vm_compute.
Defined.






(** * The program on binary64: proofs *)

(** ** The comparisons of doubles *)

Lemma ltb_irrefl (x : Binary64.number) : Binary64.ltb x x = false.
Proof.
rewrite /Binary64.ltb /SpecFloat.SFltb.
case: x => [[]|[]||[] m e] //=; rewrite Z.compare_refl;
  by rewrite -/(Pos.compare m m) Pos.compare_refl.
Qed.

(** Neither [a < x] nor NaN on the way: from [a < b], not [b <= x]. *)
Lemma ltb_leb_false (a b x : Binary64.number) :
  Binary64.ltb a x = false -> Binary64.ltb a b -> Binary64.leb b x = false.
Proof.
rewrite /Binary64.ltb /Binary64.leb /SpecFloat.SFltb /SpecFloat.SFleb.
case: a => [[]|[]||[] ma ea]; case: b => [[]|[]||[] mb eb];
  case: x => [[]|[]||[] mx ex] //=; compare_cases => //; lia.
Qed.

Lemma ltb_leb (a b : Binary64.number) : Binary64.ltb a b -> Binary64.leb a b.
Proof.
rewrite /Binary64.ltb /Binary64.leb /SpecFloat.SFltb /SpecFloat.SFleb.
by case: (SpecFloat.SFcompare a b) => [[]|].
Qed.

(** The order is total outside NaN. *)
Lemma ltb_total (a b : Binary64.number) :
  Binary64.ltb a b = false ->
  [|| Binary64.leb b a, Binary64.nanb a | Binary64.nanb b].
Proof.
rewrite /Binary64.ltb /Binary64.leb /SpecFloat.SFltb /SpecFloat.SFleb.
case: a => [[]|[]||[] ma ea]; case: b => [[]|[]||[] mb eb] //=;
  compare_cases => //; lia.
Qed.

Lemma leb_false_ltb (a b : Binary64.number) :
  Binary64.leb a b = false -> Binary64.ltb b a || Binary64.nanb a || Binary64.nanb b.
Proof.
rewrite /Binary64.ltb /Binary64.leb /SpecFloat.SFltb /SpecFloat.SFleb.
case: a => [[]|[]||[] ma ea]; case: b => [[]|[]||[] mb eb] //=;
  compare_cases => //; lia.
Qed.

Lemma ltb_nan (a b : Binary64.number) :
  Binary64.ltb a b -> ~~ Binary64.nanb a /\ ~~ Binary64.nanb b.
Proof. by case: a => [[]|[]||[] ma ea]; case: b => [[]|[]||[] mb eb]. Qed.

(** ** Reading a well-formed matrix *)

Section ReadMatrix.

Variables (h : Double.Heap) (m : Double.Matrix).
Hypothesis wf : Double.wfMatrix h m.

Lemma Double_readData_ok :
  Double.readData (Double.data m) h = Ok (Double.rowsOf h m, h).
Proof.
case/and3P: wf => /andP[Hlt Hd] _ _.
rewrite /Double.readData Hlt /Double.rowsOf.
by move: Hd; case: (nth _ h _).
Qed.

Lemma Double_rowRef_ok i :
  i < Double.rows m ->
  Double.rowRef m i h = Ok (nth 0 (Double.rowsOf h m) i, h).
Proof.
move=> Hi; case/and3P: (wf) => _ /eqP Hsz _.
by rewrite /Double.rowRef /Double.bind Double_readData_ok Hsz Hi.
Qed.

Lemma Double_get_ok i j :
  i < Double.rows m -> j < Double.cols m ->
  Double.get m i j h = Ok (Double.entry h m i j, h).
Proof.
move=> Hi Hj; case/and3P: (wf) => _ /eqP Hsz /allP Hall.
have /andP[/andP[Hlt Hr] /eqP Hc] :
    Double.isRowAt h (nth 0 (Double.rowsOf h m) i)
    && (size (Double.cellsOf h (nth 0 (Double.rowsOf h m) i)) == Double.cols m).
  by apply: Hall; rewrite mem_nth // Hsz.
rewrite /Double.get /Double.bind Double_rowRef_ok // /Double.readRow Hlt.
rewrite /Double.entry; move: Hc Hr; rewrite /Double.cellsOf.
by case: (nth _ h _) => //= cells ->; rewrite Hj.
Qed.

(** *** The pivot search *)

Variables (col cur : nat).
Hypothesis Hcol : col < Double.cols m.

Local Notation scanned := (Double.scanned h m col cur).

Lemma Double_scanPivot_spec k : forall a p mv,
  a + k = Double.rows m -> scanned p mv a ->
  exists p',
    Double.scanPivot m col (iota a k) p mv h = Ok (p', h)
    /\ scanned p' (Double.magnitude h m p' col) (Double.rows m).
Proof.
elim: k => [|k IH] a p mv.
  rewrite addn0 => <- Hs; exists p; split=> //.
  by case: Hs => H1 H2 H3 H4 H5; split=> //; rewrite -H2.
move=> Hak [/andP[Hp1 Hp2] Hmv Hnan Hmax Hfirst].
have Ha : a < Double.rows m by rewrite -Hak -addSnnS leq_addr.
rewrite /= /Double.bind Double_get_ok // -/(Double.magnitude h m a col).
case Hlt: (Binary64.ltb mv (Double.magnitude h m a col)).
- apply: IH; first by rewrite addSnnS.
  have Hca : cur <= a by apply: leq_trans (ltnW Hp2).
  split=> //.
  + by rewrite Hca leqnn.
  + move=> _; case: (ltb_nan Hlt) => Hn1 Hn2; split=> //.
    move: Hp1; rewrite leq_eqVlt; case/orP=> [/eqP E|/Hnan [] //].
    by rewrite E -Hmv.
  + move=> r /andP[Hr1 Hr2]; move: Hr2; rewrite ltnS leq_eqVlt.
    case/orP=> [/eqP ->|Hr2]; first exact: ltb_irrefl.
    case Hx: (Binary64.ltb _ _) => //.
    by move: (ltb_leb_false (Hmax r (introT andP (conj Hr1 Hr2))) Hlt);
       rewrite (ltb_leb Hx).
  + move=> r /andP[Hr1 Hr2].
    exact: (ltb_leb_false (Hmax r (introT andP (conj Hr1 Hr2))) Hlt).
- apply: IH; first by rewrite addSnnS.
  split=> //.
  + by rewrite Hp1 (leq_trans Hp2).
  + move=> r /andP[Hr1 Hr2]; move: Hr2; rewrite ltnS leq_eqVlt.
    case/orP=> [/eqP -> //|Hr2].
    by apply: Hmax; rewrite Hr1.
Qed.

Lemma Double_findPivot_spec :
  cur < Double.rows m ->
  exists p,
    Double.findPivot m cur col h = Ok (p, h)
    /\ scanned p (Double.magnitude h m p col) (Double.rows m).
Proof.
move=> Hcur.
rewrite /Double.findPivot /Double.bind Double_get_ok //.
apply: Double_scanPivot_spec; first by rewrite subnKC.
split=> //.
- by rewrite leqnn ltnSn.
- by rewrite ltnn.
- move=> r; rewrite ltnS -eqn_leq => /eqP <-; exact: ltb_irrefl.
- by move=> r /andP[H1 H2]; move: (leq_ltn_trans H1 H2); rewrite ltnn.
Qed.

End ReadMatrix.

(** * The pivot of a step *)



(** The search compares the rounded quotients: 9007199254740991/3 and
    9007199254740992/3 are the same double, and the first row is kept. *)
Lemma findPivot_rounded_tie :
  Double.toNumber (Double.entry Double.heapTie Double.matrixTie 0 0)
  = Double.toNumber (Double.entry Double.heapTie Double.matrixTie 1 0)
  /\ Double.findPivot Double.matrixTie 0 0 Double.heapTie
     = Ok (0, Double.heapTie).
Proof. by split; vm_compute. Qed.

(** * Numbers that are not finite *)

Lemma Double_gcd_fuel_nan fuel a b :
  Binary64.nanb b -> Double.gcd_fuel fuel a b = None.
Proof.
elim: fuel a b => [|fuel IH] a [] // _.
rewrite /= IH //.
by case: a.
Qed.

Lemma Double_gcd_fuel_not_finite fuel a b :
  ~~ Binary64.finiteb a -> Binary64.eqb b Binary64.zero = false ->
  Double.gcd_fuel fuel a b = None.
Proof.
case: fuel => [|fuel] // Ha Hb.
rewrite /= Hb Double_gcd_fuel_nan //.
by case: a Ha => [s|s||s m e] //; case: b {Hb}.
Qed.

Lemma Double_gcd_fuel_infinity fuel a s :
  Binary64.finiteb a -> Binary64.eqb a Binary64.zero = false ->
  Double.gcd_fuel fuel a (SpecFloat.S754_infinity s) = None.
Proof.
case: fuel => [|fuel] // Ha Ha0.
have -> : Double.gcd_fuel fuel.+1 a (SpecFloat.S754_infinity s)
          = Double.gcd_fuel fuel (SpecFloat.S754_infinity s) a.
  by case: a Ha {Ha0} => [sa|sa||sa ma ea] //= _; case: s.
by apply: Double_gcd_fuel_not_finite.
Qed.

(** The gcd the constructor asks for has no end, at any depth of the
    stack. *)
Lemma Double_gcd_fuel_diverges fuel (n d : Binary64.number) :
  ~~ (Binary64.finiteb n && Binary64.finiteb d) ->
  Binary64.eqb d Binary64.zero = false ->
  Binary64.eqb n Binary64.zero && ~~ Binary64.nanb d = false ->
  Double.gcd_fuel fuel
    (Binary64.abs (if Binary64.ltb d Binary64.zero then Binary64.opp n else n))
    (Binary64.abs (if Binary64.ltb d Binary64.zero then Binary64.opp d else d))
  = None.
Proof.
case: d => [[]|[]||[] md ed] //; case: n => [[]|[]||[] mn en] //= _ _ _;
  by [apply: Double_gcd_fuel_not_finite | apply: Double_gcd_fuel_infinity
     | apply: Double_gcd_fuel_nan].
Qed.

(** The constructor on a numerator or a denominator that is NaN or
    infinite, the denominator not being zero: the recursion of [gcd] has no
    end and the call is a RangeError; except for the numerator 0 over an
    infinite denominator, where the gcd is the infinity and the constructor
    returns the Fraction of numerator 0 and of denominator NaN. *)
Theorem Fraction_new_not_finite (n d : Binary64.number) :
  ~~ (Binary64.finiteb n && Binary64.finiteb d) ->
  Binary64.eqb d Binary64.zero = false ->
  if Binary64.eqb n Binary64.zero && ~~ Binary64.nanb d
  then exists f, [/\ Double.Fraction_new n d = Ok f, Double.isZero f
                    & Binary64.nanb (Double.denominator f)]
  else Double.Fraction_new n d = Throw RangeError.
Proof.
move=> Hfin Hd0; case E: (_ && _).
- case: n Hfin E => [[]|[]||[] mn en] //; case: d Hd0 => [[]|[]||[] md ed] // _ _ _;
    by eexists; split; vm_compute; reflexivity.
- by rewrite /Double.Fraction_new Hd0 /Double.gcd Double_gcd_fuel_diverges.
Qed.

Lemma Fraction_new_not_finite_witness :
  Double.Fraction_new (Binary64.ofZ 5) (SpecFloat.S754_infinity false)
  = Throw RangeError
  /\ exists f,
       [/\ Double.Fraction_new Binary64.zero (SpecFloat.S754_infinity true)
           = Ok f,
           Double.isZero f & Binary64.nanb (Double.denominator f)].
Proof.
split.
- exact: (@Fraction_new_not_finite (Binary64.ofZ 5)
            (SpecFloat.S754_infinity false) isT erefl).
- exact: (@Fraction_new_not_finite Binary64.zero
            (SpecFloat.S754_infinity true) isT erefl).
Defined.

(** * Beyond 2^53 *)

(** C9 at [new Fraction(1, 1e200).add(new Fraction(-1, 1e200))] and at
    [new Fraction(1e200, 1).multiply(new Fraction(1e200, 1))].  The three
    fractions are what the constructor returns, in lowest terms.  The
    product of the denominators is an infinity: [add] returns the Fraction
    of numerator 0 and denominator NaN, which is not in lowest terms with a
    positive denominator, and [multiply] returns no Fraction, its gcd
    recursing without end. *)
Theorem C9_invariant_lost :
  let a := Double.fractionOf 1 (10 ^ 200) in
  let b := Double.fractionOf (-1) (10 ^ 200) in
  let c := Double.fractionOf (10 ^ 200) 1 in
  [/\ [/\ Double.Fraction_new (Binary64.ofZ 1) (Binary64.ofZ (10 ^ 200)) = Ok a,
          Double.Fraction_new (Binary64.ofZ (-1)) (Binary64.ofZ (10 ^ 200)) = Ok b
        & Double.Fraction_new (Binary64.ofZ (10 ^ 200)) (Binary64.ofZ 1) = Ok c],
      [&& Double.reduced a, Double.reduced b & Double.reduced c],
      Double.add a b = Ok (Double.MkFraction Binary64.zero Binary64.nan),
      Double.reduced (Double.MkFraction Binary64.zero Binary64.nan) = false
    & Double.multiply c c = Throw RangeError].
Proof. by split; [split | | | |]; vm_compute. Qed.

(** C6 at [[1, 1e200, 0], [0, 1, 1e200]]: [validateMatrix] accepts the
    grid, and [computeAllSpaces] raises a RangeError on it, with and
    without the tracking of operations. *)
Theorem C6_validated_grid_raises :
  Double.validateMatrix Double.overflowGrid = Ok (2, 3)
  /\ forall track,
       Double.computeAllSpaces Double.overflowGrid track [::]
       = Throw RangeError.
Proof. by split=> [|[]]; vm_compute. Qed.

(** C1 at a grid of five rows of integers below 200 whose last row is the
    sum of the first and the fourth.  [validateMatrix] accepts it.  The
    report of [computeAllSpaces] has five pivots, hence rank 5, a null
    space of dimension 0 and a left null space of dimension 1, which is
    not rows minus rank: the flag of the dimension check is false. *)
Theorem C1_dimension_check_fails :
  Double.validateMatrix Double.dependentGrid = Ok (5, 5)
  /\ exists report h',
       [/\ Double.computeAllSpaces Double.dependentGrid false [::]
           = Ok (report, h'),
           Double.rref_pivots report = [:: 0; 1; 2; 3; 4]
           /\ Double.rank report = 5,
           Double.dimension (Double.column_space report) = 5
           /\ Double.dimension (Double.row_space report) = 5,
           Double.dimension (Double.null_space report) = 0
           /\ Double.dimension (Double.left_null_space report) = 1
         & Double.dimension_check_valid report = false].
Proof.
split; first by vm_compute.
eexists _, _; split; first by vm_compute; reflexivity.
- by split.
- by split.
- by split.
- by [].
Qed.

(** C2 at a grid of four rows and five columns of integers below 51.
    [computeNullSpace] returns one vector; its product with the matrix,
    computed over the rationals from the numerators and the denominators,
    is not the zero vector: none of its four entries is zero. *)
Theorem C2_null_vector_not_in_kernel :
  Double.validateMatrix Double.wideGrid = Ok (4, 5)
  /\ exists matrix h A x h',
       [/\ Double.Matrix_new Double.wideGrid [::] = Ok (matrix, h),
           Double.toFractionArray matrix h = Ok (A, h),
           Double.computeNullSpace matrix h = Ok ([:: x], h'),
           all Double.reduced x
         & Double.exactProduct A x
           = [:: 4755709 # 1360519938164930087477;
                 6618007 # 2721039876329860174954;
                 12904649 # 2721039876329860174954;
                 752203 # 2721039876329860174954]%Q].
Proof.
split; first by vm_compute.
eexists _, _, _, _, _; split.
- by vm_compute; reflexivity.
- by vm_compute; reflexivity.
- by vm_compute; reflexivity.
- by vm_compute.
- by vm_compute.
Qed.

(** * Further properties: Fraction *)

Section FractionExtras.

(** The recursion of [gcd] is the algorithm of Euclid: on natural numbers
    it ends within its fuel and returns the greatest common divisor. *)
Theorem Fraction_gcd_euclid (a b : Z) :
  (0 <= a)%Z -> (0 <= b)%Z -> gcd a b = Z.gcd a b.
Proof. exact: gcdE. Qed.

Lemma Fraction_gcd_euclid_witness : gcd 12 18 = Z.gcd 12 18.
Proof. by apply: Fraction_gcd_euclid. Defined.

Lemma Fraction_new_id (f : Fraction) :
  reduced f -> Fraction_new (numerator f) (denominator f) = Ok f.
Proof.
move=> Hf; have Hd := reduced_den Hf; have Hg := reduced_gcd Hf.
have Hd0 : denominator f <> 0%Z by lia.
rewrite (Fraction_newE _ Hd0) normalizeE.
case: Z.ltb_spec => [|_] /=; first by lia.
rewrite -(Z.gcd_abs_l (numerator f)) Hg !Z.div_1_r.
by case: f {Hf Hd Hg Hd0}.
Qed.

(** The constructor leaves a fraction in lowest terms as it is. *)
Theorem Fraction_new_reduced (f : Fraction) :
  reduced f -> Fraction_new (numerator f) (denominator f) = Ok f.
Proof. exact: Fraction_new_id. Qed.

Lemma Fraction_new_reduced_witness :
  Fraction_new (numerator (MkFraction (-3) 4)) (denominator (MkFraction (-3) 4))
  = Ok (MkFraction (-3) 4).
Proof. by apply: Fraction_new_reduced. Defined.

Local Open Scope ring_scope.

(** Two fractions in lowest terms are [equals] exactly when they are the
    same rational number, and [isZero] holds exactly of the number zero:
    the representation is canonical. *)
Theorem Fraction_equals_value (x y : Fraction) :
  reduced x -> reduced y ->
  equals x y = (toRat x == toRat y) /\ isZero x = (toRat x == 0).
Proof.
move=> Hx Hy; split; last exact: isZero_toRat.
apply/equalsP/eqP => [->|] //.
exact: toRat_inj.
Qed.

Lemma Fraction_equals_value_witness :
  let x := MkFraction 1 2 in
  let y := MkFraction (-3) 4 in
  equals x y = (toRat x == toRat y) /\ isZero x = (toRat x == 0).
Proof. by move=> x y; apply: Fraction_equals_value; vm_compute. Defined.

End FractionExtras.

(** * Further properties: fromDecimal *)

Section FromDecimal.

Variables (a' : Z) (b : positive).
Hypothesis Hgcd : Z.gcd a' (Zpos b) = 1%Z.
Hypothesis Hb : (Zpos b <= 10000)%Z.

Lemma Qlt_bool_iff x y : Qlt_bool x y = true <-> (x < y)%Q.
Proof.
split; first exact: Qlt_bool_true.
rewrite /Qlt_bool => Hlt; case E: (Qle_bool y x) => //.
by move/Qle_bool_iff: E => /Qle_not_lt.
Qed.

Lemma round_at_denominator :
  Math_round ((a' # b) * inject_Z (Zpos b))%Q = a'.
Proof.
rewrite /Math_round /Qfloor /=.
symmetry; apply: (Z.div_unique _ _ _ (Zpos b)); lia.
Qed.

Lemma cross_nonzero (p : positive) (k : Z) :
  (Zpos p < Zpos b)%Z -> (a' * Zpos p - k * Zpos b <> 0)%Z.
Proof.
move=> Hp E.
have Hdiv : (Zpos b | a' * Zpos p)%Z by exists k; lia.
have Hdiv' : (Zpos b | Zpos p)%Z.
  by apply: (Z.gauss _ a') => //; rewrite Z.gcd_comm.
by have := Z.divide_pos_le _ _ (Pos2Z.is_pos p) Hdiv'; lia.
Qed.

Lemma search_exact (count : nat) (d : Z) (best : Z * Z * Q) :
  (1 <= d <= Zpos b)%Z -> (Zpos b < d + Z.of_nat count)%Z ->
  (0 < best.2)%Q ->
  searchDenominator count (a' # b) d best = (a', Zpos b).
Proof.
elim: count d best => [|count IH] d best Hd Hc Hbest; first by lia.
case: d Hd Hc => [|p|p] Hd Hc; try lia.
rewrite [searchDenominator _ _ _ _]/=.
case: (Z.eq_dec (Zpos p) (Zpos b)) => [[Ep]|Hne].
  rewrite Ep round_at_denominator.
  set err := (X in Qlt_bool X _).
  have Herr : (err == 0)%Q.
    by rewrite /err /Qeq /=; lia.
  have -> : Qlt_bool err best.2 = true.
    by apply/Qlt_bool_iff; rewrite Herr.
  have -> : Qlt_bool err (1 # 10000000000) = true.
    by apply/Qlt_bool_iff; rewrite Herr.
  by [].
have Hlt : (Zpos p < Zpos b)%Z by lia.
set k := Math_round _.
have Hz := @cross_nonzero p k Hlt.
set err := (X in Qlt_bool X _).
have Hbig : (1 # 10000000000 <= err)%Q.
  rewrite /err /Qle /=; nia.
have Hpos : (0 < err)%Q.
  by apply: Qlt_le_trans Hbig.
have -> : Qlt_bool err (1 # 10000000000) = false.
  case E: (Qlt_bool _ _) => //.
  by move/Qlt_bool_iff: E => /Qlt_not_le.
by case: (Qlt_bool err best.2); apply: IH => //; lia.
Qed.

End FromDecimal.

Lemma Qred_coprime (a : Z) (b : positive) :
  Z.gcd a (Zpos b) = 1%Z -> Qred (a # b) = (a # b)%Q.
Proof.
rewrite -Z.ggcd_gcd /Qred.
have := Z.ggcd_correct_divisors a (Zpos b).
case: (Z.ggcd a (Zpos b)) => g [aa bb] /= [Ea Eb] Eg.
by move: Ea Eb; rewrite Eg !Z.mul_1_l => <- <-.
Qed.

Lemma fromDecimal_coprime (a : Z) (b : positive) :
  Z.gcd a (Zpos b) = 1%Z -> (Zpos b <= 10000)%Z ->
  fromDecimal (Finite (a # b)) = Ok (MkFraction a (Zpos b)).
Proof.
move=> Hg Hb.
have Hred : reduced (MkFraction a (Zpos b)).
  by rewrite /reduced /= Z.gcd_abs_l Hg.
rewrite /fromDecimal /Number_isInteger (Qred_coprime Hg) [Qden _]/= [Qnum _]/=.
case: Z.eqb_spec => [E1|Hb1]; first by rewrite -E1 (Fraction_new_id Hred).
have Hg' : Z.gcd (Z.abs a) (Zpos b) = 1%Z by rewrite Z.gcd_abs_l.
have Hbest : (0 < Qabs ((Z.abs a # b) - 1))%Q.
  rewrite /Qlt /=.
  have : Z.abs a <> Zpos b.
    by move=> E; move: Hg'; rewrite E Z.gcd_diag /=; lia.
  by lia.
have Hmax : (Zpos b < 1 + Z.of_nat maxDenominator)%Z.
  have -> : Z.of_nat maxDenominator = 10000%Z by vm_compute.
  by lia.
have -> : Qabs (a # b) = (Z.abs a # b)%Q by [].
rewrite (@search_exact (Z.abs a) b Hg' Hb maxDenominator 1
           (1%Z, 1%Z, Qabs ((Z.abs a # b) - 1)) ltac:(lia) Hmax Hbest) /=.
have -> : ((if Qlt_bool (a # b) 0 then -1 else 1) * Z.abs a = a)%Z.
  case E: (Qlt_bool _ _).
    by move/Qlt_bool_iff: E => E; red in E; simpl in E; lia.
  have E' : ~ (a # b < 0)%Q by move/Qlt_bool_iff; rewrite E.
  by rewrite /Qlt in E'; simpl in E'; lia.
exact: (Fraction_new_id Hred).
Qed.

(** * Further properties: the methods of Matrix *)

Section MatrixExtras.

Lemma wfMatrix_Inv h M : wfMatrix h M -> Inv 0 (size h) h M (gridOf h M).
Proof.
move=> HM; split => //; have HR := wfMatrix_readable HM.
apply/and3P; split => //=.
  exact: (isDataAt_lt (readable_data HR)).
case/andP: HR => _ /(all_nthP 0) Hrows.
by apply/(all_nthP 0) => k /Hrows /isRowAt_lt.
Qed.

Lemma entry_set G i j v a b :
  i < size G -> j < size (nth [::] G i) ->
  entry (set_nth [::] G i (set_nth zeroF (nth [::] G i) j v)) a b
  = if (a == i) && (b == j) then v else entry G a b.
Proof.
move=> Hi Hj; rewrite /entry nth_set_nth /=.
case: (a =P i) => [->|_] //=.
by rewrite nth_set_nth /=; case: (b =P j).
Qed.

(** [set] then [get]: after [set(i, j, value)] inside the matrix, with a
    value that [Fraction.from] converts, [get(i, j)] returns the converted
    value and every other entry is as before. *)
Theorem Matrix_set_get h M i j (value : JsValue) :
  wfMatrix h M -> i < rows M -> j < cols M -> convertible value ->
  exists f h',
    [/\ Fraction_from value = Ok f,
        Matrix_set M i j value h = Ok (tt, h'),
        wfMatrix h' M,
        get M i j h' = Ok (f, h')
      & forall a b, entry (gridOf h' M) a b
          = if (a == i) && (b == j) then f else entry (gridOf h M) a b].
Proof.
move=> HM Hi Hj Hv; have [Ef Hf] := Fraction_from_ok Hv.
have HG := wfMatrix_grid HM.
have [h' [E [HM' _ EG] _]] := putCell_spec (wfMatrix_Inv HM) Hi Hj Hf.
have Hent a b : entry (gridOf h' M) a b
    = if (a == i) && (b == j) then cellFraction value
      else entry (gridOf h M) a b.
  rewrite EG entry_set //; first by rewrite (wfGrid_size HG).
  by rewrite (wfGrid_row HG).
exists (cellFraction value), h'; split => //.
- by rewrite /Matrix_set (bindE _ (lift_ok _ Ef)).
- by rewrite (get_ok HM' Hi Hj) Hent !eqxx.
Qed.

Lemma Matrix_set_get_witness :
  exists f h',
    [/\ Fraction_from (num 7) = Ok f,
        Matrix_set matrix2x3 1 2 (num 7) heap2x3 = Ok (tt, h'),
        wfMatrix h' matrix2x3,
        get matrix2x3 1 2 h' = Ok (f, h')
      & forall a b, entry (gridOf h' matrix2x3) a b
          = if (a == 1) && (b == 2) then f
            else entry (gridOf heap2x3 matrix2x3) a b].
Proof. by apply: Matrix_set_get; vm_compute. Defined.

(** [clone] copies the rows: the copy holds the entries of the matrix, and
    a write into the copy leaves every entry of the matrix as it was. *)
Theorem Matrix_clone_independent h M i j (v : Fraction) :
  wfMatrix h M -> i < rows M -> j < cols M -> reduced v ->
  exists M' h1 h2,
    [/\ clone M h = Ok (M', h1),
        gridOf h1 M' = gridOf h M /\ gridOf h1 M = gridOf h M,
        putCell M' i j v h1 = Ok (tt, h2),
        get M' i j h2 = Ok (v, h2)
      & gridOf h2 M = gridOf h M].
Proof.
move=> HM Hi Hj Hv; have HR := wfMatrix_readable HM.
have [M' [h1 [Ec He HI Hr Hc]]] := clone_spec HM.
have Hi' : i < rows M' by rewrite Hr.
have Hj' : j < cols M' by rewrite Hc.
have [h2 [Ep [HM2 _ EG2] Hf]] := putCell_spec HI Hi' Hj' Hv.
have EG1 : gridOf h1 M = gridOf h M := extends_gridOf He HR.
have HG' : wfGrid (rows M') (cols M') (gridOf h M) := Inv_wfGrid HI.
have [_ HW _] := wfMatrix_Inv HM.
have Hap : apart (size h) (size h1) h1 M.
  apply: (@within_apart _ _ 0 (size h)); last by rewrite leqnn orbT.
  exact: (extends_within He HR HW).
exists M', h1, h2; split => //.
- by case: HI.
- rewrite (get_ok HM2 Hi' Hj') EG2 entry_set ?eqxx //.
    by rewrite (wfGrid_size HG').
  by rewrite (wfGrid_row HG').
- by rewrite (frame_gridOf Hf Hap).
Qed.

Lemma Matrix_clone_independent_witness :
  exists M' h1 h2,
    [/\ clone matrix2x3 heap2x3 = Ok (M', h1),
        gridOf h1 M' = gridOf heap2x3 matrix2x3
        /\ gridOf h1 matrix2x3 = gridOf heap2x3 matrix2x3,
        putCell M' 0 1 (F 9) h1 = Ok (tt, h2),
        get M' 0 1 h2 = Ok (F 9, h2)
      & gridOf h2 matrix2x3 = gridOf heap2x3 matrix2x3].
Proof. by apply: Matrix_clone_independent; vm_compute. Defined.

Lemma gswap_row m n G i j a :
  wfGrid m n G -> i < m -> j < m ->
  nth [::] (gswap G i j) a
  = nth [::] G (if a == j then i else if a == i then j else a).
Proof.
move=> HG Hi Hj; rewrite /gswap nth_set_nth /=.
case: (a =P j) => // _; rewrite nth_set_nth /=.
by case: (a =P i).
Qed.

Lemma gswap_gswap m n G i j :
  wfGrid m n G -> i < m -> j < m -> gswap (gswap G i j) i j = G.
Proof.
move=> HG Hi Hj; have HG' := wfGrid_gswap HG Hi Hj.
apply: (eq_from_nth (x0 := [::])).
  by rewrite (wfGrid_size (wfGrid_gswap HG' Hi Hj)) (wfGrid_size HG).
move=> a _; rewrite (gswap_row _ HG' Hi Hj) (gswap_row _ HG Hi Hj).
case: (a =P j) => [->|/eqP Haj].
  by rewrite eqxx; case: (i =P j) => [->|].
case: (a =P i) => [->|/eqP Hai]; first by rewrite eqxx.
by rewrite (negbTE Haj) (negbTE Hai).
Qed.

(** [swapRows] exchanges rows [i] and [j] and no other, and a second
    exchange restores the matrix. *)
Theorem Matrix_swapRows_involution h M i j :
  wfMatrix h M -> i < rows M -> j < rows M ->
  exists h' h'',
    [/\ swapRows M i j h = Ok (tt, h'),
        wfMatrix h' M,
        forall a, nth [::] (gridOf h' M) a
          = nth [::] (gridOf h M) (if a == j then i else if a == i then j else a),
        swapRows M i j h' = Ok (tt, h'')
      & gridOf h'' M = gridOf h M].
Proof.
move=> HM Hi Hj; have HG := wfMatrix_grid HM.
have [h' [E HI _]] := swapRows_spec (wfMatrix_Inv HM) Hi Hj.
have [h'' [E' [_ _ EG''] _]] := swapRows_spec HI Hi Hj.
case: (HI) => HM' _ EG'.
exists h', h''; split => //.
- by move=> a; rewrite EG' (gswap_row _ HG).
- by rewrite EG'' (gswap_gswap HG).
Qed.

Lemma Matrix_swapRows_involution_witness :
  exists h' h'',
    [/\ swapRows matrix2x3 0 1 heap2x3 = Ok (tt, h'),
        wfMatrix h' matrix2x3,
        forall a, nth [::] (gridOf h' matrix2x3) a
          = nth [::] (gridOf heap2x3 matrix2x3)
                (if a == 1 then 0 else if a == 0 then 1 else a),
        swapRows matrix2x3 0 1 h' = Ok (tt, h'')
      & gridOf h'' matrix2x3 = gridOf heap2x3 matrix2x3].
Proof. by apply: Matrix_swapRows_involution; vm_compute. Defined.

Local Open Scope ring_scope.

Lemma ptranspose_involution m n G :
  wfGrid m n G -> ptranspose n m (ptranspose m n G) = G.
Proof.
move=> HG; apply: (eq_from_nth (x0 := [::])).
  by rewrite size_mkseq (wfGrid_size HG).
move=> i; rewrite size_mkseq => Hi; rewrite nth_mkseq //.
apply: (eq_from_nth (x0 := zeroF)).
  by rewrite size_mkseq (wfGrid_row HG).
move=> j; rewrite size_mkseq => Hj.
by rewrite nth_mkseq // (entry_ptranspose _ Hj Hi).
Qed.

(** [transpose] returns a new matrix with the dimensions exchanged whose
    entry (j, i) is the entry (i, j) of the matrix, and the transpose of
    the transpose holds the entries of the matrix. *)
Theorem Matrix_transpose_involution h M :
  wfMatrix h M ->
  exists T h' T2 h'',
    [/\ transpose M h = Ok (T, h'),
        rows T = cols M /\ cols T = rows M,
        forall i j, (i < rows M)%N -> (j < cols M)%N ->
          entry (gridOf h' T) j i = entry (gridOf h M) i j,
        transpose T h' = Ok (T2, h'')
      & gridOf h'' T2 = gridOf h M].
Proof.
move=> HM; have HG := wfMatrix_grid HM.
have [T [h' [E He HT EG [Hr Hc]]]] := transpose_spec HM.
have [T2 [h'' [E2 _ _ EG2 _]]] := transpose_spec HT.
exists T, h', T2, h''; split => //.
- by move=> i j Hi Hj; rewrite EG entry_ptranspose.
- by rewrite EG2 EG Hr Hc (ptranspose_involution HG).
Qed.

Lemma Matrix_transpose_involution_witness :
  exists T h' T2 h'',
    [/\ transpose matrix2x3 heap2x3 = Ok (T, h'),
        rows T = cols matrix2x3 /\ cols T = rows matrix2x3,
        forall i j, (i < rows matrix2x3)%N -> (j < cols matrix2x3)%N ->
          entry (gridOf h' T) j i = entry (gridOf heap2x3 matrix2x3) i j,
        transpose T h' = Ok (T2, h'')
      & gridOf h'' T2 = gridOf heap2x3 matrix2x3].
Proof. by apply: Matrix_transpose_involution; vm_compute. Defined.

Lemma toFractionArray_spec h M :
  readable h M -> toFractionArray M h = Ok (gridOf h M, h).
Proof.
move=> HR; rewrite /toFractionArray (bindE _ (readData_ok (readable_data HR))).
apply: (mapM_read (x0 := 0%N)) => k Hk.
exact: (readRow_ok (readable_row HR Hk)).
Qed.

Lemma cellFraction_num z : cellFraction (num z) = F z.
Proof.
rewrite /cellFraction /num /Fraction_from.
have -> : inject_Z z = (z # 1)%Q by [].
by rewrite fromDecimal_coprime // Z.gcd_1_r.
Qed.

(** The constructor and [toFractionArray]: a Matrix built from a
    rectangular grid of integers holds, and gives back, each integer z as
    the fraction z/1. *)
Theorem Matrix_new_toFractionArray h (zs : seq (seq Z)) (n : nat) :
  all (fun row => size row == n) zs ->
  exists M h',
    [/\ Matrix_new [seq [seq num z | z <- row] | row <- zs] h = Ok (M, h'),
        extends h h', rows M = size zs
      & toFractionArray M h'
        = Ok ([seq [seq F z | z <- row] | row <- zs], h')].
Proof.
move=> /(all_nthP [::]) Hn.
set grid := [seq [seq num z | z <- row] | row <- zs].
have EI : inputGrid grid = [seq [seq F z | z <- row] | row <- zs].
  rewrite /inputGrid /grid -map_comp; apply: eq_map => row /=.
  by rewrite -map_comp; apply: eq_map => z /=; rewrite cellFraction_num.
have Hconv : all (all convertible) grid.
  rewrite /grid all_map; apply/(all_nthP [::]) => k _ /=.
  by rewrite all_map; apply/(all_nthP 0%Z).
have HG : wfGrid (size zs) n (inputGrid grid).
  rewrite EI; apply: wfGridP.
  - by rewrite size_map.
  - by move=> i Hi; rewrite (nth_map [::]) // size_map; apply/eqP/Hn.
  - move=> i Hi; rewrite (nth_map [::]) // all_map.
    by apply/(all_nthP 0%Z) => k _ /=; rewrite /reduced /= Z.gcd_1_r.
have := allocMatrix_spec h HG; rewrite {1 2}/inputGrid !size_map.
move=> [He HM EG].
exists (MkMatrix (size h + size zs) (size zs) (size (head [::] grid))),
       (h ++ [seq RowArray c | c <- inputGrid grid]
          ++ [:: DataArray (iota (size h) (size zs))]).
have HR : readable (h ++ [seq RowArray c | c <- inputGrid grid]
                      ++ [:: DataArray (iota (size h) (size zs))])
            (MkMatrix (size h + size zs) (size zs) (size (head [::] grid))).
  exact: (wfMatrix_readable HM).
split.
- by rewrite (Matrix_new_ok h Hconv) size_map.
- exact: He.
- by [].
- rewrite (toFractionArray_spec HR) -EI.
  by congr (Ok (_, _)).
Qed.

Lemma Matrix_new_toFractionArray_witness :
  exists M h',
    [/\ Matrix_new [seq [seq num z | z <- row]
                   | row <- [:: [:: 1; 2; 3]; [:: 4; 5; 6]]%Z] [::]
        = Ok (M, h'),
        extends [::] h', rows M = 2%N
      & toFractionArray M h'
        = Ok ([seq [seq F z | z <- row]
              | row <- [:: [:: 1; 2; 3]; [:: 4; 5; 6]]%Z], h')].
Proof. by apply: (@Matrix_new_toFractionArray [::] _ 3). Defined.

End MatrixExtras.

(** * Further properties: computeRREF *)




Section Tracking.

Variables (m n : nat).

Lemma pelim_track t1 t2 col cur elimRows G log1 log2 :
  (pelim t1 n col cur elimRows G log1).1
  = (pelim t2 n col cur elimRows G log2).1.
Proof.
elim: elimRows G log1 log2 => [|row rs IH] G log1 log2 //=.
by case: ifP => _; apply: IH.
Qed.

Lemma pstep_track t1 t2 col st1 st2 :
  pgrid st1 = pgrid st2 -> ppivots st1 = ppivots st2 -> pcur st1 = pcur st2 ->
  [/\ pgrid (pstep t1 m n col st1) = pgrid (pstep t2 m n col st2),
      ppivots (pstep t1 m n col st1) = ppivots (pstep t2 m n col st2)
    & pcur (pstep t1 m n col st1) = pcur (pstep t2 m n col st2)].
Proof.
move=> EG Ep Ec; rewrite /pstep EG Ec.
case: ifP => _ //=; rewrite Ep; split => //.
exact: pelim_track.
Qed.

Lemma ploop_track t1 t2 columns st1 st2 :
  pgrid st1 = pgrid st2 -> ppivots st1 = ppivots st2 -> pcur st1 = pcur st2 ->
  pgrid (ploop t1 m n columns st1) = pgrid (ploop t2 m n columns st2)
  /\ ppivots (ploop t1 m n columns st1) = ppivots (ploop t2 m n columns st2).
Proof.
elim: columns st1 st2 => [|col cs IH] st1 st2 EG Ep Ec //=.
rewrite Ec; case: ifP => _ //.
by have [H1 H2 H3] := pstep_track t1 t2 col EG Ep Ec; apply: IH.
Qed.

End Tracking.



Section Faithful.

Variables (m n : nat).

Lemma every_rcons {A} (P : A -> Prop) s x :
  every P s -> P x -> every P (rcons s x).
Proof. by elim: s => [|y s IH] //= [Hy /IH H] /H. Qed.

Lemma every_nth {A} (P : A -> Prop) x0 s k :
  every P s -> k < size s -> P (nth x0 s k).
Proof.
elim: s k => [|y s IH] //= [|k] [Hy Hs] //=.
by rewrite ltnS; apply: IH.
Qed.

Lemma pelim_faithful col cur elimRows G log :
  every (faithful n) log ->
  every (faithful n) (pelim true n col cur elimRows G log).2.
Proof.
elim: elimRows G log => [|row rs IH] G log //= H.
case: ifP => _; last exact: IH.
by apply: IH; apply: every_rcons.
Qed.

Lemma pstep_faithful col pst :
  every (faithful n) (plogs pst) ->
  every (faithful n) (plogs (pstep true m n col pst)).
Proof.
move=> H; rewrite /pstep; case: ifP => // _.
rewrite [plogs _]/=.
apply: pelim_faithful.
have H1 : every (faithful n)
    (if pfindPivot m (pgrid pst) (pcur pst) col != pcur pst
     then plog true (plogs pst) swap
            (SwapParams (pcur pst) (pfindPivot m (pgrid pst) (pcur pst) col))
            (pgrid pst)
            (if pfindPivot m (pgrid pst) (pcur pst) col != pcur pst
             then gswap (pgrid pst) (pcur pst)
                    (pfindPivot m (pgrid pst) (pcur pst) col)
             else pgrid pst)
     else plogs pst).
  by rewrite /plog; case: (_ != _) => //=; apply: every_rcons.
by case: (~~ equals _ _) => //=; apply: every_rcons.
Qed.

Lemma ploop_faithful columns pst :
  every (faithful n) (plogs pst) ->
  every (faithful n) (plogs (ploop true m n columns pst)).
Proof.
elim: columns pst => [|col cs IH] pst //= H.
by case: ifP => // _; apply: IH; apply: pstep_faithful.
Qed.

End Faithful.



(** * Further properties: rows of zeros *)

Lemma all_indices (a : pred Fraction) (row : seq Fraction) :
  all (fun j => a (nth zeroF row j)) (iota 0 (size row)) = all a row.
Proof.
apply/idP/idP.
  move=> /allP H; apply/(all_nthP zeroF) => j Hj.
  by apply: H; rewrite mem_iota add0n.
move=> /(all_nthP zeroF) H; apply/allP => j; rewrite mem_iota add0n /=.
exact: H.
Qed.

(** [isZeroRow] tells whether every entry of the row is zero, and
    [getNonZeroRows] returns, in order, the row arrays of the matrix whose
    entries are not all zero: the arrays themselves, not copies, and the
    heap is as before. *)
Theorem getNonZeroRows_rows h M :
  wfMatrix h M ->
  (forall i, i < rows M ->
     isZeroRow M i h = Ok (all isZero (nth [::] (gridOf h M) i), h))
  /\ getNonZeroRows M h
     = Ok ([seq nth 0 (rowsOf h (data M)) i
           | i <- iota 0 (rows M)
           & ~~ all isZero (nth [::] (gridOf h M) i)], h).
Proof.
move=> HM; have HG := wfMatrix_grid HM.
have Hz i : i < rows M ->
    pisZeroRow (cols M) (gridOf h M) i
    = all isZero (nth [::] (gridOf h M) i).
  by move=> Hi; rewrite /pisZeroRow -all_indices (wfGrid_row HG Hi).
split=> [i Hi|]; first by rewrite (isZeroRow_spec HM Hi) Hz.
rewrite (getNonZeroRows_spec HM) /pnonZeroRows; congr (Ok (_, _)).
congr (map _ _); apply: eq_in_filter => i.
by rewrite mem_iota add0n /= => /Hz ->.
Qed.

Lemma getNonZeroRows_rows_witness :
  (forall i, i < rows matrixReduced ->
     isZeroRow matrixReduced i heapReduced
     = Ok (all isZero (nth [::] (gridOf heapReduced matrixReduced) i),
           heapReduced))
  /\ getNonZeroRows matrixReduced heapReduced
     = Ok ([seq nth 0 (rowsOf heapReduced (data matrixReduced)) i
           | i <- iota 0 (rows matrixReduced)
           & ~~ all isZero (nth [::] (gridOf heapReduced matrixReduced) i)],
           heapReduced).
Proof. by apply: getNonZeroRows_rows; vm_compute. Defined.

(** * Further properties: parsing and the engine *)

Lemma parseMatrixCell_fillZerosCell (s : string) :
  parseMatrixCell (fillZerosCell s) = parseMatrixCell s.
Proof.
rewrite /fillZerosCell; case E: (isEmptyString (trim s)) => //.
by rewrite {2}/parseMatrixCell E.
Qed.

(** Filling the blank cells with zeros does not change what [parseMatrix]
    reads: the parsed matrix, or the error, is the same. *)
Theorem parseMatrix_fillZeros (matrix : seq (seq string)) :
  parseMatrix (fillZeros matrix) = parseMatrix matrix.
Proof.
rewrite /parseMatrix /fillZeros.
elim: matrix => [|row matrix IH] //=; rewrite IH; congr (rbind _ _).
by elim: row => [|s row IHr] //=; rewrite IHr parseMatrixCell_fillZerosCell.
Qed.

(** The same for the engine: [computeMatrix] returns the same outcome on
    a grid of strings and on the grid with its blank cells filled with
    zeros. *)
Theorem computeMatrix_fillZeros (matrix : seq (seq string)) track h :
  computeMatrix [seq [seq CString s | s <- row] | row <- fillZeros matrix]
                track h
  = computeMatrix [seq [seq CString s | s <- row] | row <- matrix] track h.
Proof.
rewrite /computeMatrix /parseMatrixInput.
suff -> : mapR (mapR parseCell)
            [seq [seq CString s | s <- row] | row <- fillZeros matrix]
          = mapR (mapR parseCell)
              [seq [seq CString s | s <- row] | row <- matrix] by [].
rewrite /fillZeros.
elim: matrix => [|row matrix IH] //=; rewrite IH; congr (rbind _ _).
by elim: row => [|s row IHr] //=; rewrite IHr parseMatrixCell_fillZerosCell.
Qed.

(** * Further properties: matrixUtils.js *)

(** [validateDimensions] clamps: with min at most max, both results lie
    between min and max, and a dimension that lies between them already
    is returned as it is. *)
Theorem validateDimensions_clamp (rows cols min max : Z) :
  (min <= max)%Z ->
  let r := (validateDimensions rows cols min max).1 in
  let c := (validateDimensions rows cols min max).2 in
  [/\ (min <= r <= max)%Z, (min <= c <= max)%Z,
      (min <= rows <= max)%Z -> r = rows
    & (min <= cols <= max)%Z -> c = cols].
Proof. by move=> H /=; split; lia. Qed.

Lemma validateDimensions_clamp_witness :
  let r := (validateDimensions 7 0 1 5).1 in
  let c := (validateDimensions 7 0 1 5).2 in
  [/\ (1 <= r <= 5)%Z, (1 <= c <= 5)%Z,
      (1 <= 7 <= 5)%Z -> r = 7%Z
    & (1 <= 0 <= 5)%Z -> c = 0%Z].
Proof. by apply: validateDimensions_clamp. Defined.

Section Resize.

Variable matrix : seq (seq string).

Let cell (i j : nat) : string := nth EmptyString (nth [::] matrix i) j.

Let writeCell (i : nat) (result : seq (seq string)) (j : nat) :=
  set_nth [::] result i (set_nth EmptyString (nth [::] result i) j (cell i j)).

Lemma resize_row i js result :
  i < size result -> all (fun j => j < size (nth [::] result i)) js ->
  let result' := foldl (writeCell i) result js in
  [/\ size result' = size result,
      forall a, size (nth [::] result' a) = size (nth [::] result a)
    & forall a j, nth EmptyString (nth [::] result' a) j
        = if (a == i) && (j \in js) then cell i j
          else nth EmptyString (nth [::] result a) j].
Proof.
elim: js result => [|j0 js IH] result Hi /=; first by split => // a j; rewrite andbF.
move=> /andP [Hj0 Hjs].
have Hs1 : size (writeCell i result j0) = size result.
  by rewrite /writeCell size_set_nth; apply/maxn_idPr.
have Hr1 a : size (nth [::] (writeCell i result j0) a)
             = size (nth [::] result a).
  rewrite /writeCell nth_set_nth /=; case: eqP => [->|] //.
  by rewrite size_set_nth; apply/maxn_idPr.
have [] := IH (writeCell i result j0); first by rewrite Hs1.
  by apply/allP => j /(allP Hjs); rewrite Hr1.
move=> E1 E2 E3; split; first by rewrite E1.
  by move=> a; rewrite E2.
move=> a j; rewrite E3 inE /writeCell nth_set_nth /=.
case: (a =P i) => [->|_] //=.
case: (j \in js); first by rewrite orbT.
rewrite orbF nth_set_nth /=.
by case: (j =P j0) => [->|].
Qed.

Lemma resize_rows indices js result :
  all (fun i => i < size result) indices ->
  (forall a, a < size result ->
     all (fun j => j < size (nth [::] result a)) js) ->
  let result' := foldl (fun res i => foldl (writeCell i) res js)
                       result indices in
  [/\ size result' = size result,
      forall a, size (nth [::] result' a) = size (nth [::] result a)
    & forall a j, nth EmptyString (nth [::] result' a) j
        = if (a \in indices) && (j \in js) then cell a j
          else nth EmptyString (nth [::] result a) j].
Proof.
elim: indices result => [|i0 indices IH] result /=; first by [].
move=> /andP [Hi0 Hrest] Hjs.
have [S1 R1 C1] := resize_row Hi0 (Hjs _ Hi0).
have [] := IH (foldl (writeCell i0) result js).
- by apply/allP => i /(allP Hrest); rewrite S1.
- by move=> a; rewrite S1 R1; apply: Hjs.
move=> S2 R2 C2; split; first by rewrite S2.
  by move=> a; rewrite R2.
move=> a j; rewrite C2 C1 inE.
case: (a =P i0) => [->|_] /=; last by [].
by case: (j \in js); rewrite ?andbF ?andbT //; case: (i0 \in indices).
Qed.

Lemma resizeMatrix_entries (newRows newCols : nat) :
  let result := resizeMatrix (Some matrix) newRows newCols in
  [/\ size result = newRows,
      forall i, i < newRows -> size (nth [::] result i) = newCols
    & forall i j, i < newRows -> j < newCols ->
        nth EmptyString (nth [::] result i) j
        = if (i < size matrix) && (j < size (head [::] matrix))
          then nth EmptyString (nth [::] matrix i) j
          else EmptyString].
Proof.
rewrite /resizeMatrix.
set minRows := minn (size matrix) newRows.
set minCols := minn (size (head [::] matrix)) newCols.
set res0 := nseq newRows (nseq newCols EmptyString).
have S0 : size res0 = newRows by rewrite size_nseq.
have R0 a : a < newRows -> nth [::] res0 a = nseq newCols EmptyString.
  by move=> Ha; rewrite nth_nseq Ha.
have [] := @resize_rows (iota 0 minRows) (iota 0 minCols) res0.
- apply/allP => i; rewrite mem_iota add0n S0 /= /minRows leq_min.
  by case/andP.
- move=> a; rewrite S0 => Ha; apply/allP => j.
  by rewrite mem_iota add0n R0 // size_nseq /= /minCols leq_min => /andP [].
move=> S R C; split; first by rewrite S.
  by move=> i Hi; rewrite R R0 // size_nseq.
move=> i j Hi Hj.
rewrite C !mem_iota !add0n /= /minRows /minCols !leq_min Hi Hj !andbT.
case: ifP => // _; rewrite R0 // nth_nseq.
by case: ifP.
Qed.

End Resize.

(** [resizeMatrix] returns a grid of the new dimensions that keeps the
    cells of the old grid which lie inside both, within the columns of the
    first old row, and holds the empty string everywhere else. *)
Theorem resizeMatrix_cells (matrix : seq (seq string)) (newRows newCols : nat) :
  let result := resizeMatrix (Some matrix) newRows newCols in
  [/\ size result = newRows,
      forall i, i < newRows -> size (nth [::] result i) = newCols
    & forall i j, i < newRows -> j < newCols ->
        nth EmptyString (nth [::] result i) j
        = if (i < size matrix) && (j < size (head [::] matrix))
          then nth EmptyString (nth [::] matrix i) j
          else EmptyString].
Proof. exact: resizeMatrix_entries. Qed.

(** [resizeMatrix] of a value that is not an array is the empty grid of
    [createEmptyMatrix] with the empty string as default; and resizing a
    rectangular grid to its own dimensions returns the grid. *)
Theorem resizeMatrix_same (matrix : seq (seq string)) (n : nat) :
  all (fun row => size row == n) matrix ->
  resizeMatrix (Some matrix) (size matrix) n = matrix
  /\ resizeMatrix None (size matrix) n
     = createEmptyMatrix (size matrix) n EmptyString.
Proof.
move=> /(all_nthP [::]) Hn; split; last by [].
have [S R C] := resizeMatrix_entries matrix (size matrix) n.
apply: (eq_from_nth (x0 := [::])) => // i; rewrite S => Hi.
apply: (eq_from_nth (x0 := EmptyString)).
  by rewrite R //; apply/esym/eqP/Hn.
move=> j; rewrite R // => Hj; rewrite C // Hi /=.
case: (matrix) Hi Hn Hj => [|row0 rest] //= _ /(_ 0 isT) /eqP -> ->.
by [].
Qed.

Lemma resizeMatrix_same_witness :
  let matrix := [:: [:: "1"; "2"]; [:: "3"; "4"]]%string in
  resizeMatrix (Some matrix) (size matrix) 2 = matrix
  /\ resizeMatrix None (size matrix) 2
     = createEmptyMatrix (size matrix) 2 EmptyString.
Proof. by move=> matrix; apply: resizeMatrix_same. Defined.

